(** * ksuid-ts: K-sortable unique identifiers

    A shallow embedding of the TypeScript modules [constants], [base62],
    [uint128] and [ksuid] of the package and of the function [bytesToHex]
    of its command line tool, followed by the properties of the
    specification that were checked against them and by further
    properties of the code.  The class [Sequence] is declared and tested
    in the package, but its module is not among the sources; it is
    modelled from the specification.

    Conventions.
    - A JavaScript [number] that holds an integer is a [Z].  Every
      intermediate value of the two codecs stays far below [2^53], so the
      double-precision arithmetic of the source is exact and [Z] arithmetic
      is a faithful rendering of it.
    - A [bigint] is an unbounded [Z].
    - A [Uint8Array] is a [list Z] of bytes; reads and writes go through
      [ta_get] and [ta_set], which write out what a typed array does with an
      index outside of its range.
    - A JavaScript string is the [list Z] of its UTF-16 code units.
    - A loop that the source does not bound takes a [fuel] argument and
      answers [None] when the fuel runs out before the loop condition
      becomes false.
    - What a function reads from the platform, the random bytes of the
      generator, is an argument of its model. *)

From Stdlib Require Import ZArith List Bool Lia String Ascii.
From stdpp Require Import base list.
Import ListNotations.
Local Open Scope Z_scope.

(* ===================================================================== *)
(** ** JavaScript primitives used by the sources *)
(* ===================================================================== *)

Module JS.

(** [ToInt32]: the signed 32-bit reading every bitwise operator applies
    to its operands. *)
Definition to_int32 (x : Z) : Z := (x + 2 ^ 31) mod 2 ^ 32 - 2 ^ 31.

(** [ToUint8]: the conversion a [Uint8Array] applies to a stored number. *)
Definition to_uint8 (x : Z) : Z := x mod 256.

(** [a << k] on numbers: a signed 32-bit result. *)
Definition shl (a k : Z) : Z :=
  to_int32 (Z.shiftl (to_int32 a) (Z.land k 31)).

(** [a >> k] on numbers: the sign-propagating shift of [ToInt32 a]. *)
Definition sar (a k : Z) : Z := Z.shiftr (to_int32 a) (Z.land k 31).

(** [a | b] and [a & b] on numbers. *)
Definition bor (a b : Z) : Z := Z.lor (to_int32 a) (to_int32 b).
Definition band (a b : Z) : Z := Z.land (to_int32 a) (to_int32 b).

(** [Math.floor(a / b)] for a positive divisor, and [a % b], whose sign
    is the sign of the dividend. *)
Definition floor_div (a b : Z) : Z := a / b.
Definition remainder (a b : Z) : Z := Z.rem a b.

(** Typed arrays.  A read outside of the array is [undefined]; where the
    source feeds the element to a bitwise operator or compares two
    in-range elements, [ta_get] stands for it ([undefined] counts as 0
    under [ToInt32]). *)
Definition ta_get (a : list Z) (i : Z) : Z :=
  if i <? 0 then 0 else default 0 (a !! Z.to_nat i).

(** A write converts the number with [ToUint8]; a write at a negative
    index or past the end is dropped. *)
Definition ta_set (a : list Z) (i : Z) (v : Z) : list Z :=
  if i <? 0 then a else <[Z.to_nat i := to_uint8 v]> a.

(** [new Uint8Array(n)] *)
Definition ta_new (n : nat) : list Z := repeat 0 n.

(** [s.charCodeAt(i)]: [None] stands for [NaN], the answer for an index
    outside of the string. *)
Definition charCodeAt (s : list Z) (i : Z) : option Z :=
  if i <? 0 then None else s !! Z.to_nat i.

(** Storing the result of [charCodeAt] in a typed array: [NaN] is
    stored as 0. *)
Definition ta_set_num (a : list Z) (i : Z) (v : option Z) : list Z :=
  ta_set a i (default 0 v).

(** The code units of a string literal. *)
Definition str (s : string) : list Z :=
  map (fun c => Z.of_N (N_of_ascii c)) (list_ascii_of_string s).

(** [a === b] on strings. *)
Fixpoint str_eqb (a b : list Z) : bool :=
  match a, b with
  | [], [] => true
  | x :: a', y :: b' => (x =? y) && str_eqb a' b'
  | _, _ => false
  end.

(** [a < b] on strings: code unit by code unit, a proper prefix first. *)
Fixpoint str_ltb (a b : list Z) : bool :=
  match a, b with
  | _, [] => false
  | [], _ :: _ => true
  | x :: a', y :: b' =>
      if x <? y then true else if y <? x then false else str_ltb a' b'
  end.

(** U+FFFD in UTF-8. *)
Definition replacement : list Z := [0xEF; 0xBF; 0xBD].

(** [new TextEncoder().encode(s)]: the UTF-8 bytes of the string; a
    surrogate pair becomes one four-byte sequence and a lone surrogate
    becomes U+FFFD. *)
Fixpoint utf8_encode (s : list Z) : list Z :=
  match s with
  | [] => []
  | c :: rest =>
      if c <? 0x80 then c :: utf8_encode rest
      else if c <? 0x800 then
        Z.lor 0xC0 (Z.shiftr c 6) :: Z.lor 0x80 (Z.land c 0x3F)
          :: utf8_encode rest
      else if (0xD800 <=? c) && (c <=? 0xDBFF) then
        match rest with
        | d :: rest' =>
            if (0xDC00 <=? d) && (d <=? 0xDFFF) then
              let cp := 0x10000 + (c - 0xD800) * 0x400 + (d - 0xDC00) in
              Z.lor 0xF0 (Z.shiftr cp 18)
                :: Z.lor 0x80 (Z.land (Z.shiftr cp 12) 0x3F)
                :: Z.lor 0x80 (Z.land (Z.shiftr cp 6) 0x3F)
                :: Z.lor 0x80 (Z.land cp 0x3F)
                :: utf8_encode rest'
            else replacement ++ utf8_encode rest
        | [] => replacement
        end
      else if (0xDC00 <=? c) && (c <=? 0xDFFF) then
        replacement ++ utf8_encode rest
      else
        Z.lor 0xE0 (Z.shiftr c 12)
          :: Z.lor 0x80 (Z.land (Z.shiftr c 6) 0x3F)
          :: Z.lor 0x80 (Z.land c 0x3F)
          :: utf8_encode rest
  end.

(** [new TextDecoder().decode(bytes)] on bytes below [0x80], the only
    ones the encoder stores: each byte is one code unit. *)
Definition utf8_decode_ascii (bytes : list Z) : list Z := bytes.

(** [target.set(source, offset)] on two [Uint8Array]s: a [RangeError]
    ([None]) when the source does not fit behind the offset, else the
    elements of the source replace those of the target from [offset] on. *)
Definition ta_set_array (target source : list Z) (offset : nat)
    : option (list Z) :=
  if (length target <? offset + length source)%nat then None
  else Some (take offset target ++ source
               ++ drop (offset + length source) target).

(** A [number] that may be [NaN]: [None] stands for [NaN].  Under
    [ToInt32], which [>>] and [&] apply to their operands, [NaN] is 0. *)
Definition int_of_number (x : option Z) : Z := default 0 x.

(** A [Date] is its time value, a whole number of milliseconds; [None] is
    the time value [NaN] of an invalid date.  [getTime()] returns the time
    value. *)
Definition Date : Type := option Z.
Definition getTime (d : Date) : option Z := d.

(** [new Date(ms)] for a whole number [ms]: a time value more than
    8.64e15 milliseconds away from the epoch makes an invalid date. *)
Definition new_Date (ms : Z) : Date :=
  if Z.abs ms <=? 8640000000000000 then Some ms else None.

(** The digit characters of [toString(16)]: [0-9] and [a-f]. *)
Definition hex_digit (d : Z) : Z := if d <? 10 then 48 + d else 87 + d.

(** The digits of a number that is not negative, least significant one
    first, each one put in front of those found so far; the last division
    leaves 0. *)
Fixpoint hex_loop (fuel : nat) (n : Z) (acc : list Z) : list Z :=
  match fuel with
  | O => acc
  | S fuel' =>
      let acc' := hex_digit (n mod 16) :: acc in
      if n / 16 =? 0 then acc' else hex_loop fuel' (n / 16) acc'
  end.

(** [n.toString(16)] for a whole [n], a number or a bigint: the digits
    without leading zeros, after a minus sign when [n] is negative.  A
    number of [k] bits has at most [k] digits, which bounds the loop. *)
Definition toString16 (n : Z) : list Z :=
  if n <? 0 then 45 :: hex_loop (S (Z.to_nat (Z.log2 (- n)))) (- n) []
  else hex_loop (S (Z.to_nat (Z.log2 n))) n [].

(** [s.padStart(targetLength, fill)] for a fill string of one code unit. *)
Definition padStart (s : list Z) (targetLength : nat) (fill : Z) : list Z :=
  repeat fill (targetLength - length s) ++ s.

(** [s.toUpperCase()] on code units below [0x80], the only ones the
    strings of hexadecimal digits hold: [a-z] become [A-Z]. *)
Definition toUpperCase (s : list Z) : list Z :=
  map (fun c => if (97 <=? c) && (c <=? 122) then c - 32 else c) s.

End JS.

(** The elements of a [Uint8Array]. *)
Definition is_byte (b : Z) : Prop := 0 <= b < 256.

(* ===================================================================== *)
(** ** constants.ts *)
(* ===================================================================== *)

Definition EPOCH_STAMP : Z := 1400000000.
Definition TIMESTAMP_BYTE_LENGTH : nat := 4.
Definition PAYLOAD_BYTE_LENGTH : nat := 16.
Definition BYTE_LENGTH : nat := TIMESTAMP_BYTE_LENGTH + PAYLOAD_BYTE_LENGTH.
Definition STRING_ENCODED_LENGTH : nat := 27.
Definition MIN_STRING_ENCODED : list Z := JS.str "000000000000000000000000000".
Definition MAX_STRING_ENCODED : list Z := JS.str "aWgEPTl1tmebfsQzFP4bxwgy80V".
Definition BASE62_CHARACTERS : list Z :=
  JS.str "0123456789ABCDEFGHIJKLMNOPQRSTUVWXYZabcdefghijklmnopqrstuvwxyz".
Definition ZERO_STRING : list Z := JS.str "000000000000000000000000000".
Definition OFFSET_UPPERCASE : Z := 10.
Definition OFFSET_LOWERCASE : Z := 36.

(* ===================================================================== *)
(** ** base62.ts *)
(* ===================================================================== *)

Module Base62.

(** [base62Value]: the argument is the code of the digit character; every
    code that is neither a decimal digit nor an upper-case letter takes
    the last branch. *)
Definition base62Value (charCode : Z) : Z :=
  if (48 <=? charCode) && (charCode <=? 57) then charCode - 48
  else if (65 <=? charCode) && (charCode <=? 90) then
    OFFSET_UPPERCASE + (charCode - 65)
  else OFFSET_LOWERCASE + (charCode - 97).

(** One step of the inner [for (const c of bp)] loop, shared by the
    encoder and the decoder; the state is [(quotient, remainder)]. *)
Definition division_step (srcBase dstBase : Z)
    (st : list Z * Z) (c : Z) : list Z * Z :=
  let '(quotient, remainder) := st in
  let value := c + remainder * srcBase in
  let digit := JS.floor_div value dstBase in
  let remainder' := JS.remainder value dstBase in
  if negb (length quotient =? 0)%nat || negb (digit =? 0)
  then (quotient ++ [digit], remainder')
  else (quotient, remainder').

(** One pass of the long division: the whole inner loop. *)
Definition long_division (srcBase dstBase : Z) (bp : list Z) : list Z * Z :=
  fold_left (division_step srcBase dstBase) bp ([], 0).

(** The word [(src[i] << 24) | (src[i+1] << 16) | (src[i+2] << 8) | src[i+3]]. *)
Definition word_at (src : list Z) (i : Z) : Z :=
  JS.bor (JS.bor (JS.bor (JS.shl (JS.ta_get src i) 24)
                         (JS.shl (JS.ta_get src (i + 1)) 16))
                 (JS.shl (JS.ta_get src (i + 2)) 8))
         (JS.ta_get src (i + 3)).

(** The [while (bp.length !== 0)] loop of [fastEncodeBase62]; the state is
    [(bp, n, dst)]. *)
Fixpoint encode_loop (fuel : nat) (bp : list Z) (n : Z) (dst : list Z)
    : option (Z * list Z) :=
  match bp with
  | [] => Some (n, dst)
  | _ :: _ =>
      match fuel with
      | O => None
      | S fuel' =>
          let '(quotient, remainder) := long_division 4294967296 62 bp in
          let n' := n - 1 in
          let dst' :=
            JS.ta_set_num dst n' (JS.charCodeAt BASE62_CHARACTERS remainder) in
          encode_loop fuel' quotient n' dst'
      end
  end.

(** The padding loop [for (let i = 0; i < n; i++) dst[i] = ZERO_STRING.charCodeAt(i)]. *)
Definition pad_head (n : Z) (dst : list Z) : list Z :=
  fold_left
    (fun d i => JS.ta_set_num d (Z.of_nat i)
                  (JS.charCodeAt ZERO_STRING (Z.of_nat i)))
    (seq 0 (Z.to_nat n)) dst.

Definition fastEncodeBase62 (fuel : nat) (src : list Z) : option (list Z) :=
  let dst := JS.ta_new STRING_ENCODED_LENGTH in
  let parts := [word_at src 0; word_at src 4; word_at src 8;
                word_at src 12; word_at src 16] in
  match encode_loop fuel parts (Z.of_nat STRING_ENCODED_LENGTH) dst with
  | None => None
  | Some (n, dst') => Some (JS.utf8_decode_ascii (pad_head n dst'))
  end.

Definition encodeBase62 (fuel : nat) (bytes : list Z) : option (list Z) :=
  fastEncodeBase62 fuel bytes.

(** The four stores [dst[n-4] = (remainder >> 24) & 0xFF; ...]. *)
Definition store_word (dst : list Z) (n remainder : Z) : list Z :=
  let dst := JS.ta_set dst (n - 4) (JS.band (JS.sar remainder 24) 0xFF) in
  let dst := JS.ta_set dst (n - 3) (JS.band (JS.sar remainder 16) 0xFF) in
  let dst := JS.ta_set dst (n - 2) (JS.band (JS.sar remainder 8) 0xFF) in
  JS.ta_set dst (n - 1) (JS.band remainder 0xFF).

(** The loop [for (let i = 0; i < n; i++) dst[i] = 0]. *)
Definition zero_head (n : Z) (dst : list Z) : list Z :=
  fold_left (fun d i => JS.ta_set d (Z.of_nat i) 0) (seq 0 (Z.to_nat n)) dst.

(** The [while (bp.length > 0)] loop of [fastDecodeBase62].  The answer
    carries the boolean the function returns and the final [dst]. *)
Fixpoint decode_loop (fuel : nat) (bp : list Z) (n : Z) (dst : list Z)
    : option (bool * list Z) :=
  match bp with
  | [] => Some (true, zero_head n dst)
  | _ :: _ =>
      match fuel with
      | O => None
      | S fuel' =>
          let '(quotient, remainder) := long_division 62 4294967296 bp in
          if n <? 4 then Some (false, dst)
          else decode_loop fuel' quotient (n - 4) (store_word dst n remainder)
      end
  end.

(** [parts[i] = base62Value(String.fromCharCode(src[i]))], stored in a
    [Uint8Array]. *)
Definition digits_of (src : list Z) : list Z :=
  map (fun b => JS.to_uint8 (base62Value b)) src.

Definition fastDecodeBase62 (fuel : nat) (dst src : list Z)
    : option (bool * list Z) :=
  if negb (length src =? STRING_ENCODED_LENGTH)%nat then Some (false, dst)
  else decode_loop fuel (digits_of src) (Z.of_nat BYTE_LENGTH) dst.

(** Every pass of the decoder consumes four bytes of [dst] or returns, so
    six passes are all a 20-byte destination allows. *)
Definition decode_fuel : nat := 6.

(** [decodeBase62]: [None] is the thrown error. *)
Definition decodeBase62 (s : list Z) : option (list Z) :=
  let dst := JS.ta_new BYTE_LENGTH in
  match fastDecodeBase62 decode_fuel dst (JS.utf8_encode s) with
  | Some (true, dst') => Some dst'
  | _ => None
  end.

End Base62.

(* ===================================================================== *)
(** ** uint128.ts *)
(* ===================================================================== *)

Module Uint128.

(** [values: [bigint, bigint]] holds the low half first; the halves are
    bigints, which nothing in the class reduces modulo [2^64]. *)
Record t : Type := mk { values0 : Z; values1 : Z }.

(** [new Uint128(high, low)] *)
Definition make (high low : Z) : t := {| values0 := low; values1 := high |}.

Definition bytesToBigInt (bytes : list Z) : Z :=
  fold_left (fun result b => Z.lor (Z.shiftl result 8) b) bytes 0.

(** [payload.slice(0, 8)] and [payload.slice(8, 16)] *)
Definition fromPayload (payload : list Z) : t :=
  let high := bytesToBigInt (take 8 payload) in
  let low := bytesToBigInt (take 8 (drop 8 payload)) in
  make high low.

Definition writeBigInt (array : list Z) (offset : Z) (value : Z)
    (length : nat) : list Z :=
  fold_left
    (fun arr i =>
       let shift := 8 * (Z.of_nat length - 1 - Z.of_nat i) in
       JS.ta_set arr (offset + Z.of_nat i)
         (Z.land (Z.shiftr value shift) 0xFF))
    (seq 0 length) array.

Definition toKSUID (v : t) (timestamp : Z) : list Z :=
  let result := JS.ta_new 20 in
  let result := JS.ta_set result 0 (JS.band (JS.sar timestamp 24) 0xFF) in
  let result := JS.ta_set result 1 (JS.band (JS.sar timestamp 16) 0xFF) in
  let result := JS.ta_set result 2 (JS.band (JS.sar timestamp 8) 0xFF) in
  let result := JS.ta_set result 3 (JS.band timestamp 0xFF) in
  let result := writeBigInt result 4 (values1 v) 8 in
  writeBigInt result 12 (values0 v) 8.

Definition toBytes (v : t) : list Z :=
  let result := JS.ta_new 16 in
  let result := writeBigInt result 0 (values1 v) 8 in
  writeBigInt result 8 (values0 v) 8.

Definition compare (a b : t) : Z :=
  if values1 a <? values1 b then -1
  else if values1 b <? values1 a then 1
  else if values0 a <? values0 b then -1
  else if values0 b <? values0 a then 1
  else 0.

Definition add (a b : t) : t :=
  let low := values0 a + values0 b in
  let high := values1 a + values1 b in
  if 0xFFFFFFFFFFFFFFFF <? low
  then make (high + 1) (Z.land low 0xFFFFFFFFFFFFFFFF)
  else make high low.

Definition subtract (a b : t) : t :=
  if values0 b <=? values0 a
  then make (values1 a - values1 b) (values0 a - values0 b)
  else make (values1 a - 1 - values1 b)
            (values0 a + 0x10000000000000000 - values0 b).

Definition increment (a : t) : t :=
  let low := values0 a + 1 in
  let high := values1 a in
  if 0xFFFFFFFFFFFFFFFF <? low then make (high + 1) 0 else make high low.

Definition equals (a b : t) : bool :=
  (values0 a =? values0 b) && (values1 a =? values1 b).

Definition ZERO : t := make 0 0.
Definition ONE : t := make 0 1.
Definition MAX : t := make 0xFFFFFFFFFFFFFFFF 0xFFFFFFFFFFFFFFFF.

(** [uint128Payload]: [ksuid.slice(TIMESTAMP_BYTE_LENGTH)] *)
Definition uint128Payload (ksuid : list Z) : t :=
  fromPayload (drop TIMESTAMP_BYTE_LENGTH ksuid).

(** [toString()]: ["0x"], then each half in hexadecimal, padded with
    zeros to sixteen characters, the high half first. *)
Definition toString (v : t) : list Z :=
  JS.str "0x"
    ++ JS.padStart (JS.toString16 (values1 v)) 16 48
    ++ JS.padStart (JS.toString16 (values0 v)) 16 48.

End Uint128.

(* ===================================================================== *)
(** ** ksuid.ts *)
(* ===================================================================== *)

Module KSUID.

Record t : Type := mk { bytes : list Z }.

(** The class invariant: twenty elements, each one a byte. *)
Definition wf (x : t) : Prop :=
  length (bytes x) = BYTE_LENGTH /\ Forall is_byte (bytes x).

(** [new KSUID(bytes)]: [None] is the thrown length error. *)
Definition construct (b : list Z) : option t :=
  if negb (length b =? BYTE_LENGTH)%nat then None else Some (mk b).

Definition getBytes (x : t) : list Z := bytes x.

Definition getTimestamp (x : t) : Z :=
  JS.bor (JS.bor (JS.bor (JS.shl (JS.ta_get (bytes x) 0) 24)
                         (JS.shl (JS.ta_get (bytes x) 1) 16))
                 (JS.shl (JS.ta_get (bytes x) 2) 8))
         (JS.ta_get (bytes x) 3).

Definition getPayload (x : t) : list Z := drop TIMESTAMP_BYTE_LENGTH (bytes x).

Definition toString (fuel : nat) (x : t) : option (list Z) :=
  Base62.encodeBase62 fuel (bytes x).

(** The [for] loop of [compare], entered at index [i] with [k] rounds
    left. *)
Fixpoint compare_from (k : nat) (i : Z) (thisBytes otherBytes : list Z) : Z :=
  match k with
  | O => 0
  | S k' =>
      if negb (JS.ta_get thisBytes i =? JS.ta_get otherBytes i)
      then JS.ta_get thisBytes i - JS.ta_get otherBytes i
      else compare_from k' (i + 1) thisBytes otherBytes
  end.

Definition compare (x other : t) : Z :=
  compare_from BYTE_LENGTH 0 (getBytes x) (getBytes other).

(** [this.toString() === other.toString()]; it returns only if both
    encodings do. *)
Definition equals (fuel : nat) (x other : t) : option bool :=
  match toString fuel x, toString fuel other with
  | Some a, Some b => Some (JS.str_eqb a b)
  | _, _ => None
  end.

Definition next (x : t) : option t :=
  let timestamp := getTimestamp x in
  let value := Uint128.uint128Payload (bytes x) in
  let nextValue := Uint128.increment value in
  if Uint128.equals nextValue Uint128.ZERO
  then construct (Uint128.toKSUID nextValue (timestamp + 1))
  else construct (Uint128.toKSUID nextValue timestamp).

Definition prev (x : t) : option t :=
  let timestamp := getTimestamp x in
  let value := Uint128.uint128Payload (bytes x) in
  let prevValue := Uint128.subtract value Uint128.ONE in
  if Uint128.equals prevValue Uint128.MAX
  then construct (Uint128.toKSUID prevValue (timestamp - 1))
  else construct (Uint128.toKSUID prevValue timestamp).

(** [parse]: [None] is any of the three thrown errors. *)
Definition parse (s : list Z) : option t :=
  if negb (length s =? STRING_ENCODED_LENGTH)%nat then None
  else if JS.str_ltb s MIN_STRING_ENCODED || JS.str_ltb MAX_STRING_ENCODED s
  then None
  else
    match Base62.decodeBase62 s with
    | None => None
    | Some b => construct b
    end.

Definition Nil : t := mk (JS.ta_new BYTE_LENGTH).
Definition Max : t := mk (repeat 0xFF BYTE_LENGTH).

(** [getTime()]: [new Date((this.getTimestamp() + EPOCH_STAMP) * 1000)] *)
Definition getTime (x : t) : JS.Date :=
  JS.new_Date ((getTimestamp x + EPOCH_STAMP) * 1000).

(** [isNil()]: [this.equals(KSUID.Nil)] *)
Definition isNil (fuel : nat) (x : t) : option bool := equals fuel x Nil.

(** [fromParts(time, payload)]: [None] is the thrown length error.  The
    time value is a whole number of milliseconds of at most 8.64e15 in
    absolute value, for which the double-precision quotient by 1000 has
    the floor of the exact one; an invalid date makes the timestamp [NaN],
    which the four stores read as 0. *)
Definition fromParts (time : JS.Date) (payload : list Z) : option t :=
  if negb (length payload =? PAYLOAD_BYTE_LENGTH)%nat then None
  else
    let bytes := JS.ta_new BYTE_LENGTH in
    let timestamp :=
      (fun ms => JS.floor_div ms 1000 - EPOCH_STAMP) <$> JS.getTime time in
    let ts := JS.int_of_number timestamp in
    let bytes := JS.ta_set bytes 0 (JS.band (JS.sar ts 24) 0xFF) in
    let bytes := JS.ta_set bytes 1 (JS.band (JS.sar ts 16) 0xFF) in
    let bytes := JS.ta_set bytes 2 (JS.band (JS.sar ts 8) 0xFF) in
    let bytes := JS.ta_set bytes 3 (JS.band ts 0xFF) in
    match JS.ta_set_array bytes payload TIMESTAMP_BYTE_LENGTH with
    | None => None
    | Some bytes => construct bytes
    end.

(** [randomWithTime(time)].  The argument [random] is the outcome of the
    call [getRandomBytes(PAYLOAD_BYTE_LENGTH)], which reads the generator
    of the platform: the array it returned, or [None] when it threw. *)
Definition randomWithTime (random : option (list Z)) (time : JS.Date)
    : option t :=
  match random with
  | None => None
  | Some payload =>
      let bytes := JS.ta_new BYTE_LENGTH in
      let timestamp :=
        (fun ms => JS.floor_div ms 1000 - EPOCH_STAMP) <$> JS.getTime time in
      let ts := JS.int_of_number timestamp in
      let bytes := JS.ta_set bytes 0 (JS.band (JS.sar ts 24) 0xFF) in
      let bytes := JS.ta_set bytes 1 (JS.band (JS.sar ts 16) 0xFF) in
      let bytes := JS.ta_set bytes 2 (JS.band (JS.sar ts 8) 0xFF) in
      let bytes := JS.ta_set bytes 3 (JS.band ts 0xFF) in
      match JS.ta_set_array bytes payload TIMESTAMP_BYTE_LENGTH with
      | None => None
      | Some bytes => construct bytes
      end
  end.

(** [fromBytes(bytes)]: [new KSUID(bytes)] *)
Definition fromBytes (b : list Z) : option t := construct b.

(** [parseOrNil]: whatever [parse] throws is caught. *)
Definition parseOrNil (s : list Z) : t :=
  match parse s with
  | Some x => x
  | None => Nil
  end.

(** [ids.sort((a, b) => a.compare(b))].  [Array.prototype.sort] is stable
    and, for a comparator that is a consistent order of the elements, as
    [compare] is on identifiers, returns them in that order; this is the
    list a stable insertion sort builds.  The method sorts in place: the
    result is the new content of [ids]. *)
Fixpoint sort_insert (a : t) (ids : list t) : list t :=
  match ids with
  | [] => [a]
  | b :: rest =>
      if compare a b <=? 0 then a :: ids else b :: sort_insert a rest
  end.

Definition sort (ids : list t) : list t := foldr sort_insert [] ids.

(** [isSorted(ids)]: the loop over the pairs [ids[i - 1]], [ids[i]]. *)
Fixpoint isSorted (ids : list t) : bool :=
  match ids with
  | a :: rest =>
      match rest with
      | b :: _ => if 0 <? compare a b then false else isSorted rest
      | [] => true
      end
  | [] => true
  end.

End KSUID.

(* ===================================================================== *)
(** ** The bounded sequence generator *)
(* ===================================================================== *)

Module Sequence.

(** Modelled from the spec: the state of the class [Sequence], whose
    implementation ([sequence.ts]) is not among the sources: the seed,
    fixed at construction, and the counter. *)
Record t : Type := mk { seed : KSUID.t; count : Z }.

(** Modelled from the spec: the constructor of the absent [sequence.ts].
    Initial state: active, counter 0. *)
Definition create (seed : KSUID.t) : t := mk seed 0.

(** Modelled from the spec: the implementation of the class [Sequence]
    ([sequence.ts]) is not among the sources; only its declaration and
    its tests are.  The identifier emitted at counter [c] has the seed's
    timestamp and high-order 112 payload bits, and the low 16 payload
    bits, bytes 18 and 19, set to [c]. *)
Definition withCounter (seed : KSUID.t) (c : Z) : KSUID.t :=
  KSUID.mk
    (JS.ta_set
       (JS.ta_set (KSUID.bytes seed) 18 (Z.land (Z.shiftr c 8) 0xFF))
       19 (Z.land c 0xFF)).

(** Modelled from the spec: [next()], of the absent [sequence.ts].  While
    active (counter in [0, 65536)) it produces the identifier of the
    current counter and advances the counter by one; once the counter has
    reached 65536 it fails ([None]). *)
Definition next (s : t) : option (KSUID.t * t) :=
  if (0 <=? count s) && (count s <? 65536)
  then Some (withCounter (seed s) (count s), mk (seed s) (count s + 1))
  else None.

(** The capacity of one seed that [index.d.ts] and the README document,
    as a number of calls. *)
Definition capacity : nat := Z.to_nat 65536.

(** [k] calls of [next()] in a row: the identifiers in emission order and
    the final state, or [None] as soon as one call fails. *)
Fixpoint emit (k : nat) (s : t) : option (list KSUID.t * t) :=
  match k with
  | O => Some ([], s)
  | S k' =>
      match next s with
      | None => None
      | Some (id, s') =>
          match emit k' s' with
          | None => None
          | Some (ids, s'') => Some (id :: ids, s'')
          end
      end
  end.

End Sequence.

(* ===================================================================== *)
(** ** cli.ts *)
(* ===================================================================== *)

Module Cli.

(** [bytesToHex]: every byte as two hexadecimal digits, joined and put in
    upper case. *)
Definition bytesToHex (bytes : list Z) : list Z :=
  JS.toUpperCase
    (concat (map (fun byte => JS.padStart (JS.toString16 byte) 2 48) bytes)).

End Cli.

(* ===================================================================== *)
(** ** Sample identifiers used in the evaluations below *)
(* ===================================================================== *)

(** The identifier whose last two words are [w3] and [w4] and whose other
    twelve bytes are zero. *)
Definition low_words (w3 w4 : list Z) : KSUID.t :=
  KSUID.mk (repeat 0 12 ++ w3 ++ w4).

(** Timestamp 0 with the all-ones payload. *)
Definition max_payload : KSUID.t := KSUID.mk (repeat 0 4 ++ repeat 0xFF 16).

(** An identifier none of whose five words has its high bit set, and a
    later one with the same payload. *)
Definition sample_id : KSUID.t :=
  KSUID.mk [6; 105; 247; 239; 18; 52; 86; 120; 1; 35; 69; 103;
            9; 171; 205; 239; 16; 50; 84; 118].
Definition later_id : KSUID.t :=
  KSUID.mk [6; 105; 247; 240; 18; 52; 86; 120; 1; 35; 69; 103;
            9; 171; 205; 239; 16; 50; 84; 118].

(* ===================================================================== *)
(** ** Numbers denoted by digit lists *)
(* ===================================================================== *)

(** The number a list of digits denotes in base [base], most significant
    digit first. *)
Definition val (base : Z) (l : list Z) : Z :=
  fold_left (fun acc d => acc * base + d) l 0.

(** Byte [k] of [v], counted from the least significant one. *)
Definition byte_of (v k : Z) : Z := (v / 2 ^ (8 * k)) mod 256.

(** The big-endian bytes of the low [8 * 4] and [8 * 8] bits of a number. *)
Definition be4 (v : Z) : list Z :=
  [byte_of v 3; byte_of v 2; byte_of v 1; byte_of v 0].
Definition be8 (v : Z) : list Z :=
  [byte_of v 7; byte_of v 6; byte_of v 5; byte_of v 4;
   byte_of v 3; byte_of v 2; byte_of v 1; byte_of v 0].

(** The sixteen big-endian bytes of the low 128 bits of a number. *)
Definition be16 (v : Z) : list Z := be8 (v / 2 ^ 64) ++ be8 v.

(** The payload of an identifier, read as one unsigned number, and its
    two halves. *)
Definition payload_value (x : KSUID.t) : Z := val 256 (KSUID.getPayload x).
Definition payload_high (x : KSUID.t) : Z :=
  val 256 (take 8 (drop 4 (KSUID.bytes x))).
Definition payload_low (x : KSUID.t) : Z := val 256 (drop 12 (KSUID.bytes x)).

(** The [n] digits of [v] in base [base], most significant digit first. *)
Fixpoint digits (base : Z) (n : nat) (v : Z) : list Z :=
  match n with
  | O => []
  | S n' => digits base n' (v / base) ++ [v mod base]
  end.

(** The byte the encoder stores for the remainder [r]:
    [dst[n] = BASE62_CHARACTERS.charCodeAt(r)]. *)
Definition char_of (r : Z) : Z :=
  JS.to_uint8 (default 0 (JS.charCodeAt BASE62_CHARACTERS r)).

(** The text of the number [v]: its 27 base-62 digits in the alphabet. *)
Definition text_of (v : Z) : list Z := map char_of (digits 62 27 v).

(** An identifier none of whose five words has its high bit set. *)
Definition words_nonneg (x : KSUID.t) : Prop :=
  Forall (fun i => JS.ta_get (KSUID.bytes x) i < 128) [0; 4; 8; 12; 16].

(** A quotient as the long division builds it: digits that are not
    negative, the first one not zero. *)
Definition canonical (q : list Z) : Prop :=
  Forall (fun d => 0 <= d) q /\ match q with [] => True | d :: _ => 0 < d end.

(** The invariant of the inner loop of the long division: the quotient so
    far, times the divisor, plus the remainder, is the number [P] read so
    far. *)
Definition division_inv (srcBase dstBase : Z) (st : list Z * Z) (P : Z) : Prop :=
  canonical (fst st) /\ 0 <= snd st < dstBase
  /\ val srcBase (fst st) * dstBase + snd st = P.

(** Membership in the 62-character alphabet, and strings of code units
    below [0x80]. *)
Definition in_alphabet (c : Z) : bool := existsb (Z.eqb c) BASE62_CHARACTERS.
Definition ascii_only (s : list Z) : bool := forallb (fun c => c <? 0x80) s.

(** The number the two halves of a [Uint128] denote, and the values whose
    low half is a 64-bit number. *)
Definition uint128_value (v : Uint128.t) : Z :=
  Uint128.values1 v * 2 ^ 64 + Uint128.values0 v.
Definition low_in_range (v : Uint128.t) : Prop :=
  0 <= Uint128.values0 v < 2 ^ 64.

(** The number of an identifier: its twenty bytes read as one unsigned
    number. *)
Definition ksuid_value (x : KSUID.t) : Z := val 256 (KSUID.bytes x).

(** The timestamp the factories compute from a date, as the four stores
    read it: [Math.floor(time.getTime() / 1000) - EPOCH_STAMP]. *)
Definition stamp_of (time : JS.Date) : Z :=
  JS.int_of_number
    ((fun ms => JS.floor_div ms 1000 - EPOCH_STAMP) <$> JS.getTime time).

(** The code units of a string are 16-bit numbers. *)
Definition is_string (s : list Z) : Prop :=
  Forall (fun c => 0 <= c < 65536) s.

(** The two upper-case hexadecimal digits of a byte. *)
Definition HEX_UPPER : list Z := JS.str "0123456789ABCDEF".
Definition hex_pair (b : Z) : list Z :=
  [default 0 (HEX_UPPER !! Z.to_nat (b / 16));
   default 0 (HEX_UPPER !! Z.to_nat (b mod 16))].

(* ===================================================================== *)
(** ** Basic facts about the loops *)
(* ===================================================================== *)

Lemma long_division_cons srcBase dstBase c bp :
  Base62.long_division srcBase dstBase (c :: bp) =
  fold_left (Base62.division_step srcBase dstBase) bp
    (Base62.division_step srcBase dstBase ([], 0) c).
Proof. reflexivity. Qed.

(** Once the quotient has a first word, every later digit is appended
    behind it. *)
Lemma division_keeps_head srcBase dstBase bp h q r :
  exists q' r',
    fold_left (Base62.division_step srcBase dstBase) bp (h :: q, r) =
    (h :: q', r').
Proof.
  revert q r. induction bp as [|c bp IH]; intros q r; simpl.
  - eauto.
  - apply IH.
Qed.

(** A leading word [-1] is its own quotient digit: [Math.floor(-1 / 62)]
    is [-1] and [-1 % 62] is [-1], so the quotient never becomes empty. *)
Lemma encode_loop_stuck fuel tl n dst :
  Base62.encode_loop fuel (-1 :: tl) n dst = None.
Proof.
  revert tl n dst. induction fuel as [|fuel IH]; intros tl n dst.
  - reflexivity.
  - cbn [Base62.encode_loop]. rewrite long_division_cons.
    change (Base62.division_step 4294967296 62 ([], 0) (-1))
      with ([-1], -1).
    destruct (division_keeps_head 4294967296 62 tl (-1) [] (-1))
      as (q' & r' & ->).
    apply IH.
Qed.

(** More fuel does not change an answer of the encoder. *)
Lemma encode_loop_fuel_mono fuel fuel' bp n dst res :
  (fuel <= fuel')%nat ->
  Base62.encode_loop fuel bp n dst = Some res ->
  Base62.encode_loop fuel' bp n dst = Some res.
Proof.
  revert fuel' bp n dst. induction fuel as [|fuel IH]; intros fuel' bp n dst Hle H.
  - destruct bp; [destruct fuel'|]; simpl in *; congruence.
  - destruct fuel' as [|fuel']; [lia|].
    destruct bp as [|c bp]; [exact H|].
    cbn [Base62.encode_loop] in *.
    destruct (Base62.long_division 4294967296 62 (c :: bp)) as [q r].
    apply IH; [lia | exact H].
Qed.

Lemma encodeBase62_fuel_mono fuel fuel' b s :
  (fuel <= fuel')%nat ->
  Base62.encodeBase62 fuel b = Some s ->
  Base62.encodeBase62 fuel' b = Some s.
Proof.
  unfold Base62.encodeBase62, Base62.fastEncodeBase62. intros Hle H.
  destruct (Base62.encode_loop fuel _ _ _) as [[n d]|] eqn:E; [|discriminate].
  rewrite (encode_loop_fuel_mono _ _ _ _ _ _ Hle E). exact H.
Qed.

(* ===================================================================== *)
(** ** Arithmetic of the bitwise operators *)
(* ===================================================================== *)

Lemma to_int32_small x : - 2 ^ 31 <= x < 2 ^ 31 -> JS.to_int32 x = x.
Proof.
  intros H. unfold JS.to_int32. rewrite Z.mod_small; lia.
Qed.

Lemma to_int32_range x : - 2 ^ 31 <= JS.to_int32 x < 2 ^ 31.
Proof.
  unfold JS.to_int32.
  pose proof (Z.mod_pos_bound (x + 2 ^ 31) (2 ^ 32) ltac:(lia)). lia.
Qed.

Lemma to_int32_cong x : exists m, JS.to_int32 x = x + m * 2 ^ 32.
Proof.
  exists (- ((x + 2 ^ 31) / 2 ^ 32)). unfold JS.to_int32.
  pose proof (Z.div_mod (x + 2 ^ 31) (2 ^ 32) ltac:(lia)). lia.
Qed.

(** Below bit [k] the number [a * 2^k] has no bit set, so [|] adds. *)
Lemma lor_low a k y :
  0 <= k -> 0 <= y < 2 ^ k -> Z.lor (a * 2 ^ k) y = a * 2 ^ k + y.
Proof.
  intros Hk Hy. symmetry. apply Z.add_nocarry_lor.
  apply Z.bits_inj'. intros n Hn.
  rewrite Z.land_spec, Z.bits_0.
  destruct (Z.lt_ge_cases n k) as [Hlt|Hge].
  - rewrite Z.mul_pow2_bits_low by lia. reflexivity.
  - rewrite <- (Z.mod_small y (2 ^ k)) by lia.
    rewrite Z.mod_pow2_bits_high by lia. apply andb_false_r.
Qed.

Lemma lor_byte r b : 0 <= b < 256 -> Z.lor (Z.shiftl r 8) b = r * 256 + b.
Proof.
  intros Hb. rewrite Z.shiftl_mul_pow2 by lia.
  change 256 with (2 ^ 8). apply lor_low; lia.
Qed.

Lemma land_255 x : Z.land x 255 = x mod 256.
Proof. change 255 with (Z.ones 8). rewrite Z.land_ones by lia. reflexivity. Qed.

(** Closed goals are settled by evaluation, one conjunct at a time. *)
Ltac eval_goal := vm_compute; first [reflexivity | discriminate | congruence].
Ltac eval_conj := repeat (apply conj); eval_goal.

(* ===================================================================== *)
(** ** Evaluations of the code *)
(* ===================================================================== *)

(** C1 (base62 round trip), evaluated on the code.  The buffer [b] with
    words [00000001 80000000] is encoded as [e], the text of [2^31],
    because the encoder reads the last word as the signed number [-2^31];
    decoding [e] gives the buffer [b'], which is not [b].  The text [s]
    has 27 characters, lies within the bounds and decodes to [b], and
    encoding [b] gives [e], which is not [s].  (On buffers none of whose
    words has its high bit set both round trips hold:
    [round_trip_nonneg_words], [round_trip_text_nonneg_words].) *)
Theorem C1_round_trip_broken :
  let b := KSUID.bytes (low_words [0; 0; 0; 1] [128; 0; 0; 0]) in
  let b' := KSUID.bytes (low_words [0; 0; 0; 0] [128; 0; 0; 0]) in
  let e := JS.str "0000000000000000000002LKcb2" in
  let s := JS.str "00000000000000000000071zrn6" in
  (Base62.encodeBase62 28 b = Some e
   /\ Base62.decodeBase62 e = Some b'
   /\ b' <> b)
  /\ (length s = 27%nat
      /\ JS.str_ltb s MIN_STRING_ENCODED = false
      /\ JS.str_ltb MAX_STRING_ENCODED s = false
      /\ Base62.decodeBase62 s = Some b
      /\ Base62.encodeBase62 28 b = Some e
      /\ e <> s).
Proof. cbv zeta. eval_conj. Qed.

(** C2 (next and prev are strictly monotone), evaluated on the code.  At
    timestamp 0 with the all-ones payload, [increment] returns the halves
    [(2^64, 0)], which [equals] does not take for [ZERO]; [next()] keeps
    the timestamp and returns the all-zero identifier, so [compare] of the
    identifier and its successor is 255, not negative.  In the same way
    [prev()] of the all-zero identifier is that identifier, so [compare]
    of the predecessor and the all-zero identifier is 255 as well. *)
Theorem C2_next_not_increasing :
  KSUID.next max_payload = Some KSUID.Nil
  /\ KSUID.getTimestamp KSUID.Nil = KSUID.getTimestamp max_payload
  /\ KSUID.prev KSUID.Nil = Some max_payload
  /\ KSUID.compare max_payload KSUID.Nil = 255.
Proof. eval_conj. Qed.

(** C4 (order preservation), evaluated on the code.  The buffer with words
    [00000001 80000000] is above the buffer with words [00000001 00000000]
    byte by byte, and its text is below the text of the other one.  (On
    buffers none of whose words has its high bit set the two orders
    agree: [order_nonneg_words].) *)
Theorem C4_order_not_preserved :
  let a := low_words [0; 0; 0; 1] [128; 0; 0; 0] in
  let b := low_words [0; 0; 0; 1] [0; 0; 0; 0] in
  let sa := JS.str "0000000000000000000002LKcb2" in
  let sb := JS.str "0000000000000000000004gfFC4" in
  KSUID.compare a b = 128
  /\ Base62.encodeBase62 28 (KSUID.bytes a) = Some sa
  /\ Base62.encodeBase62 28 (KSUID.bytes b) = Some sb
  /\ JS.str_ltb sa sb = true.
Proof. cbv zeta. eval_conj. Qed.

(** C5 (increment wraps at MAX), evaluated on the code.  [increment] adds
    the carry to the high half and does not reduce it: at [MAX] the high
    half becomes [2^64], and [equals] tells the result from [ZERO].
    ([increment_is_add_one]: [increment] and [add(_, ONE)] do return the
    same halves.) *)
Theorem C5_increment_MAX_not_ZERO :
  Uint128.increment Uint128.MAX = Uint128.make (2 ^ 64) 0
  /\ Uint128.equals (Uint128.increment Uint128.MAX) Uint128.ZERO = false
  /\ Uint128.increment Uint128.MAX <> Uint128.ZERO.
Proof. eval_conj. Qed.

(** C6 (getTimestamp is unsigned), evaluated on the code.  The bitwise
    operators give a signed 32-bit number: for the all-ones identifier the
    timestamp is [-1], and for byte 0 equal to [0x80] and three zero bytes
    it is [-2^31].  ([getTimestamp_sign]: it is negative whenever byte 0
    is [0x80] or more.) *)
Theorem C6_getTimestamp_negative :
  KSUID.getTimestamp KSUID.Max = -1
  /\ KSUID.getTimestamp (KSUID.mk ([128; 0; 0; 0] ++ repeat 0 16)) = - 2 ^ 31.
Proof. eval_conj. Qed.

(** C8 (the encoder terminates), evaluated on the code.  For the all-ones
    buffer the five words are [-1]; the leading quotient word is [-1] after
    every pass, so no number of passes empties the quotient.
    ([toString_diverges_high_byte]: the same holds whenever byte 0 is
    [0x80] or more; [encodeBase62_nonneg_words]: when no word has its high
    bit set the loop returns within 27 passes.) *)
Theorem C8_encoder_diverges_on_Max :
  forall fuel : nat, Base62.encodeBase62 fuel (KSUID.bytes KSUID.Max) = None.
Proof.
  intros fuel. unfold Base62.encodeBase62, Base62.fastEncodeBase62.
  change (Base62.word_at (KSUID.bytes KSUID.Max) 0) with (-1).
  rewrite encode_loop_stuck. reflexivity.
Qed.

(** C10 (equals is byte equality), evaluated on the code.  The buffers
    with words [0000003E FFFFFFFF] and [0000003E FFFFFFFE] have the same
    text (the last division leaves a negative remainder, stored as a NUL
    character), so [equals] answers [true] for two identifiers that
    [compare] tells apart.  (On buffers none of whose words has its high
    bit set [equals] is equality of the bytes: [equals_nonneg_words].) *)
Theorem C10_equals_not_byte_equality :
  let a := low_words [0; 0; 0; 62] [255; 255; 255; 255] in
  let b := low_words [0; 0; 0; 62] [255; 255; 255; 254] in
  KSUID.equals 28 a b = Some true
  /\ KSUID.bytes a <> KSUID.bytes b
  /\ KSUID.compare a b = 1.
Proof.
  cbv zeta. eval_conj.
Qed.

(* ===================================================================== *)
(** ** Identifiers as a timestamp and two payload halves *)
(* ===================================================================== *)

Lemma shl_byte b k :
  is_byte b -> 0 <= k < 32 -> JS.shl b k = JS.to_int32 (b * 2 ^ k).
Proof.
  intros Hb Hk. unfold JS.shl, is_byte in *.
  rewrite (to_int32_small b) by lia.
  replace (Z.land k 31) with k.
  - rewrite Z.shiftl_mul_pow2 by lia. reflexivity.
  - change 31 with (Z.ones 5). rewrite Z.land_ones by lia.
    rewrite Z.mod_small; lia.
Qed.

(** The timestamp word is the signed reading of the four bytes. *)
Lemma word_signed b0 b1 b2 b3 :
  is_byte b0 -> is_byte b1 -> is_byte b2 -> is_byte b3 ->
  JS.bor (JS.bor (JS.bor (JS.shl b0 24) (JS.shl b1 16)) (JS.shl b2 8)) b3
  = JS.to_int32 (val 256 [b0; b1; b2; b3]).
Proof.
  unfold is_byte. intros H0 H1 H2 H3.
  rewrite !shl_byte by (unfold is_byte; lia).
  rewrite (to_int32_small (b1 * 2 ^ 16)) by lia.
  rewrite (to_int32_small (b2 * 2 ^ 8)) by lia.
  destruct (to_int32_cong (b0 * 2 ^ 24)) as [m Hm].
  pose proof (to_int32_range (b0 * 2 ^ 24)) as Hr.
  set (s := JS.to_int32 (b0 * 2 ^ 24)) in *.
  assert (Hs : s = (b0 + m * 256) * 2 ^ 24) by lia.
  unfold JS.bor.
  rewrite (to_int32_small s) by lia.
  rewrite (to_int32_small (b1 * 2 ^ 16)) by lia.
  rewrite Hs at 1. rewrite lor_low by lia.
  replace ((b0 + m * 256) * 2 ^ 24 + b1 * 2 ^ 16)
    with (((b0 + m * 256) * 2 ^ 8 + b1) * 2 ^ 16) by lia.
  rewrite (to_int32_small (b2 * 2 ^ 8)) by lia.
  rewrite (to_int32_small (_ * 2 ^ 16)) by lia.
  rewrite lor_low by lia.
  replace (((b0 + m * 256) * 2 ^ 8 + b1) * 2 ^ 16 + b2 * 2 ^ 8)
    with ((((b0 + m * 256) * 2 ^ 8 + b1) * 2 ^ 8 + b2) * 2 ^ 8) by lia.
  rewrite (to_int32_small b3) by lia.
  rewrite (to_int32_small (_ * 2 ^ 8)) by lia.
  rewrite lor_low by lia.
  unfold val; cbn [fold_left].
  symmetry.
  transitivity (JS.to_int32 (s + b1 * 2 ^ 16 + b2 * 2 ^ 8 + b3)).
  - unfold JS.to_int32. f_equal.
    replace (0 * 256 + b0) with b0 by lia.
    replace (((b0 * 256 + b1) * 256 + b2) * 256 + b3 + 2 ^ 31)
      with (s + b1 * 2 ^ 16 + b2 * 2 ^ 8 + b3 + 2 ^ 31 + (- m) * 2 ^ 32) by lia.
    apply Z.mod_add. lia.
  - rewrite to_int32_small by lia. lia.
Qed.

Ltac pow_consts :=
  cbv [byte_of be4 be8 val fold_left];
  change (2 ^ (8 * 7)) with 72057594037927936;
  change (2 ^ (8 * 6)) with 281474976710656;
  change (2 ^ (8 * 5)) with 1099511627776;
  change (2 ^ (8 * 4)) with 4294967296;
  change (2 ^ (8 * 3)) with 16777216;
  change (2 ^ (8 * 2)) with 65536;
  change (2 ^ (8 * 1)) with 256;
  change (2 ^ (8 * 0)) with 1;
  change (2 ^ 64) with 18446744073709551616;
  change (2 ^ 32) with 4294967296.

Lemma val_be4 v : val 256 (be4 v) = v mod 2 ^ 32.
Proof. pow_consts. Z.div_mod_to_equations; lia. Qed.

Lemma val_be8 v : val 256 (be8 v) = v mod 2 ^ 64.
Proof. pow_consts. Z.div_mod_to_equations; lia. Qed.

Lemma be4_val c3 c2 c1 c0 m :
  is_byte c3 -> is_byte c2 -> is_byte c1 -> is_byte c0 ->
  be4 (val 256 [c3; c2; c1; c0] + m * 2 ^ 32) = [c3; c2; c1; c0].
Proof.
  unfold is_byte. intros. pow_consts.
  repeat f_equal; Z.div_mod_to_equations; lia.
Qed.

Lemma byte_of_0 x c : is_byte c -> byte_of (x * 256 + c) 0 = c.
Proof.
  unfold is_byte, byte_of. intros Hc.
  change (2 ^ (8 * 0)) with 1. rewrite Z.div_1_r.
  rewrite Z.add_comm, Z.mod_add by lia. apply Z.mod_small; lia.
Qed.

Lemma byte_of_S x c k :
  is_byte c -> 0 <= k -> byte_of (x * 256 + c) (k + 1) = byte_of x k.
Proof.
  unfold is_byte, byte_of. intros Hc Hk.
  replace (2 ^ (8 * (k + 1))) with (256 * 2 ^ (8 * k)).
  - rewrite <- Z.div_div by lia.
    rewrite Z.add_comm, Z.div_add by lia.
    rewrite (Z.div_small c 256) by lia. reflexivity.
  - replace (8 * (k + 1)) with (8 + 8 * k) by lia.
    rewrite Z.pow_add_r by lia. reflexivity.
Qed.

(** Byte [k] of a number in Horner form is the [k]-th digit from the
    right, whatever stands to the left of the digits. *)
Lemma byte_of_horner (l : list Z) a (k : nat) c :
  Forall is_byte l ->
  rev l !! k = Some c ->
  byte_of (fold_left (fun acc d => acc * 256 + d) l a) (Z.of_nat k) = c.
Proof.
  revert k. induction l as [|d l IH] using rev_ind; intros k Hl Hk.
  - destruct k; discriminate.
  - rewrite fold_left_app. cbn [fold_left].
    apply Forall_app in Hl. destruct Hl as [Hl Hd].
    apply Forall_cons in Hd. destruct Hd as [Hd _].
    rewrite rev_app_distr in Hk. cbn [rev app] in Hk.
    destruct k as [|k].
    + injection Hk as <-. apply byte_of_0. exact Hd.
    + rewrite Nat2Z.inj_succ, <- Z.add_1_r.
      rewrite byte_of_S by (auto; lia). apply IH; assumption.
Qed.

Lemma be8_val c7 c6 c5 c4 c3 c2 c1 c0 m :
  is_byte c7 -> is_byte c6 -> is_byte c5 -> is_byte c4 ->
  is_byte c3 -> is_byte c2 -> is_byte c1 -> is_byte c0 ->
  be8 (val 256 [c7; c6; c5; c4; c3; c2; c1; c0] + m * 2 ^ 64)
  = [c7; c6; c5; c4; c3; c2; c1; c0].
Proof.
  intros.
  assert (Hl : Forall is_byte [c7; c6; c5; c4; c3; c2; c1; c0])
    by (repeat (apply List.Forall_cons; [assumption|]); apply List.Forall_nil).
  replace (val 256 [c7; c6; c5; c4; c3; c2; c1; c0] + m * 2 ^ 64)
    with (fold_left (fun acc d => acc * 256 + d)
            [c7; c6; c5; c4; c3; c2; c1; c0] m)
    by (cbv [val fold_left]; lia).
  unfold be8. repeat f_equal.
  - exact (byte_of_horner _ m 7 c7 Hl eq_refl).
  - exact (byte_of_horner _ m 6 c6 Hl eq_refl).
  - exact (byte_of_horner _ m 5 c5 Hl eq_refl).
  - exact (byte_of_horner _ m 4 c4 Hl eq_refl).
  - exact (byte_of_horner _ m 3 c3 Hl eq_refl).
  - exact (byte_of_horner _ m 2 c2 Hl eq_refl).
  - exact (byte_of_horner _ m 1 c1 Hl eq_refl).
  - exact (byte_of_horner _ m 0 c0 Hl eq_refl).
Qed.

Lemma byte_of_is_byte v k : is_byte (byte_of v k).
Proof. unfold is_byte, byte_of. apply Z.mod_pos_bound. lia. Qed.

(** A byte below bit [n] does not see a multiple of [2^n]. *)
Lemma byte_of_mod v m k n :
  0 <= k -> 8 * k + 8 <= n -> byte_of (v + m * 2 ^ n) k = byte_of v k.
Proof.
  intros Hk Hn. unfold byte_of.
  replace (m * 2 ^ n) with (m * 2 ^ (n - 8 * k - 8) * 256 * 2 ^ (8 * k)).
  - rewrite Z.div_add by lia. rewrite Z.mod_add by lia. reflexivity.
  - replace n with ((n - 8 * k - 8) + 8 + 8 * k) at 2 by lia.
    rewrite !Z.pow_add_r by lia. change (2 ^ 8) with 256. lia.
Qed.

Lemma be4_mod v m : be4 (v + m * 2 ^ 32) = be4 v.
Proof. unfold be4. rewrite !byte_of_mod by lia. reflexivity. Qed.

Lemma be8_mod v m : be8 (v + m * 2 ^ 64) = be8 v.
Proof. unfold be8. rewrite !byte_of_mod by lia. reflexivity. Qed.

Lemma be4_to_int32 v : be4 (JS.to_int32 v) = be4 v.
Proof. destruct (to_int32_cong v) as [m ->]. apply be4_mod. Qed.

(** The bytes the stores of [toKSUID] and [writeBigInt] compute. *)
Lemma stored_number_byte ts k :
  0 <= k <= 3 ->
  JS.to_uint8 (JS.band (Z.shiftr (JS.to_int32 ts) (8 * k)) 255)
  = byte_of (JS.to_int32 ts) k.
Proof.
  intros Hk. unfold JS.band, JS.to_uint8, byte_of.
  pose proof (to_int32_range ts) as Hr.
  rewrite Z.shiftr_div_pow2 by lia.
  assert (Hq : - 2 ^ 31 <= JS.to_int32 ts / 2 ^ (8 * k) < 2 ^ 31).
  { assert (0 < 2 ^ (8 * k)) by (apply Z.pow_pos_nonneg; lia).
    split.
    - apply Z.div_le_lower_bound; [lia|]. nia.
    - apply Z.div_lt_upper_bound; [lia|]. nia. }
  rewrite (to_int32_small (_ / _)) by exact Hq.
  change (JS.to_int32 255) with 255.
  rewrite land_255. apply Z.mod_mod. lia.
Qed.

Lemma stored_number_low ts :
  JS.to_uint8 (JS.band ts 255) = byte_of (JS.to_int32 ts) 0.
Proof.
  unfold JS.band, JS.to_uint8, byte_of.
  change (JS.to_int32 255) with 255. change (2 ^ (8 * 0)) with 1.
  rewrite Z.div_1_r, land_255. apply Z.mod_mod. lia.
Qed.

Lemma stored_bigint_byte v k :
  0 <= k ->
  JS.to_uint8 (Z.land (Z.shiftr v (8 * k)) 255) = byte_of v k.
Proof.
  intros Hk. unfold JS.to_uint8, byte_of.
  rewrite Z.shiftr_div_pow2 by lia.
  rewrite land_255. apply Z.mod_mod. lia.
Qed.

Lemma toKSUID_bytes v ts :
  Uint128.toKSUID v ts =
  be4 (JS.to_int32 ts) ++ be8 (Uint128.values1 v) ++ be8 (Uint128.values0 v).
Proof.
  transitivity
    ([JS.to_uint8 (JS.band (Z.shiftr (JS.to_int32 ts) (8 * 3)) 255);
      JS.to_uint8 (JS.band (Z.shiftr (JS.to_int32 ts) (8 * 2)) 255);
      JS.to_uint8 (JS.band (Z.shiftr (JS.to_int32 ts) (8 * 1)) 255);
      JS.to_uint8 (JS.band ts 255)]
     ++ map (fun k => JS.to_uint8
                        (Z.land (Z.shiftr (Uint128.values1 v) (8 * k)) 255))
          [7; 6; 5; 4; 3; 2; 1; 0]
     ++ map (fun k => JS.to_uint8
                        (Z.land (Z.shiftr (Uint128.values0 v) (8 * k)) 255))
          [7; 6; 5; 4; 3; 2; 1; 0]).
  - reflexivity.
  - cbn [map]. rewrite !stored_number_byte by lia.
    rewrite stored_number_low.
    rewrite !stored_bigint_byte by lia. reflexivity.
Qed.

(** On bytes, the fold of [bytesToBigInt] is Horner's rule. *)
Lemma bytesToBigInt_acc l a :
  Forall is_byte l ->
  fold_left (fun result b => Z.lor (Z.shiftl result 8) b) l a
  = fold_left (fun acc d => acc * 256 + d) l a.
Proof.
  revert a. induction l as [|b l IH]; intros a Hl; [reflexivity|].
  apply Forall_cons in Hl. destruct Hl as [Hb Hl].
  cbn [fold_left]. rewrite lor_byte by exact Hb. apply IH. exact Hl.
Qed.

Lemma bytesToBigInt_val l :
  Forall is_byte l -> Uint128.bytesToBigInt l = val 256 l.
Proof. apply bytesToBigInt_acc. Qed.

Lemma val_acc base l a :
  fold_left (fun acc d => acc * base + d) l a
  = a * base ^ Z.of_nat (length l) + val base l.
Proof.
  unfold val. revert a. induction l as [|d l IH]; intros a.
  - cbn. lia.
  - cbn [fold_left length]. rewrite IH, (IH (0 * base + d)).
    rewrite Nat2Z.inj_succ, Z.pow_succ_r by lia. lia.
Qed.

Lemma val_app base l1 l2 :
  val base (l1 ++ l2) = val base l1 * base ^ Z.of_nat (length l2) + val base l2.
Proof. unfold val at 1. rewrite fold_left_app. apply val_acc. Qed.

Lemma val_bound l :
  Forall is_byte l -> 0 <= val 256 l < 256 ^ Z.of_nat (length l).
Proof.
  induction l as [|d l IH] using rev_ind; intros Hl.
  - cbn. lia.
  - apply Forall_app in Hl. destruct Hl as [Hl Hd].
    apply Forall_cons in Hd. destruct Hd as [Hd _]. unfold is_byte in Hd.
    specialize (IH Hl).
    rewrite val_app, length_app. cbn [length].
    replace (Z.of_nat (length l + 1)) with (Z.succ (Z.of_nat (length l))) by lia.
    rewrite Z.pow_succ_r by lia.
    change (val 256 [d]) with (0 * 256 + d). change (256 ^ Z.of_nat 1) with 256.
    lia.
Qed.

(** A well-formed identifier is a list of twenty named bytes. *)
Ltac explode x Hwf :=
  let l := fresh "l" in
  let Hlen := fresh "Hlen" in
  let Hall := fresh "Hall" in
  destruct x as [l]; destruct Hwf as [Hlen Hall]; cbn [KSUID.bytes] in *;
  do 20 (destruct l as [|? l]; [discriminate Hlen|]);
  (destruct l; [|discriminate Hlen]);
  repeat (apply Forall_cons in Hall;
          let Hb := fresh "Hb" in destruct Hall as [Hb Hall]);
  clear Hall Hlen.

Ltac bytes_Forall :=
  repeat (apply List.Forall_cons; [first [assumption | apply byte_of_is_byte]|]);
  apply List.Forall_nil.

Lemma val8_bound c7 c6 c5 c4 c3 c2 c1 c0 :
  Forall is_byte [c7; c6; c5; c4; c3; c2; c1; c0] ->
  0 <= val 256 [c7; c6; c5; c4; c3; c2; c1; c0] < 2 ^ 64.
Proof. intros H. apply (val_bound _ H). Qed.

Lemma be8_val_list l :
  length l = 8%nat -> Forall is_byte l -> be8 (val 256 l) = l.
Proof.
  intros Hlen Hl.
  do 8 (destruct l as [|? l]; [discriminate Hlen|]).
  destruct l; [|discriminate Hlen].
  repeat (apply Forall_cons in Hl; let Hb := fresh "Hb" in destruct Hl as [Hb Hl]).
  rewrite <- (be8_mod _ 0). apply be8_val; assumption.
Qed.

Lemma be16_val hs ls :
  length hs = 8%nat -> length ls = 8%nat ->
  Forall is_byte hs -> Forall is_byte ls ->
  forall m, be16 (val 256 (hs ++ ls) + m * 2 ^ 128) = hs ++ ls.
Proof.
  intros Hlh Hll Hh Hl m.
  pose proof (val_bound _ Hh) as Bh. pose proof (val_bound _ Hl) as Bl.
  rewrite Hlh in Bh. rewrite Hll in Bl.
  change (256 ^ Z.of_nat 8) with (2 ^ 64) in *.
  rewrite val_app, Hll. change (256 ^ Z.of_nat 8) with (2 ^ 64).
  unfold be16.
  replace ((val 256 hs * 2 ^ 64 + val 256 ls + m * 2 ^ 128) / 2 ^ 64)
    with (val 256 hs + m * 2 ^ 64).
  - replace (val 256 hs * 2 ^ 64 + val 256 ls + m * 2 ^ 128)
      with (val 256 ls + (val 256 hs + m * 2 ^ 64) * 2 ^ 64)
      by (change (2 ^ 128) with (2 ^ 64 * 2 ^ 64); lia).
    rewrite !be8_mod. rewrite !be8_val_list by assumption. reflexivity.
  - apply Z.div_unique with (r := val 256 ls); [lia|].
    change (2 ^ 128) with (2 ^ 64 * 2 ^ 64). lia.
Qed.

Lemma val_be16 v : val 256 (be16 v) = v mod 2 ^ 128.
Proof.
  unfold be16. rewrite val_app. cbn [length be8].
  change (256 ^ Z.of_nat 8) with (2 ^ 64).
  fold (be8 (v / 2 ^ 64)). fold (be8 v). rewrite !val_be8.
  change (2 ^ 128) with (2 ^ 64 * 2 ^ 64).
  rewrite Z.rem_mul_r by lia. lia.
Qed.

Lemma be16_mod v m : be16 (v + m * 2 ^ 128) = be16 v.
Proof.
  unfold be16.
  replace (v + m * 2 ^ 128) with (v + (m * 2 ^ 64) * 2 ^ 64)
    by (change (2 ^ 128) with (2 ^ 64 * 2 ^ 64); lia).
  rewrite Z.div_add by lia. rewrite !be8_mod. reflexivity.
Qed.

Lemma equals_false a b :
  Uint128.values0 a <> Uint128.values0 b \/ Uint128.values1 a <> Uint128.values1 b ->
  Uint128.equals a b = false.
Proof.
  unfold Uint128.equals. intros [Hne|Hne]; apply andb_false_iff; [left|right];
    apply Z.eqb_neq; exact Hne.
Qed.

Ltac proj_lia :=
  unfold Uint128.ZERO, Uint128.MAX, Uint128.make;
  cbn [Uint128.values0 Uint128.values1]; lia.

Lemma construct_parts t a b :
  length t = 4%nat ->
  KSUID.construct (t ++ be8 a ++ be8 b) = Some (KSUID.mk (t ++ be8 a ++ be8 b)).
Proof.
  intros Ht. unfold KSUID.construct. rewrite length_app, Ht. reflexivity.
Qed.

Section Parts.

Variable x : KSUID.t.
Hypothesis Hwf : KSUID.wf x.

Lemma getTimestamp_signed :
  KSUID.getTimestamp x = JS.to_int32 (val 256 (take 4 (KSUID.bytes x))).
Proof using Hwf.
  explode x Hwf.
  lazymatch goal with
  | |- KSUID.getTimestamp (KSUID.mk (?a :: ?b :: ?c :: ?d :: _)) = _ =>
      exact (word_signed a b c d ltac:(assumption) ltac:(assumption)
               ltac:(assumption) ltac:(assumption))
  end.
Qed.

Lemma timestamp_length : length (take 4 (KSUID.bytes x)) = 4%nat.
Proof using Hwf.
  destruct Hwf as [Hlen _]. rewrite length_take, Hlen. reflexivity.
Qed.

Lemma timestamp_bytes_kept : be4 (KSUID.getTimestamp x) = take 4 (KSUID.bytes x).
Proof using Hwf.
  rewrite getTimestamp_signed, be4_to_int32.
  explode x Hwf. cbn [take firstn].
  rewrite <- (be4_mod _ 0). apply be4_val; assumption.
Qed.

Lemma uint128Payload_halves :
  Uint128.uint128Payload (KSUID.bytes x) = Uint128.make (payload_high x) (payload_low x).
Proof using Hwf.
  unfold payload_high, payload_low. explode x Hwf.
  unfold Uint128.uint128Payload, Uint128.fromPayload.
  rewrite !bytesToBigInt_val by (cbn; bytes_Forall).
  reflexivity.
Qed.

Lemma halves_range :
  0 <= payload_high x < 2 ^ 64 /\ 0 <= payload_low x < 2 ^ 64.
Proof using Hwf.
  unfold payload_high, payload_low. explode x Hwf. cbn [take drop firstn skipn].
  split; apply val8_bound; bytes_Forall.
Qed.

Lemma payload_value_halves :
  payload_value x = payload_high x * 2 ^ 64 + payload_low x.
Proof using Hwf.
  unfold payload_high, payload_low. unfold payload_value, KSUID.getPayload.
  explode x Hwf. cbn [take drop firstn skipn TIMESTAMP_BYTE_LENGTH].
  cbv [val fold_left]. lia.
Qed.

Lemma payload_bytes_kept m :
  be16 (payload_value x + m * 2 ^ 128) = drop 4 (KSUID.bytes x).
Proof using Hwf.
  unfold payload_value, KSUID.getPayload.
  explode x Hwf. cbn [take drop firstn skipn TIMESTAMP_BYTE_LENGTH].
  lazymatch goal with
  | |- be16 (val 256 [?a7; ?a6; ?a5; ?a4; ?a3; ?a2; ?a1; ?a0;
                      ?c7; ?c6; ?c5; ?c4; ?c3; ?c2; ?c1; ?c0] + _) = _ =>
      apply (be16_val [a7; a6; a5; a4; a3; a2; a1; a0]
                      [c7; c6; c5; c4; c3; c2; c1; c0])
  end; first [reflexivity | bytes_Forall].
Qed.

(** [next()] adds one to the payload modulo [2^128] and keeps the four
    timestamp bytes: the test [nextValue.equals(Uint128.ZERO)] never
    succeeds. *)
Lemma next_spec :
  KSUID.next x =
  Some (KSUID.mk (take 4 (KSUID.bytes x) ++ be16 (payload_value x + 1))).
Proof using Hwf.
  pose proof halves_range as [BH BL].
  unfold KSUID.next. rewrite uint128Payload_halves, payload_value_halves.
  set (H := payload_high x) in *. set (L := payload_low x) in *.
  unfold Uint128.increment, Uint128.make. cbn [Uint128.values0 Uint128.values1].
  change 18446744073709551615 with (2 ^ 64 - 1).
  destruct (2 ^ 64 - 1 <? L + 1) eqn:E.
  - apply Z.ltb_lt in E.
    rewrite equals_false by (right; proj_lia).
    rewrite toKSUID_bytes. cbn [Uint128.values0 Uint128.values1].
    rewrite be4_to_int32, timestamp_bytes_kept.
    unfold be16.
    replace (H * 2 ^ 64 + L + 1) with (0 + (H + 1) * 2 ^ 64) by lia.
    rewrite Z.div_add by lia. rewrite be8_mod.
    change (0 / 2 ^ 64) with 0. rewrite Z.add_0_l.
    apply construct_parts, timestamp_length.
  - apply Z.ltb_ge in E.
    rewrite equals_false by (left; proj_lia).
    rewrite toKSUID_bytes. cbn [Uint128.values0 Uint128.values1].
    rewrite be4_to_int32, timestamp_bytes_kept.
    unfold be16.
    replace (H * 2 ^ 64 + L + 1) with ((L + 1) + H * 2 ^ 64) by lia.
    rewrite Z.div_add by lia. rewrite be8_mod.
    rewrite (Z.div_small (L + 1)) by lia. rewrite Z.add_0_l.
    apply construct_parts, timestamp_length.
Qed.

(** [prev()] subtracts one from the payload modulo [2^128] and keeps the
    four timestamp bytes: the test [prevValue.equals(Uint128.MAX)] never
    succeeds. *)
Lemma prev_spec :
  KSUID.prev x =
  Some (KSUID.mk (take 4 (KSUID.bytes x) ++ be16 (payload_value x - 1))).
Proof using Hwf.
  pose proof halves_range as [BH BL].
  unfold KSUID.prev. rewrite uint128Payload_halves, payload_value_halves.
  set (H := payload_high x) in *. set (L := payload_low x) in *.
  unfold Uint128.subtract, Uint128.ONE, Uint128.make.
  cbn [Uint128.values0 Uint128.values1].
  change 18446744073709551616 with (2 ^ 64).
  destruct (1 <=? L) eqn:E.
  - apply Z.leb_le in E.
    rewrite equals_false by (left; proj_lia).
    rewrite toKSUID_bytes. cbn [Uint128.values0 Uint128.values1].
    rewrite be4_to_int32, timestamp_bytes_kept.
    unfold be16.
    replace (H * 2 ^ 64 + L - 1) with ((L - 1) + H * 2 ^ 64) by lia.
    rewrite Z.div_add by lia. rewrite be8_mod.
    rewrite (Z.div_small (L - 1)) by lia.
    rewrite Z.add_0_l, Z.sub_0_r.
    apply construct_parts, timestamp_length.
  - apply Z.leb_gt in E.
    rewrite equals_false by (right; proj_lia).
    rewrite toKSUID_bytes. cbn [Uint128.values0 Uint128.values1].
    rewrite be4_to_int32, timestamp_bytes_kept.
    unfold be16.
    replace (H * 2 ^ 64 + L - 1) with ((L + 2 ^ 64 - 1) + (H - 1) * 2 ^ 64) by lia.
    rewrite Z.div_add by lia. rewrite be8_mod.
    rewrite (Z.div_small (L + 2 ^ 64 - 1)) by lia.
    rewrite Z.add_0_l, Z.sub_0_r.
    apply construct_parts, timestamp_length.
Qed.

End Parts.

Lemma be16_bytes v : Forall is_byte (be16 v).
Proof. unfold be16, be8. cbn [app]. bytes_Forall. Qed.

Lemma wf_parts x v :
  KSUID.wf x -> KSUID.wf (KSUID.mk (take 4 (KSUID.bytes x) ++ be16 v)).
Proof.
  intros Hwf. split; cbn [KSUID.bytes].
  - rewrite length_app, (timestamp_length x Hwf). reflexivity.
  - apply Forall_app. split; [|apply be16_bytes].
    apply Forall_take. apply Hwf.
Qed.

Lemma payload_value_parts t v :
  length t = 4%nat -> payload_value (KSUID.mk (t ++ be16 v)) = v mod 2 ^ 128.
Proof.
  intros Ht. unfold payload_value, KSUID.getPayload. cbn [KSUID.bytes].
  change TIMESTAMP_BYTE_LENGTH with 4%nat. rewrite <- Ht, drop_app_length.
  apply val_be16.
Qed.

(** Moving the payload by [d] and then by [-d] gives the identifier back. *)
Lemma payload_there_and_back x d e :
  KSUID.wf x -> d + e = 0 ->
  let y := KSUID.mk (take 4 (KSUID.bytes x) ++ be16 (payload_value x + d)) in
  KSUID.mk (take 4 (KSUID.bytes y) ++ be16 (payload_value y + e)) = x.
Proof.
  intros Hwf Hde y. subst y. cbn [KSUID.bytes].
  pose proof (timestamp_length x Hwf) as Ht.
  rewrite payload_value_parts by exact Ht.
  rewrite (take_app_length' _ _ 4) by (symmetry; exact Ht).
  pose proof (Z.div_mod (payload_value x + d) (2 ^ 128) ltac:(lia)) as Hdm.
  replace ((payload_value x + d) mod 2 ^ 128 + e)
    with (payload_value x + (- ((payload_value x + d) / 2 ^ 128)) * 2 ^ 128)
    by lia.
  rewrite (payload_bytes_kept x Hwf), take_drop.
  destruct x; reflexivity.
Qed.

(** [next()] and [prev()] undo each other on the bytes: for every
    identifier [x] both return, [x.next().prev()] has the bytes of [x] and
    so has [x.prev().next()].  This covers the all-ones and the all-zero
    payload, where the payload wraps around within the timestamp. *)
Lemma next_prev_inverse_bytes (x : KSUID.t) :
  KSUID.wf x ->
  (exists y, KSUID.next x = Some y /\ KSUID.prev y = Some x)
  /\ (exists y, KSUID.prev x = Some y /\ KSUID.next y = Some x).
Proof.
  intros Hwf. split.
  - eexists. split; [apply next_spec; exact Hwf|].
    rewrite prev_spec by (apply wf_parts; exact Hwf).
    f_equal. apply (payload_there_and_back x 1 (-1) Hwf). reflexivity.
  - eexists. split; [apply prev_spec; exact Hwf|].
    rewrite next_spec by (apply wf_parts; exact Hwf).
    f_equal. apply (payload_there_and_back x (-1) 1 Hwf). reflexivity.
Qed.

(* ===================================================================== *)
(** ** The sequence generator *)
(* ===================================================================== *)

Lemma byte_eqb_cases a b :
  ((a =? b) = true /\ a = b) \/ ((a =? b) = false /\ a <> b).
Proof.
  destruct (a =? b) eqn:E; [left|right]; split; try reflexivity.
  - apply Z.eqb_eq, E.
  - apply Z.eqb_neq, E.
Qed.

Lemma withCounter_bytes seed c :
  KSUID.wf seed ->
  KSUID.bytes (Sequence.withCounter seed c)
  = take 18 (KSUID.bytes seed) ++ [byte_of c 1; byte_of c 0].
Proof.
  intros Hwf. rewrite <- (stored_bigint_byte c 1) by lia.
  rewrite <- (stored_bigint_byte c 0) by lia.
  explode seed Hwf. reflexivity.
Qed.

Lemma compare_last_two p a1 a0 b1 b0 :
  length p = 18%nat ->
  KSUID.compare (KSUID.mk (p ++ [a1; a0])) (KSUID.mk (p ++ [b1; b0]))
  = if negb (a1 =? b1) then a1 - b1
    else if negb (a0 =? b0) then a0 - b0 else 0.
Proof.
  intros Hp.
  do 18 (destruct p as [|? p]; [discriminate Hp|]).
  destruct p; [|discriminate Hp].
  cbn. rewrite !Z.eqb_refl. reflexivity.
Qed.

Lemma ta_get_app_l (p u : list Z) i :
  0 <= i < Z.of_nat (length p) -> JS.ta_get (p ++ u) i = JS.ta_get p i.
Proof.
  intros Hi. unfold JS.ta_get. destruct (i <? 0); [reflexivity|].
  rewrite lookup_app_l by lia. reflexivity.
Qed.

Lemma getTimestamp_prefix p u :
  length p = 18%nat ->
  KSUID.getTimestamp (KSUID.mk (p ++ u)) = KSUID.getTimestamp (KSUID.mk p).
Proof.
  intros Hp. unfold KSUID.getTimestamp. cbn [KSUID.bytes].
  rewrite !ta_get_app_l by (rewrite Hp; lia). reflexivity.
Qed.

(** Counting up by one raises the two counter bytes in the big-endian
    order. *)
Lemma counter_bytes_increase c :
  0 <= c < 65535 ->
  (if negb (byte_of c 1 =? byte_of (c + 1) 1)
   then byte_of c 1 - byte_of (c + 1) 1
   else if negb (byte_of c 0 =? byte_of (c + 1) 0)
        then byte_of c 0 - byte_of (c + 1) 0 else 0) < 0.
Proof.
  intros Hc. unfold byte_of.
  change (2 ^ (8 * 1)) with 256. change (2 ^ (8 * 0)) with 1.
  rewrite !Z.div_1_r.
  destruct (byte_eqb_cases (c / 256 mod 256) ((c + 1) / 256 mod 256)) as [[-> E]|[-> E]];
    cbn [negb].
  - destruct (byte_eqb_cases (c mod 256) ((c + 1) mod 256)) as [[-> E0]|[-> E0]];
      cbn [negb]; Z.div_mod_to_equations; lia.
  - Z.div_mod_to_equations; lia.
Qed.

(** While the counter stays within its range, [k] calls succeed and emit
    the identifiers of the counters [c], [c + 1], ... in this order. *)
Lemma emit_spec seed (k : nat) c :
  0 <= c -> c + Z.of_nat k <= 65536 ->
  Sequence.emit k (Sequence.mk seed c)
  = Some (map (fun i => Sequence.withCounter seed (c + Z.of_nat i)) (seq 0 k),
          Sequence.mk seed (c + Z.of_nat k)).
Proof.
  revert c. induction k as [|k IH]; intros c Hc Hk.
  - cbn. rewrite Z.add_0_r. reflexivity.
  - cbn [Sequence.emit]. unfold Sequence.next. cbn [Sequence.count Sequence.seed].
    replace (0 <=? c) with true by (symmetry; apply Z.leb_le; lia).
    replace (c <? 65536) with true by (symmetry; apply Z.ltb_lt; lia).
    cbn [andb]. rewrite IH by lia.
    cbn [seq map]. rewrite <- seq_shift, map_map, Z.add_0_r.
    do 2 f_equal.
    + f_equal. apply map_ext. intros i. f_equal. lia.
    + f_equal. lia.
Qed.

Lemma next_exhausted seed : Sequence.next (Sequence.mk seed 65536) = None.
Proof. reflexivity. Qed.

(** The properties of the sequence, for any number [n] of calls that
    stands for 65536. *)
Lemma sequence_cap_at (n : nat) (seed : KSUID.t) :
  Z.of_nat n = 65536 ->
  KSUID.wf seed ->
  exists ids s',
    Sequence.emit n (Sequence.create seed) = Some (ids, s')
    /\ length ids = n
    /\ Sequence.next s' = None
    /\ Sequence.emit (S n) (Sequence.create seed) = None
    /\ (forall k : nat, (k <= n)%nat ->
          is_Some (Sequence.emit k (Sequence.create seed)))
    /\ (forall (i : nat) a, ids !! i = Some a ->
          KSUID.getTimestamp a = KSUID.getTimestamp seed
          /\ take 18 (KSUID.bytes a) = take 18 (KSUID.bytes seed))
    /\ (forall (i : nat) a b, ids !! i = Some a -> ids !! S i = Some b ->
          KSUID.compare a b < 0).
Proof.
  intros Hn Hwf.
  assert (Hp : length (take 18 (KSUID.bytes seed)) = 18%nat).
  { destruct Hwf as [Hlen _]. rewrite length_take, Hlen. reflexivity. }
  assert (Hids : forall (i : nat) a,
             map (fun i => Sequence.withCounter seed (0 + Z.of_nat i))
               (seq 0 n) !! i = Some a ->
             (i < n)%nat /\ a = Sequence.withCounter seed (Z.of_nat i)).
  { intros i a Hi. rewrite list_lookup_fmap in Hi.
    destruct (seq 0 n !! i) as [j|] eqn:Ej; [|discriminate].
    apply lookup_seq in Ej. destruct Ej as [-> Hlt].
    cbn [fmap option_fmap option_map] in Hi. injection Hi as <-.
    split; [exact Hlt|]. reflexivity. }
  assert (Hall : Sequence.emit n (Sequence.create seed)
                 = Some (map (fun i => Sequence.withCounter seed (0 + Z.of_nat i))
                           (seq 0 n),
                         Sequence.mk seed 65536)).
  { unfold Sequence.create. rewrite emit_spec by lia.
    rewrite Hn. reflexivity. }
  eexists _, _. split; [exact Hall|].
  split; [rewrite length_map, length_seq; reflexivity|].
  split; [apply next_exhausted|].
  split.
  { assert (Hsplit : forall k s ids s',
               Sequence.emit k s = Some (ids, s') ->
               Sequence.next s' = None -> Sequence.emit (S k) s = None).
    { clear. induction k as [|k IH]; intros s ids s' He Hn.
      - cbn in He. injection He as <- <-. cbn. rewrite Hn. reflexivity.
      - change (Sequence.emit (S (S k)) s)
          with (match Sequence.next s with
                | None => None
                | Some (id, s1) =>
                    match Sequence.emit (S k) s1 with
                    | None => None
                    | Some (ids, s'') => Some (id :: ids, s'')
                    end
                end).
        cbn [Sequence.emit] in He.
        destruct (Sequence.next s) as [[id s1]|]; [|reflexivity].
        destruct (Sequence.emit k s1) as [[ids1 s2]|] eqn:E1; [|discriminate].
        injection He as <- <-. rewrite (IH _ _ _ E1 Hn). reflexivity. }
    apply (Hsplit _ _ _ _ Hall). apply next_exhausted. }
  split.
  { intros k Hk. unfold Sequence.create. rewrite emit_spec by lia. eexists; reflexivity. }
  split.
  - intros i a Hi. apply Hids in Hi. destruct Hi as [_ ->].
    split.
    + destruct (Sequence.withCounter seed (Z.of_nat i)) as [l] eqn:E.
      pose proof (withCounter_bytes seed (Z.of_nat i) Hwf) as Hb.
      rewrite E in Hb. cbn [KSUID.bytes] in Hb. subst l.
      rewrite getTimestamp_prefix by exact Hp.
      destruct seed as [l]. cbn [KSUID.bytes] in *.
      rewrite <- (take_drop 18 l) at 2.
      rewrite (getTimestamp_prefix (take 18 l) (drop 18 l)) by exact Hp.
      reflexivity.
    + rewrite withCounter_bytes by exact Hwf.
      apply take_app_length'. symmetry. exact Hp.
  - intros i a b Ha Hb. apply Hids in Ha. apply Hids in Hb.
    destruct Ha as [_ ->]. destruct Hb as [Hlt ->].
    destruct (Sequence.withCounter seed (Z.of_nat i)) as [la] eqn:Ea.
    destruct (Sequence.withCounter seed (Z.of_nat (S i))) as [lb] eqn:Eb.
    pose proof (withCounter_bytes seed (Z.of_nat i) Hwf) as Hba.
    pose proof (withCounter_bytes seed (Z.of_nat (S i)) Hwf) as Hbb.
    rewrite Ea in Hba. rewrite Eb in Hbb. cbn [KSUID.bytes] in Hba, Hbb.
    subst la lb. rewrite compare_last_two by exact Hp.
    rewrite Nat2Z.inj_succ, <- Z.add_1_r.
    apply counter_bytes_increase. lia.
Qed.

(** C9 (sequence monotonicity and cap), for the sequence as the
    specification describes it.  With any seed, 65536 calls of [next()]
    succeed, and so do fewer; the call after them fails.  Two identifiers
    emitted in a row compare in increasing order, and every emitted
    identifier has the timestamp and the first eighteen bytes of the
    seed. *)
Theorem C9_sequence_cap (seed : KSUID.t) :
  KSUID.wf seed ->
  exists ids s',
    Sequence.emit Sequence.capacity (Sequence.create seed) = Some (ids, s')
    /\ length ids = Sequence.capacity
    /\ Sequence.next s' = None
    /\ Sequence.emit (S Sequence.capacity) (Sequence.create seed) = None
    /\ (forall k : nat, (k <= Sequence.capacity)%nat ->
          is_Some (Sequence.emit k (Sequence.create seed)))
    /\ (forall (i : nat) a, ids !! i = Some a ->
          KSUID.getTimestamp a = KSUID.getTimestamp seed
          /\ take 18 (KSUID.bytes a) = take 18 (KSUID.bytes seed))
    /\ (forall (i : nat) a b, ids !! i = Some a -> ids !! S i = Some b ->
          KSUID.compare a b < 0).
Proof.
  apply sequence_cap_at. unfold Sequence.capacity. apply Z2Nat.id. lia.
Qed.

(* ===================================================================== *)
(** ** The long division on digits that are not negative *)
(* ===================================================================== *)

Lemma val_snoc base l d : val base (l ++ [d]) = val base l * base + d.
Proof. unfold val. rewrite fold_left_app. reflexivity. Qed.

Lemma horner_ge base l a :
  1 <= base -> 0 <= a -> Forall (fun d => 0 <= d) l ->
  a <= fold_left (fun acc d => acc * base + d) l a.
Proof.
  intros Hb. revert a. induction l as [|d l IH]; intros a Ha Hl; [cbn; lia|].
  apply Forall_cons in Hl. destruct Hl as [Hd Hl]. cbn [fold_left].
  etransitivity; [|apply IH; [nia | exact Hl]]. nia.
Qed.

Lemma canonical_val base q :
  1 <= base -> canonical q -> 0 <= val base q /\ (q = [] <-> val base q = 0).
Proof.
  intros Hb [Hq Hh]. destruct q as [|d q].
  - cbn. split; [lia|]. split; reflexivity.
  - apply Forall_cons in Hq. destruct Hq as [_ Hq].
    pose proof (horner_ge base q (0 * base + d) Hb ltac:(lia) Hq) as Hge.
    change (fold_left _ q (0 * base + d)) with (val base (d :: q)) in Hge.
    split; [lia|]. split; [discriminate | lia].
Qed.

Section LongDivision.

Variables srcBase dstBase : Z.
Hypothesis Hsrc : 0 < srcBase.
Hypothesis Hdst : 0 < dstBase.

Lemma division_step_inv st c P :
  division_inv srcBase dstBase st P -> 0 <= c ->
  division_inv srcBase dstBase (Base62.division_step srcBase dstBase st c) (P * srcBase + c).
Proof using Hsrc Hdst.
  destruct st as [q r]. intros ((Hq & Hh) & Hr & HP) Hc. cbn [fst snd] in *.
  unfold Base62.division_step, JS.floor_div, JS.remainder.
  set (value := c + r * srcBase).
  assert (Hv : 0 <= value) by (subst value; nia).
  rewrite Z.rem_mod_nonneg by lia.
  pose proof (Z.div_mod value dstBase ltac:(lia)) as Hdm.
  pose proof (Z.mod_pos_bound value dstBase Hdst) as Hm.
  pose proof (Z.div_pos value dstBase Hv Hdst) as Hd.
  destruct (negb (length q =? 0)%nat || negb (value / dstBase =? 0)) eqn:E.
  - unfold division_inv. cbn [fst snd]. split; [split|split].
    + apply Forall_app. split; [exact Hq|].
      apply List.Forall_cons; [exact Hd | apply List.Forall_nil].
    + destruct q as [|d q]; [|exact Hh]. cbn [app].
      cbn in E. apply negb_true_iff, Z.eqb_neq in E. lia.
    + lia.
    + rewrite val_snoc. subst value. nia.
  - apply orb_false_iff in E. destruct E as [E1 E2].
    apply negb_false_iff in E1, E2.
    apply Nat.eqb_eq in E1. apply Z.eqb_eq in E2.
    destruct q; [|discriminate E1].
    unfold division_inv. cbn [fst snd]. split; [split|split].
    + apply List.Forall_nil.
    + exact I.
    + lia.
    + cbn in HP |- *. subst value. nia.
Qed.

Lemma division_fold_inv bp st P :
  division_inv srcBase dstBase st P -> Forall (fun d => 0 <= d) bp ->
  division_inv srcBase dstBase (fold_left (Base62.division_step srcBase dstBase) bp st)
    (fold_left (fun acc d => acc * srcBase + d) bp P).
Proof using Hsrc Hdst.
  revert st P. induction bp as [|c bp IH]; intros st P Hinv Hbp; [exact Hinv|].
  apply Forall_cons in Hbp. destruct Hbp as [Hc Hbp]. cbn [fold_left].
  apply IH; [|exact Hbp]. apply division_step_inv; assumption.
Qed.

(** One pass divides the number by the destination base. *)
Lemma long_division_spec bp :
  Forall (fun d => 0 <= d) bp ->
  canonical (fst (Base62.long_division srcBase dstBase bp))
  /\ val srcBase (fst (Base62.long_division srcBase dstBase bp))
     = val srcBase bp / dstBase
  /\ snd (Base62.long_division srcBase dstBase bp) = val srcBase bp mod dstBase.
Proof using Hsrc Hdst.
  intros Hbp.
  assert (H0 : division_inv srcBase dstBase ([], 0) 0).
  { unfold division_inv, canonical. cbn [fst snd].
    split; [split; [apply List.Forall_nil | exact I]|].
    split; [lia | reflexivity]. }
  pose proof (division_fold_inv bp _ _ H0 Hbp) as (Hc & Hr & HP).
  fold (Base62.long_division srcBase dstBase bp) in Hc, Hr, HP.
  fold (val srcBase bp) in HP.
  split; [exact Hc|].
  split.
  - apply Z.div_unique with (r := snd (Base62.long_division srcBase dstBase bp)); lia.
  - apply Z.mod_unique with (q := val srcBase (fst (Base62.long_division srcBase dstBase bp))); lia.
Qed.

End LongDivision.

(* ===================================================================== *)
(** ** The decoder *)
(* ===================================================================== *)

Lemma ta_set_length a i v : length (JS.ta_set a i v) = length a.
Proof. unfold JS.ta_set. destruct (i <? 0); [reflexivity|]. apply length_insert. Qed.

Lemma store_word_length dst n r : length (Base62.store_word dst n r) = length dst.
Proof. unfold Base62.store_word. rewrite !ta_set_length. reflexivity. Qed.

Lemma zero_head_length n dst : length (Base62.zero_head n dst) = length dst.
Proof.
  unfold Base62.zero_head. generalize (seq 0 (Z.to_nat n)). intros l.
  revert dst. induction l as [|i l IH]; intros dst; [reflexivity|].
  cbn [fold_left]. rewrite IH. apply ta_set_length.
Qed.

(** With [k] words of room left and a canonical dividend, the loop returns
    [true] exactly when the dividend fits into [k] words. *)
Lemma decode_loop_canonical (k : nat) :
  forall fuel bp dst,
    canonical bp -> (k < fuel)%nat ->
    exists dst',
      length dst' = length dst
      /\ Base62.decode_loop fuel bp (4 * Z.of_nat k) dst
         = Some (val 62 bp <? 2 ^ (32 * Z.of_nat k), dst').
Proof.
  induction k as [|k IH]; intros fuel bp dst Hc Hf.
  - destruct (canonical_val 62 bp ltac:(lia) Hc) as [Hpos Hnil].
    destruct bp as [|c bp].
    + exists (Base62.zero_head (4 * Z.of_nat 0) dst).
      split; [apply zero_head_length|]. destruct fuel; reflexivity.
    + destruct fuel as [|fuel]; [lia|]. cbn [Base62.decode_loop].
      destruct (Base62.long_division 62 4294967296 (c :: bp)) as [q r].
      exists dst. split; [reflexivity|].
      change (4 * Z.of_nat 0 <? 4) with true. cbn match.
      replace (val 62 (c :: bp) <? 2 ^ (32 * Z.of_nat 0)) with false; [reflexivity|].
      symmetry. apply Z.ltb_ge. change (2 ^ (32 * Z.of_nat 0)) with 1.
      assert (val 62 (c :: bp) <> 0) by (intros E; apply Hnil in E; discriminate).
      lia.
  - destruct (canonical_val 62 bp ltac:(lia) Hc) as [Hpos Hnil].
    destruct bp as [|c bp].
    + exists (Base62.zero_head (4 * Z.of_nat (S k)) dst).
      split; [apply zero_head_length|].
      replace (val 62 [] <? 2 ^ (32 * Z.of_nat (S k))) with true.
      * destruct fuel; reflexivity.
      * symmetry. apply Z.ltb_lt. change (val 62 []) with 0.
        apply Z.pow_pos_nonneg; lia.
    + destruct fuel as [|fuel]; [lia|]. cbn [Base62.decode_loop].
      pose proof (long_division_spec 62 4294967296 ltac:(lia) ltac:(lia)
                    (c :: bp) (proj1 Hc)) as (Hq & Hv & Hr).
      destruct (Base62.long_division 62 4294967296 (c :: bp)) as [q r].
      cbn [fst snd] in Hq, Hv, Hr.
      replace (4 * Z.of_nat (S k) <? 4) with false by (symmetry; apply Z.ltb_ge; lia).
      replace (4 * Z.of_nat (S k) - 4) with (4 * Z.of_nat k) by lia.
      destruct (IH fuel q (Base62.store_word dst (4 * Z.of_nat (S k)) r) Hq ltac:(lia))
        as (dst' & Hlen & Hrun).
      exists dst'. split; [rewrite Hlen; apply store_word_length|].
      rewrite Hrun. do 2 f_equal. rewrite Hv.
      replace (32 * Z.of_nat (S k)) with (32 + 32 * Z.of_nat k) by lia.
      rewrite Z.pow_add_r by lia. change (2 ^ 32) with 4294967296.
      assert (Hp : 0 < 2 ^ (32 * Z.of_nat k)) by (apply Z.pow_pos_nonneg; lia).
      destruct (Z.ltb_spec (val 62 (c :: bp) / 4294967296) (2 ^ (32 * Z.of_nat k)))
        as [Hlt|Hge];
        destruct (Z.ltb_spec (val 62 (c :: bp)) (4294967296 * 2 ^ (32 * Z.of_nat k)))
        as [Hlt'|Hge']; try reflexivity; exfalso.
      * apply Z.div_le_lower_bound in Hge'; lia.
      * apply Z.div_lt_upper_bound in Hlt'; lia.
Qed.

Lemma digits_nonneg src : Forall (fun d => 0 <= d) (Base62.digits_of src).
Proof.
  unfold Base62.digits_of. induction src as [|c src IH]; cbn [map].
  - apply List.Forall_nil.
  - apply List.Forall_cons; [|exact IH].
    unfold JS.to_uint8. apply Z.mod_pos_bound. lia.
Qed.

(** The first pass reads the raw digits, which may start with zeros; the
    later passes read canonical quotients.  Six passes suffice. *)
Lemma decode_loop_digits fuel src dst :
  (6 <= fuel)%nat -> src <> [] ->
  exists dst',
    length dst' = length dst
    /\ Base62.decode_loop fuel (Base62.digits_of src) (Z.of_nat BYTE_LENGTH) dst
       = Some (val 62 (Base62.digits_of src) <? 2 ^ 160, dst').
Proof.
  intros Hf Hne. pose proof (digits_nonneg src) as Hd.
  destruct (Base62.digits_of src) as [|c bp] eqn:E.
  { destruct src; [congruence | discriminate E]. }
  destruct fuel as [|fuel]; [lia|]. cbn [Base62.decode_loop].
  pose proof (long_division_spec 62 4294967296 ltac:(lia) ltac:(lia)
                (c :: bp) Hd) as (Hq & Hv & Hr).
  destruct (Base62.long_division 62 4294967296 (c :: bp)) as [q r].
  cbn [fst snd] in Hq, Hv, Hr.
  change (Z.of_nat BYTE_LENGTH) with 20. change (20 <? 4) with false. cbn match.
  change (20 - 4) with (4 * Z.of_nat 4).
  destruct (decode_loop_canonical 4 fuel q (Base62.store_word dst 20 r) Hq ltac:(lia))
    as (dst' & Hlen & Hrun).
  exists dst'. split; [rewrite Hlen; apply store_word_length|].
  rewrite Hrun. do 2 f_equal. rewrite Hv.
  change (2 ^ (32 * Z.of_nat 4)) with (2 ^ 128).
  change (2 ^ 160) with (4294967296 * 2 ^ 128).
  destruct (Z.ltb_spec (val 62 (c :: bp) / 4294967296) (2 ^ 128)) as [Hlt|Hge];
    destruct (Z.ltb_spec (val 62 (c :: bp)) (4294967296 * 2 ^ 128)) as [Hlt'|Hge'];
    try reflexivity; exfalso.
  - apply Z.div_le_lower_bound in Hge'; lia.
  - apply Z.div_lt_upper_bound in Hlt'; lia.
Qed.

(** The fuel of [decodeBase62] never runs out. *)
Lemma fastDecodeBase62_total dst src :
  Base62.fastDecodeBase62 Base62.decode_fuel dst src <> None.
Proof.
  unfold Base62.fastDecodeBase62.
  destruct (negb (length src =? STRING_ENCODED_LENGTH)%nat) eqn:E; [discriminate|].
  apply negb_false_iff, Nat.eqb_eq in E.
  destruct (decode_loop_digits Base62.decode_fuel src dst) as (dst' & _ & ->).
  - unfold Base62.decode_fuel. lia.
  - intros ->. discriminate E.
  - discriminate.
Qed.

(* ===================================================================== *)
(** ** UTF-8 *)
(* ===================================================================== *)

Lemma utf8_encode_ascii s : ascii_only s = true -> JS.utf8_encode s = s.
Proof.
  induction s as [|c s IH]; intros Ha; [reflexivity|].
  cbn [ascii_only forallb] in Ha. apply andb_true_iff in Ha.
  destruct Ha as [Hc Hs]. cbn [JS.utf8_encode]. rewrite Hc.
  f_equal. apply IH. exact Hs.
Qed.

(** Every code unit gives at least one byte, and a code unit from [0x80]
    on gives more bytes than the code units it uses up. *)
Lemma utf8_encode_length (n : nat) :
  forall s, (length s <= n)%nat ->
    (length s <= length (JS.utf8_encode s))%nat
    /\ (ascii_only s = false -> (length s < length (JS.utf8_encode s))%nat).
Proof.
  induction n as [|n IH]; intros s Hn.
  - destruct s; [|cbn in Hn; lia]. cbn. split; [lia | discriminate].
  - destruct s as [|c rest]; [cbn; split; [lia | discriminate]|].
    cbn [length] in Hn.
    destruct (IH rest ltac:(lia)) as [Hle Hlt].
    cbn [JS.utf8_encode ascii_only forallb].
    destruct (c <? 128) eqn:E1; [cbn [andb length]; split; [lia|]|].
    { intros Ha. apply Hlt in Ha. lia. }
    cbn [andb].
    destruct (c <? 2048); [cbn [length]; split; intros; lia|].
    destruct ((55296 <=? c) && (c <=? 56319)).
    + destruct rest as [|d rest'].
      * cbn. split; intros; lia.
      * destruct ((56320 <=? d) && (d <=? 57343)).
        -- destruct (IH rest' ltac:(cbn [length] in Hn; lia)) as [Hle' _].
           cbn [length]. split; intros; lia.
        -- rewrite length_app. cbn [length JS.replacement] in *. split; intros; lia.
    + destruct ((56320 <=? c) && (c <=? 57343)).
      * rewrite length_app. cbn [length JS.replacement]. split; intros; lia.
      * cbn [length]. split; intros; lia.
Qed.

Lemma utf8_encode_longer s :
  ascii_only s = false -> (length s < length (JS.utf8_encode s))%nat.
Proof. apply (utf8_encode_length (length s) s). lia. Qed.

(* ===================================================================== *)
(** ** parse *)
(* ===================================================================== *)

(** [decodeBase62] fails on a 27-unit string exactly when a code unit is
    not below [0x80] or the digits denote a number that needs more than
    twenty bytes; what it returns has twenty bytes. *)
Lemma decodeBase62_spec s :
  length s = STRING_ENCODED_LENGTH ->
  (Base62.decodeBase62 s = None
   <-> ascii_only s = false \/ 2 ^ 160 <= val 62 (Base62.digits_of s))
  /\ (forall b, Base62.decodeBase62 s = Some b -> length b = BYTE_LENGTH).
Proof.
  intros Hlen. unfold Base62.decodeBase62, Base62.fastDecodeBase62.
  destruct (ascii_only s) eqn:Ea.
  - rewrite (utf8_encode_ascii s Ea), Hlen, Nat.eqb_refl. cbn [negb].
    destruct (decode_loop_digits Base62.decode_fuel s (JS.ta_new BYTE_LENGTH))
      as (dst' & Hl & ->).
    + unfold Base62.decode_fuel. lia.
    + intros ->. discriminate Hlen.
    + destruct (Z.ltb_spec (val 62 (Base62.digits_of s)) (2 ^ 160)) as [Hlt|Hge].
      * split.
        -- split; [discriminate|]. intros [Hf|Hge]; [discriminate | lia].
        -- intros b Hb. injection Hb as <-. rewrite Hl. reflexivity.
      * split.
        -- split; [intros _; right; exact Hge | reflexivity].
        -- discriminate.
  - pose proof (utf8_encode_longer s Ea) as Hlong.
    replace (length (JS.utf8_encode s) =? STRING_ENCODED_LENGTH)%nat with false
      by (symmetry; apply Nat.eqb_neq; lia).
    cbn [negb]. split.
    + split; [intros _; left; reflexivity | reflexivity].
    + discriminate.
Qed.

(** [parse] returns an identifier exactly when the string passes the
    length test and the two bounds, every code unit is below [0x80], and
    the number of the digits fits into twenty bytes. *)
Lemma parse_returns_iff (s : list Z) :
  is_Some (KSUID.parse s)
  <-> length s = STRING_ENCODED_LENGTH
      /\ JS.str_ltb s MIN_STRING_ENCODED = false
      /\ JS.str_ltb MAX_STRING_ENCODED s = false
      /\ ascii_only s = true
      /\ val 62 (Base62.digits_of s) < 2 ^ 160.
Proof.
  unfold KSUID.parse.
  destruct (Nat.eqb_spec (length s) STRING_ENCODED_LENGTH) as [Hlen|Hlen]; cbn [negb].
  2: { split; [intros [x Hx]; discriminate | intros [H _]; contradiction]. }
  destruct (JS.str_ltb s MIN_STRING_ENCODED) eqn:Emin; cbn [orb].
  { split; [intros [x Hx]; discriminate | intros (_ & H & _); discriminate]. }
  destruct (JS.str_ltb MAX_STRING_ENCODED s) eqn:Emax.
  { split; [intros [x Hx]; discriminate | intros (_ & _ & H & _); discriminate]. }
  destruct (decodeBase62_spec s Hlen) as [Hnone Hsome].
  destruct (Base62.decodeBase62 s) as [b|] eqn:Ed.
  - unfold KSUID.construct. rewrite (Hsome b eq_refl), Nat.eqb_refl. cbn [negb].
    split; [intros _ | intros _; eexists; reflexivity].
    repeat apply conj; try reflexivity; try exact Hlen.
    + destruct (ascii_only s); [reflexivity|]. exfalso.
      assert (Hn : Some b = None) by (apply Hnone; left; reflexivity).
      discriminate Hn.
    + destruct (Z.lt_ge_cases (val 62 (Base62.digits_of s)) (2 ^ 160)) as [Hlt|Hge];
        [exact Hlt|]. exfalso.
      assert (Hn : Some b = None) by (apply Hnone; right; exact Hge).
      discriminate Hn.
  - split; [intros [x Hx]; discriminate|].
    intros (_ & _ & _ & Ha & Hv). exfalso.
    destruct (proj1 Hnone eq_refl) as [Hf|Hge]; [congruence | lia].
Qed.

(** C7 (when parse fails), as the code has it.  [parse(s)] fails exactly
    when [s] does not have 27 code units, or compares below
    [MIN_STRING_ENCODED] or above [MAX_STRING_ENCODED], or has a code unit
    that is not below [0x80] (its UTF-8 encoding then has more than 27
    bytes), or its digits, which are [base62Value] of each character
    reduced modulo 256, denote a number from [2^160] on.  A character
    outside of the alphabet is not a reason to fail. *)
Theorem C7_parse_fails_iff (s : list Z) :
  KSUID.parse s = None
  <-> length s <> STRING_ENCODED_LENGTH
      \/ JS.str_ltb s MIN_STRING_ENCODED = true
      \/ JS.str_ltb MAX_STRING_ENCODED s = true
      \/ ascii_only s = false
      \/ 2 ^ 160 <= val 62 (Base62.digits_of s).
Proof.
  rewrite eq_None_not_Some, parse_returns_iff.
  destruct (Nat.eq_dec (length s) STRING_ENCODED_LENGTH) as [Hlen|Hlen];
    [|split; [intros _; left; exact Hlen | intros _ [H _]; contradiction]].
  destruct (JS.str_ltb s MIN_STRING_ENCODED);
    [split; [intros _; right; left; reflexivity
            | intros _ (_ & H & _); discriminate]|].
  destruct (JS.str_ltb MAX_STRING_ENCODED s);
    [split; [intros _; right; right; left; reflexivity
            | intros _ (_ & _ & H & _); discriminate]|].
  destruct (ascii_only s);
    [|split; [intros _; right; right; right; left; reflexivity
             | intros _ (_ & _ & _ & H & _); discriminate]].
  split.
  - intros Hn. right; right; right; right.
    destruct (Z.lt_ge_cases (val 62 (Base62.digits_of s)) (2 ^ 160)) as [Hlt|Hge];
      [|exact Hge].
    exfalso. apply Hn. repeat apply conj; try reflexivity; assumption.
  - intros [H|[H|[H|[H|H]]]] (_ & _ & _ & _ & Hv);
      first [contradiction | discriminate | lia].
Qed.

(** C7, the claim as stated, evaluated on the code.  The string
    ["0:0000000000000000000000000"] has 27 characters, one of them the
    colon, which is not in the alphabet; [parse] returns an identifier
    for it. *)
Lemma C7_parse_accepts_colon :
  let s := JS.str "0:0000000000000000000000000" in
  length s = 27%nat
  /\ forallb in_alphabet s = false
  /\ in_alphabet 58 = false
  /\ s !! 1%nat = Some 58
  /\ KSUID.parse s
     = Some (KSUID.mk [28; 153; 99; 39; 181; 66; 169; 208; 249; 48;
                       153; 44; 205; 167; 142; 75; 70; 0; 0; 0]).
Proof. cbv zeta. eval_conj. Qed.

(* ===================================================================== *)
(** ** Instances at concrete identifiers *)
(* ===================================================================== *)

Ltac wf_concrete :=
  split; [reflexivity|];
  lazymatch goal with
  | |- Forall is_byte ?l =>
      let l' := eval vm_compute in l in change (Forall is_byte l')
  end;
  repeat (apply List.Forall_cons; [unfold is_byte; lia|]);
  apply List.Forall_nil.

(** C9 with the all-zero identifier as the seed: the 65536 calls succeed
    and the next one fails. *)
Lemma C9_sequence_cap_at_Nil :
  KSUID.wf KSUID.Nil
  /\ (exists ids s',
        Sequence.emit Sequence.capacity (Sequence.create KSUID.Nil) = Some (ids, s')
        /\ Sequence.next s' = None).
Proof.
  assert (Hwf : KSUID.wf KSUID.Nil) by wf_concrete.
  split; [exact Hwf|].
  destruct (C9_sequence_cap KSUID.Nil Hwf) as (ids & s' & He & _ & Hn & _).
  exists ids, s'. split; [exact He | exact Hn].
Defined.

(* ===================================================================== *)
(** ** What holds around the evaluations *)
(* ===================================================================== *)

(** On halves within their range, [increment] and [add(_, ONE)] return the
    same two halves. *)
Lemma increment_is_add_one v :
  0 <= Uint128.values0 v < 2 ^ 64 ->
  Uint128.increment v = Uint128.add v Uint128.ONE.
Proof.
  intros Hv. unfold Uint128.increment, Uint128.add, Uint128.ONE, Uint128.make.
  cbn [Uint128.values0 Uint128.values1].
  change 18446744073709551615 with (2 ^ 64 - 1) in *.
  rewrite Z.add_0_r.
  destruct (2 ^ 64 - 1 <? Uint128.values0 v + 1) eqn:E; [|reflexivity].
  apply Z.ltb_lt in E. f_equal.
  replace (Uint128.values0 v + 1) with (2 ^ 64) by lia. reflexivity.
Qed.

(** The result of [increment] and of [add] is written out as the bytes of
    the sum modulo [2^128], although its halves are not reduced. *)
Lemma increment_toBytes_MAX :
  Uint128.toBytes (Uint128.increment Uint128.MAX) = repeat 0 16.
Proof. vm_compute. reflexivity. Qed.

(** [getTimestamp] is negative exactly when byte 0 has its high bit set. *)
Lemma getTimestamp_sign x :
  KSUID.wf x ->
  (KSUID.getTimestamp x < 0 <-> 128 <= JS.ta_get (KSUID.bytes x) 0).
Proof.
  intros Hwf. rewrite getTimestamp_signed by exact Hwf.
  explode x Hwf. cbn [take firstn].
  lazymatch goal with
  | |- context [JS.ta_get (?b0 :: ?l) 0] =>
      change (JS.ta_get (b0 :: l) 0) with b0
  end.
  unfold is_byte in *. unfold JS.to_int32. cbv [val fold_left].
  change (2 ^ 31) with 2147483648. change (2 ^ 32) with 4294967296.
  Z.div_mod_to_equations. lia.
Qed.

(** A negative leading word stays negative: [Math.floor(c / 62)] is
    negative when [c] is.  The encoder does not return for such a word. *)
Lemma division_negative_head tl c :
  c < 0 ->
  exists c' q r,
    c' < 0 /\ Base62.long_division 4294967296 62 (c :: tl) = (c' :: q, r).
Proof.
  intros Hc. rewrite long_division_cons.
  unfold Base62.division_step at 2. cbn [length Nat.eqb negb orb].
  unfold JS.floor_div. rewrite Z.mul_0_l, Z.add_0_r.
  assert (Hd : c / 62 < 0) by (apply Z.div_lt_upper_bound; lia).
  replace (c / 62 =? 0) with false by (symmetry; apply Z.eqb_neq; lia).
  cbn [negb app].
  destruct (division_keeps_head 4294967296 62 tl (c / 62) [] (JS.remainder c 62))
    as (q' & r' & ->).
  exists (c / 62), q', r'. split; [exact Hd | reflexivity].
Qed.

Lemma encode_loop_negative_head fuel :
  forall c tl n dst, c < 0 -> Base62.encode_loop fuel (c :: tl) n dst = None.
Proof.
  induction fuel as [|fuel IH]; intros c tl n dst Hc; [reflexivity|].
  cbn [Base62.encode_loop].
  destruct (division_negative_head tl c Hc) as (c' & q & r & Hc' & ->).
  apply IH. exact Hc'.
Qed.

Lemma word_at_0 x : Base62.word_at (KSUID.bytes x) 0 = KSUID.getTimestamp x.
Proof.
  unfold Base62.word_at, KSUID.getTimestamp. rewrite !Z.add_0_l. reflexivity.
Qed.

(** The encoder returns for no identifier whose byte 0 is [0x80] or more:
    [toString()] and [equals] do not return on them. *)
Lemma toString_diverges_high_byte x fuel :
  KSUID.wf x -> 128 <= JS.ta_get (KSUID.bytes x) 0 ->
  KSUID.toString fuel x = None.
Proof.
  intros Hwf Hb. apply (getTimestamp_sign x Hwf) in Hb.
  unfold KSUID.toString, Base62.encodeBase62, Base62.fastEncodeBase62.
  rewrite word_at_0.
  rewrite encode_loop_negative_head by exact Hb. reflexivity.
Qed.

(** The encoder does not return either at timestamp 0 with the all-ones
    payload: the first word is 0 and the second one is read as [-1], which
    leaves a negative leading quotient word after the first pass. *)
Lemma toString_diverges_max_payload fuel :
  KSUID.toString fuel max_payload = None.
Proof.
  unfold KSUID.toString, Base62.encodeBase62, Base62.fastEncodeBase62.
  assert (Hp : [Base62.word_at (KSUID.bytes max_payload) 0;
                Base62.word_at (KSUID.bytes max_payload) 4;
                Base62.word_at (KSUID.bytes max_payload) 8;
                Base62.word_at (KSUID.bytes max_payload) 12;
                Base62.word_at (KSUID.bytes max_payload) 16]
               = [0; -1; -1; -1; -1]) by (vm_compute; reflexivity).
  rewrite Hp. destruct fuel as [|fuel]; [reflexivity|].
  cbn [Base62.encode_loop].
  change (Base62.long_division 4294967296 62 [0; -1; -1; -1; -1])
    with (Base62.long_division 4294967296 62 [-1; -1; -1; -1]).
  destruct (division_negative_head [-1; -1; -1] (-1) ltac:(lia))
    as (c' & q & r & Hc' & ->).
  rewrite encode_loop_negative_head by exact Hc'. reflexivity.
Qed.

(** C3 (next and prev are mutually inverse), evaluated on the code.  At
    timestamp 0 with the all-ones payload [next()] returns the all-zero
    identifier: the payload wraps around and the timestamp stays 0, where
    the claim has it carried to 1; and [prev()] of the all-zero identifier
    returns the first identifier, with the timestamp 0 again, where the
    claim has a borrow.  The bytes come back, but the check that the claim
    is about, [x.next().prev().equals(x)], never returns: [equals] encodes
    both identifiers, and the encoder does not return on this one.  In the
    same way [x.prev().next().equals(x)] never returns at the all-ones
    identifier.  ([next_prev_inverse_bytes]: on the bytes the two methods
    do undo each other, for every identifier.) *)
Theorem C3_next_prev_equals_diverges :
  KSUID.next max_payload = Some KSUID.Nil
  /\ KSUID.prev KSUID.Nil = Some max_payload
  /\ KSUID.getTimestamp max_payload = 0
  /\ KSUID.getTimestamp KSUID.Nil = 0
  /\ (forall fuel y z,
        KSUID.next max_payload = Some y -> KSUID.prev y = Some z ->
        KSUID.equals fuel z max_payload = None)
  /\ (exists y z, KSUID.prev KSUID.Max = Some y /\ KSUID.next y = Some z)
  /\ (forall fuel y z,
        KSUID.prev KSUID.Max = Some y -> KSUID.next y = Some z ->
        KSUID.equals fuel z KSUID.Max = None).
Proof.
  assert (HM : forall fuel, KSUID.toString fuel KSUID.Max = None).
  { intros fuel. apply toString_diverges_high_byte; [wf_concrete|].
    vm_compute. intros H. discriminate H. }
  split; [vm_compute; reflexivity|].
  split; [vm_compute; reflexivity|].
  split; [vm_compute; reflexivity|].
  split; [vm_compute; reflexivity|].
  split.
  { intros fuel y z _ _. unfold KSUID.equals.
    rewrite toString_diverges_max_payload.
    destruct (KSUID.toString fuel z); reflexivity. }
  split.
  { exists (KSUID.mk (repeat 255 19 ++ [254])), KSUID.Max.
    split; vm_compute; reflexivity. }
  intros fuel y z _ _. unfold KSUID.equals. rewrite HM.
  destruct (KSUID.toString fuel z); reflexivity.
Qed.

(* ===================================================================== *)
(** ** Digits *)
(* ===================================================================== *)

Lemma digits_length base n v : length (digits base n v) = n.
Proof.
  revert v. induction n as [|n IH]; intros v; [reflexivity|].
  cbn [digits]. rewrite length_app, IH. cbn. lia.
Qed.

Lemma digits_zero base n : digits base n 0 = repeat 0 n.
Proof.
  induction n as [|n IH]; [reflexivity|].
  cbn [digits]. rewrite Zdiv_0_l, Zmod_0_l, IH.
  change [0] with (repeat 0 1). rewrite <- repeat_app.
  f_equal. lia.
Qed.

Lemma digits_range base n v :
  0 < base -> Forall (fun d => 0 <= d < base) (digits base n v).
Proof.
  intros Hb. revert v. induction n as [|n IH]; intros v; cbn [digits].
  - apply List.Forall_nil.
  - apply Forall_app. split; [apply IH|].
    apply List.Forall_cons; [|apply List.Forall_nil].
    apply Z.mod_pos_bound. exact Hb.
Qed.

Lemma val_digits base n v :
  0 < base -> val base (digits base n v) = v mod base ^ Z.of_nat n.
Proof.
  intros Hb. revert v. induction n as [|n IH]; intros v.
  - cbn. rewrite Z.mod_1_r. reflexivity.
  - cbn [digits]. rewrite val_snoc, IH.
    rewrite Nat2Z.inj_succ, Z.pow_succ_r by lia.
    rewrite Z.rem_mul_r by (first [lia | apply Z.pow_pos_nonneg; lia]).
    lia.
Qed.

Lemma digits_val base l :
  0 < base -> Forall (fun d => 0 <= d < base) l ->
  digits base (length l) (val base l) = l.
Proof.
  intros Hb. induction l as [|d l IH] using rev_ind; intros Hl; [reflexivity|].
  apply Forall_app in Hl. destruct Hl as [Hl Hd].
  apply Forall_cons in Hd. destruct Hd as [Hd _].
  rewrite length_app, Nat.add_comm. cbn [length Nat.add digits].
  rewrite val_snoc.
  replace ((val base l * base + d) / base) with (val base l).
  - rewrite IH by exact Hl. f_equal. f_equal.
    rewrite Z.add_comm, Z.mod_add by lia. apply Z.mod_small. exact Hd.
  - symmetry. rewrite Z.add_comm, Z.div_add by lia.
    rewrite Z.div_small by exact Hd. reflexivity.
Qed.

Lemma digits_app base n m v :
  0 < base ->
  digits base (n + m) v
  = digits base n (v / base ^ Z.of_nat m) ++ digits base m v.
Proof.
  intros Hb. revert v. induction m as [|m IH]; intros v.
  - rewrite Nat.add_0_r. cbn [digits Z.of_nat]. rewrite Z.pow_0_r, Z.div_1_r.
    rewrite app_nil_r. reflexivity.
  - rewrite Nat.add_succ_r. cbn [digits]. rewrite IH, app_assoc.
    rewrite Z.div_div by (try apply Z.pow_pos_nonneg; lia).
    rewrite Nat2Z.inj_succ, Z.pow_succ_r by lia. reflexivity.
Qed.

Lemma digits_mod base n v m :
  0 < base -> digits base n (v + m * base ^ Z.of_nat n) = digits base n v.
Proof.
  intros Hb. revert v m. induction n as [|n IH]; intros v m; [reflexivity|].
  cbn [digits]. rewrite Nat2Z.inj_succ, Z.pow_succ_r by lia.
  replace (v + m * (base * base ^ Z.of_nat n))
    with (v + (m * base ^ Z.of_nat n) * base) by lia.
  rewrite Z.div_add, Z.mod_add by lia. rewrite IH. reflexivity.
Qed.

(* ===================================================================== *)
(** ** What the decoder writes *)
(* ===================================================================== *)

Lemma ta_set_app (p l : list Z) i v :
  0 <= i -> JS.ta_set (p ++ l) (Z.of_nat (length p) + i) v = p ++ JS.ta_set l i v.
Proof.
  intros Hi. unfold JS.ta_set.
  replace (Z.of_nat (length p) + i <? 0) with false by (symmetry; apply Z.ltb_ge; lia).
  replace (i <? 0) with false by (symmetry; apply Z.ltb_ge; lia).
  replace (Z.to_nat (Z.of_nat (length p) + i)) with (length p + Z.to_nat i)%nat by lia.
  apply insert_app_r.
Qed.

Lemma be4_digits v : be4 v = digits 256 4 v.
Proof.
  unfold be4, byte_of. cbn [digits app].
  change (2 ^ (8 * 3)) with (256 * 256 * 256).
  change (2 ^ (8 * 2)) with (256 * 256).
  change (2 ^ (8 * 1)) with 256. change (2 ^ (8 * 0)) with 1.
  rewrite Z.div_1_r, !Z.div_div by lia. reflexivity.
Qed.

Lemma byte_of_to_int32 v k :
  0 <= k <= 3 -> byte_of (JS.to_int32 v) k = byte_of v k.
Proof.
  intros Hk. destruct (to_int32_cong v) as [m ->]. apply byte_of_mod; lia.
Qed.

(** The four stores of the decoder write the big-endian bytes of the
    remainder. *)
Lemma store_word_spec (p : list Z) a b c d s r :
  Base62.store_word (p ++ a :: b :: c :: d :: s) (Z.of_nat (length p) + 4) r
  = p ++ digits 256 4 r ++ s.
Proof.
  unfold Base62.store_word.
  replace (Z.of_nat (length p) + 4 - 4) with (Z.of_nat (length p) + 0) by lia.
  replace (Z.of_nat (length p) + 4 - 3) with (Z.of_nat (length p) + 1) by lia.
  replace (Z.of_nat (length p) + 4 - 2) with (Z.of_nat (length p) + 2) by lia.
  replace (Z.of_nat (length p) + 4 - 1) with (Z.of_nat (length p) + 3) by lia.
  rewrite (ta_set_app p _ 0) by lia.
  change (JS.ta_set (a :: b :: c :: d :: s) 0 ?v)
    with (JS.to_uint8 v :: b :: c :: d :: s).
  rewrite (ta_set_app p _ 1) by lia.
  change (JS.ta_set (?x :: b :: c :: d :: s) 1 ?v)
    with (x :: JS.to_uint8 v :: c :: d :: s).
  rewrite (ta_set_app p _ 2) by lia.
  change (JS.ta_set (?x :: ?y :: c :: d :: s) 2 ?v)
    with (x :: y :: JS.to_uint8 v :: d :: s).
  rewrite (ta_set_app p _ 3) by lia.
  change (JS.ta_set (?x :: ?y :: ?z :: d :: s) 3 ?v)
    with (x :: y :: z :: JS.to_uint8 v :: s).
  change (JS.sar r 24) with (Z.shiftr (JS.to_int32 r) (8 * 3)).
  change (JS.sar r 16) with (Z.shiftr (JS.to_int32 r) (8 * 2)).
  change (JS.sar r 8) with (Z.shiftr (JS.to_int32 r) (8 * 1)).
  rewrite !stored_number_byte by lia. rewrite stored_number_low.
  rewrite !byte_of_to_int32 by lia.
  rewrite <- be4_digits. reflexivity.
Qed.

Lemma zero_head_spec (n : nat) dst :
  (n <= length dst)%nat ->
  Base62.zero_head (Z.of_nat n) dst = repeat 0 n ++ drop n dst.
Proof.
  unfold Base62.zero_head. rewrite Nat2Z.id.
  induction n as [|n IH]; intros Hn; [reflexivity|].
  rewrite seq_S, fold_left_app, IH by lia. cbn [fold_left Nat.add].
  replace (Z.of_nat n) with (Z.of_nat (length (repeat 0 n)) + 0)
    by (rewrite repeat_length; lia).
  rewrite ta_set_app by lia.
  destruct (drop n dst) as [|a l] eqn:E.
  { apply (f_equal length) in E. rewrite length_drop in E. cbn in E. lia. }
  change (JS.ta_set (a :: l) 0 0) with (0 :: l).
  replace (drop (S n) dst) with l.
  - change (0 :: l) with (repeat 0 1 ++ l). rewrite app_assoc, <- repeat_app.
    f_equal. f_equal. lia.
  - replace (S n) with (n + 1)%nat by lia.
    rewrite <- (drop_drop dst 1 n), E. reflexivity.
Qed.

(** With room for [k] words and a dividend that fits into them, the loop
    returns [true] and leaves the [4 * k] big-endian bytes of the dividend
    in front of the rest of [dst]. *)
Lemma decode_loop_bytes (k : nat) :
  forall fuel bp dst,
    Forall (fun d => 0 <= d) bp -> (k = 0%nat -> bp = []) ->
    val 62 bp < 2 ^ (32 * Z.of_nat k) ->
    (k < fuel)%nat -> (4 * k <= length dst)%nat ->
    Base62.decode_loop fuel bp (4 * Z.of_nat k) dst
    = Some (true, digits 256 (4 * k) (val 62 bp) ++ drop (4 * k) dst).
Proof.
  induction k as [|k IH]; intros fuel bp dst Hc H0 Hv Hf Hl.
  { rewrite (H0 eq_refl). destruct fuel; reflexivity. }
  clear H0. destruct bp as [|c bp].
  - replace (4 * Z.of_nat (S k)) with (Z.of_nat (4 * S k)) by lia.
    replace (Base62.decode_loop fuel [] (Z.of_nat (4 * S k)) dst)
      with (Some (true, Base62.zero_head (Z.of_nat (4 * S k)) dst))
      by (destruct fuel; reflexivity).
    rewrite zero_head_spec by lia.
    change (val 62 []) with 0. rewrite digits_zero. reflexivity.
  - destruct fuel as [|fuel]; [lia|]. cbn [Base62.decode_loop].
    pose proof (long_division_spec 62 4294967296 ltac:(lia) ltac:(lia)
                  (c :: bp) Hc) as (Hq & Hqv & Hr).
    destruct (Base62.long_division 62 4294967296 (c :: bp)) as [q r].
    cbn [fst snd] in Hq, Hqv, Hr.
    replace (4 * Z.of_nat (S k) <? 4) with false by (symmetry; apply Z.ltb_ge; lia).
    replace (4 * Z.of_nat (S k) - 4) with (4 * Z.of_nat k) by lia.
    (* the four bytes about to be written *)
    assert (Hsplit : exists a b c' d s,
               drop (4 * k) dst = a :: b :: c' :: d :: s
               /\ drop (4 * S k) dst = s).
    { pose proof (length_drop dst (4 * k)) as Hd.
      destruct (drop (4 * k) dst) as [|a [|b [|c' [|d s]]]] eqn:E;
        cbn [length] in Hd; try lia.
      exists a, b, c', d, s. split; [reflexivity|].
      replace (4 * S k)%nat with (4 * k + 4)%nat by lia.
      rewrite <- drop_drop, E. reflexivity. }
    destruct Hsplit as (a & b & c' & d & s & Ed & Es).
    assert (Hstore : Base62.store_word dst (4 * Z.of_nat (S k)) r
                     = take (4 * k) dst ++ digits 256 4 r ++ s).
    { rewrite <- (take_drop (4 * k) dst) at 1. rewrite Ed.
      replace (4 * Z.of_nat (S k))
        with (Z.of_nat (length (take (4 * k) dst)) + 4)
        by (rewrite length_take; lia).
      apply store_word_spec. }
    rewrite Hstore.
    assert (Hpow : 0 < 2 ^ (32 * Z.of_nat k)) by (apply Z.pow_pos_nonneg; lia).
    rewrite IH.
    + f_equal. f_equal. rewrite Es.
      replace (4 * S k)%nat with (4 * k + 4)%nat by lia.
      rewrite (digits_app 256 (4 * k) 4) by lia.
      change (256 ^ Z.of_nat 4) with 4294967296.
      rewrite Hqv, Hr.
      rewrite <- app_assoc. f_equal.
      rewrite drop_app_length' by (rewrite length_take; lia).
      f_equal.
      pose proof (Z.div_mod (val 62 (c :: bp)) 4294967296 ltac:(lia)) as Hdm.
      rewrite Hdm at 2.
      replace (4294967296 * (val 62 (c :: bp) / 4294967296)
               + val 62 (c :: bp) mod 4294967296)
        with (val 62 (c :: bp) mod 4294967296
              + (val 62 (c :: bp) / 4294967296) * 256 ^ Z.of_nat 4)
        by (change (256 ^ Z.of_nat 4) with 4294967296; lia).
      rewrite digits_mod by lia. reflexivity.
    + exact (proj1 Hq).
    + intros ->. apply (canonical_val 62 q ltac:(lia) Hq).
      pose proof (proj1 (canonical_val 62 q ltac:(lia) Hq)) as Hq0.
      assert (val 62 q < 1); [|lia].
      rewrite Hqv. apply Z.div_lt_upper_bound; [lia|].
      change (2 ^ (32 * Z.of_nat 1)) with 4294967296 in Hv. lia.
    + rewrite Hqv. apply Z.div_lt_upper_bound; [lia|].
      replace (32 * Z.of_nat (S k)) with (32 + 32 * Z.of_nat k) in Hv by lia.
      rewrite Z.pow_add_r in Hv by lia. exact Hv.
    + lia.
    + rewrite length_app, length_take, length_app, digits_length.
      apply (f_equal length) in Es. rewrite length_drop in Es. lia.
Qed.

(** [decodeBase62] on a 27-character string of code units below [0x80]
    whose digits denote a number below [2^160]: the twenty big-endian
    bytes of that number. *)
Lemma decodeBase62_value s :
  length s = STRING_ENCODED_LENGTH -> ascii_only s = true ->
  val 62 (Base62.digits_of s) < 2 ^ 160 ->
  Base62.decodeBase62 s = Some (digits 256 20 (val 62 (Base62.digits_of s))).
Proof.
  intros Hlen Ha Hv. unfold Base62.decodeBase62, Base62.fastDecodeBase62.
  rewrite (utf8_encode_ascii s Ha), Hlen, Nat.eqb_refl. cbn [negb].
  change (Z.of_nat BYTE_LENGTH) with (4 * Z.of_nat 5).
  rewrite (decode_loop_bytes 5).
  - change (drop (4 * 5) (JS.ta_new BYTE_LENGTH)) with (@nil Z).
    rewrite app_nil_r. reflexivity.
  - apply digits_nonneg.
  - discriminate.
  - exact Hv.
  - unfold Base62.decode_fuel. lia.
  - change (length (JS.ta_new BYTE_LENGTH)) with 20%nat. lia.
Qed.

(* ===================================================================== *)
(** ** The encoder on words that are not negative *)
(* ===================================================================== *)

Lemma zero_char (i : nat) :
  (i < 27)%nat -> JS.charCodeAt ZERO_STRING (Z.of_nat i) = Some 48.
Proof.
  intros Hi. unfold JS.charCodeAt.
  replace (Z.of_nat i <? 0) with false by (symmetry; apply Z.ltb_ge; lia).
  rewrite Nat2Z.id.
  do 27 (destruct i as [|i]; [reflexivity|]). lia.
Qed.

Lemma pad_head_spec (n : nat) dst :
  (n <= 27)%nat -> (n <= length dst)%nat ->
  Base62.pad_head (Z.of_nat n) dst = repeat 48 n ++ drop n dst.
Proof.
  unfold Base62.pad_head. rewrite Nat2Z.id.
  induction n as [|n IH]; intros Hn Hl; [reflexivity|].
  rewrite seq_S, fold_left_app, IH by lia. cbn [fold_left Nat.add].
  rewrite zero_char by lia. unfold JS.ta_set_num. cbn [default].
  replace (Z.of_nat n) with (Z.of_nat (length (repeat 48 n)) + 0)
    by (rewrite repeat_length; lia).
  rewrite ta_set_app by lia.
  destruct (drop n dst) as [|a l] eqn:E.
  { apply (f_equal length) in E. rewrite length_drop in E. cbn in E. lia. }
  change (JS.ta_set (a :: l) 0 (id 48)) with (48 :: l).
  replace (drop (S n) dst) with l.
  - change (48 :: l) with (repeat 48 1 ++ l). rewrite app_assoc, <- repeat_app.
    f_equal. f_equal. lia.
  - replace (S n) with (n + 1)%nat by lia.
    rewrite <- (drop_drop dst 1 n), E. reflexivity.
Qed.

(** The store [dst[n] = BASE62_CHARACTERS.charCodeAt(remainder)] within
    the array. *)
Lemma store_char_spec (n : nat) dst r :
  (n < length dst)%nat ->
  JS.ta_set_num dst (Z.of_nat n) (JS.charCodeAt BASE62_CHARACTERS r)
  = take n dst ++ char_of r :: drop (S n) dst.
Proof.
  intros Hn. unfold JS.ta_set_num, JS.ta_set.
  replace (Z.of_nat n <? 0) with false by (symmetry; apply Z.ltb_ge; lia).
  rewrite Nat2Z.id. fold (char_of r). apply insert_take_drop. exact Hn.
Qed.

(** With [n] characters of room and a dividend below [62^n], the loop
    returns, and after the padding the [n] characters in front of the rest
    of [dst] are the digits of the dividend. *)
Lemma encode_loop_digits (n : nat) :
  forall fuel bp dst,
    Forall (fun d => 0 <= d) bp -> (n = 0%nat -> bp = []) ->
    val 4294967296 bp < 62 ^ Z.of_nat n ->
    (n < fuel)%nat -> (n <= length dst)%nat -> (n <= 27)%nat ->
    exists res,
      Base62.encode_loop fuel bp (Z.of_nat n) dst = Some res
      /\ Base62.pad_head (fst res) (snd res)
         = map char_of (digits 62 n (val 4294967296 bp)) ++ drop n dst.
Proof.
  induction n as [|n IH]; intros fuel bp dst Hc H0 Hv Hf Hl H27.
  { rewrite (H0 eq_refl). exists (0, dst). split; [destruct fuel|]; reflexivity. }
  clear H0. destruct bp as [|c bp].
  - exists (Z.of_nat (S n), dst). split; [destruct fuel; reflexivity|].
    cbn [fst snd]. rewrite pad_head_spec by lia.
    change (val 4294967296 []) with 0. rewrite digits_zero.
    f_equal. generalize (S n). intros m.
    induction m as [|m IHm]; [reflexivity|]. cbn [repeat map]. rewrite <- IHm.
    reflexivity.
  - destruct fuel as [|fuel]; [lia|]. cbn [Base62.encode_loop].
    pose proof (long_division_spec 4294967296 62 ltac:(lia) ltac:(lia)
                  (c :: bp) Hc) as (Hq & Hqv & Hr).
    destruct (Base62.long_division 4294967296 62 (c :: bp)) as [q r].
    cbn [fst snd] in Hq, Hqv, Hr.
    replace (Z.of_nat (S n) - 1) with (Z.of_nat n) by lia.
    rewrite store_char_spec by lia.
    assert (Hpow : 0 < 62 ^ Z.of_nat n) by (apply Z.pow_pos_nonneg; lia).
    assert (Hqlt : val 4294967296 q < 62 ^ Z.of_nat n).
    { rewrite Hqv. apply Z.div_lt_upper_bound; [lia|].
      rewrite Nat2Z.inj_succ, Z.pow_succ_r in Hv by lia. exact Hv. }
    destruct (IH fuel q (take n dst ++ char_of r :: drop (S n) dst))
      as (res & Hrun & Hpad).
    + exact (proj1 Hq).
    + intros ->. apply (canonical_val 4294967296 q ltac:(lia) Hq).
      pose proof (proj1 (canonical_val 4294967296 q ltac:(lia) Hq)).
      change (62 ^ Z.of_nat 0) with 1 in Hqlt. lia.
    + exact Hqlt.
    + lia.
    + rewrite length_app, length_take. cbn [length]. rewrite length_drop. lia.
    + lia.
    + exists res. split; [exact Hrun|]. rewrite Hpad.
      rewrite drop_app_length' by (rewrite length_take; lia).
      cbn [digits]. rewrite map_app, <- app_assoc, Hqv, Hr. reflexivity.
Qed.

(** The alphabet: every digit has a character below [0x80] from which
    [base62Value] gives the digit back. *)
Lemma char_of_digit d :
  0 <= d < 62 ->
  (char_of d <? 128) = true /\ JS.to_uint8 (Base62.base62Value (char_of d)) = d.
Proof.
  intros Hd.
  assert (Hall : forallb
            (fun i => (char_of (Z.of_nat i) <? 128)
                      && (JS.to_uint8 (Base62.base62Value (char_of (Z.of_nat i)))
                          =? Z.of_nat i))
            (seq 0 62) = true) by (vm_compute; reflexivity).
  rewrite forallb_forall in Hall.
  specialize (Hall (Z.to_nat d)). rewrite Z2Nat.id in Hall by lia.
  assert (Hin : In (Z.to_nat d) (seq 0 62)) by (apply in_seq; lia).
  apply Hall in Hin. apply andb_true_iff in Hin. destruct Hin as [H1 H2].
  split; [exact H1 | apply Z.eqb_eq, H2].
Qed.

Lemma text_of_length v : length (text_of v) = STRING_ENCODED_LENGTH.
Proof. unfold text_of. rewrite length_map. apply digits_length. Qed.

Lemma text_of_ascii v : ascii_only (text_of v) = true.
Proof.
  unfold text_of, ascii_only.
  pose proof (digits_range 62 27 v ltac:(lia)) as Hr.
  induction Hr as [|d l Hd Hl IH]; [reflexivity|].
  cbn [map forallb]. rewrite IH.
  rewrite (proj1 (char_of_digit d Hd)). reflexivity.
Qed.

Lemma text_of_digits v : Base62.digits_of (text_of v) = digits 62 27 v.
Proof.
  unfold text_of, Base62.digits_of.
  pose proof (digits_range 62 27 v ltac:(lia)) as Hr.
  induction Hr as [|d l Hd Hl IH]; [reflexivity|].
  cbn [map]. rewrite IH.
  rewrite (proj2 (char_of_digit d Hd)). reflexivity.
Qed.

(** Decoding the text of a number below [2^160] gives its twenty bytes. *)
Lemma decodeBase62_text_of v :
  0 <= v < 2 ^ 160 -> Base62.decodeBase62 (text_of v) = Some (digits 256 20 v).
Proof.
  intros Hv.
  assert (Hval : val 62 (Base62.digits_of (text_of v)) = v).
  { rewrite text_of_digits, val_digits by lia. apply Z.mod_small.
    change (62 ^ Z.of_nat 27) with 2480707824361381849652170924082266893544595652608.
    change (2 ^ 160) with 1461501637330902918203684832716283019655932542976 in Hv.
    lia. }
  rewrite decodeBase62_value.
  - rewrite Hval. reflexivity.
  - apply text_of_length.
  - apply text_of_ascii.
  - rewrite Hval. lia.
Qed.

(** The five words of an identifier whose words are not negative are its
    five big-endian 32-bit digits. *)
Lemma words_value x :
  KSUID.wf x -> words_nonneg x ->
  let b := KSUID.bytes x in
  let parts := [Base62.word_at b 0; Base62.word_at b 4; Base62.word_at b 8;
                Base62.word_at b 12; Base62.word_at b 16] in
  Forall (fun d => 0 <= d) parts
  /\ val 4294967296 parts = val 256 b
  /\ 0 <= val 256 b < 2 ^ 160.
Proof.
  intros Hwf Hnn. pose proof Hwf as [Hlen Hall].
  pose proof (val_bound _ Hall) as Hb. rewrite Hlen in Hb.
  change (256 ^ Z.of_nat BYTE_LENGTH) with (2 ^ 160) in Hb.
  unfold words_nonneg in Hnn.
  repeat (apply Forall_cons in Hnn; let H := fresh "Hhi" in destruct Hnn as [H Hnn]).
  clear Hnn Hlen Hall.
  explode x Hwf. cbv zeta.
  unfold Base62.word_at.
  repeat match goal with
         | |- context [JS.ta_get ?l ?i] =>
             let v := eval vm_compute in (JS.ta_get l i) in
             change (JS.ta_get l i) with v
         | H : context [JS.ta_get ?l ?i] |- _ =>
             let v := eval vm_compute in (JS.ta_get l i) in
             change (JS.ta_get l i) with v in H
         end.
  rewrite !word_signed by assumption.
  unfold is_byte in *.
  rewrite !to_int32_small by (cbv [val fold_left]; lia).
  split; [|split; [|exact Hb]].
  - repeat (apply List.Forall_cons; [cbv [val fold_left]; lia|]).
    apply List.Forall_nil.
  - cbv [val fold_left]. lia.
Qed.

Lemma str_eqb_eq a b : JS.str_eqb a b = true <-> a = b.
Proof.
  revert b. induction a as [|x a IH]; intros [|y b]; cbn [JS.str_eqb];
    try (split; [discriminate | discriminate]); [split; reflexivity|].
  rewrite andb_true_iff, Z.eqb_eq, IH. split.
  - intros [-> ->]. reflexivity.
  - intros E. injection E as -> ->. split; reflexivity.
Qed.

(** On an identifier whose five words are not negative the encoder
    returns within 27 passes, with the text of the number the twenty bytes
    denote. *)
Lemma encodeBase62_nonneg_words x fuel :
  KSUID.wf x -> words_nonneg x -> (28 <= fuel)%nat ->
  Base62.encodeBase62 fuel (KSUID.bytes x)
  = Some (text_of (val 256 (KSUID.bytes x))).
Proof.
  intros Hwf Hnn Hf.
  destruct (words_value x Hwf Hnn) as (Hparts & Hval & Hrange).
  unfold Base62.encodeBase62, Base62.fastEncodeBase62.
  change (Z.of_nat STRING_ENCODED_LENGTH) with (Z.of_nat 27).
  destruct (encode_loop_digits 27 fuel _ (JS.ta_new STRING_ENCODED_LENGTH) Hparts)
    as ([n dst'] & -> & Hpad).
  - discriminate.
  - rewrite Hval.
    change (62 ^ Z.of_nat 27) with 2480707824361381849652170924082266893544595652608.
    change (2 ^ 160) with 1461501637330902918203684832716283019655932542976 in Hrange.
    lia.
  - lia.
  - change (length (JS.ta_new STRING_ENCODED_LENGTH)) with 27%nat. lia.
  - lia.
  - cbn [fst snd] in Hpad. rewrite Hpad, Hval.
    change (drop 27 (JS.ta_new STRING_ENCODED_LENGTH)) with (@nil Z).
    rewrite app_nil_r. reflexivity.
Qed.

Lemma digits_bytes x :
  KSUID.wf x -> digits 256 20 (val 256 (KSUID.bytes x)) = KSUID.bytes x.
Proof.
  intros [Hlen Hall]. change 20%nat with BYTE_LENGTH. rewrite <- Hlen.
  apply digits_val; [lia | exact Hall].
Qed.

(** The round trip from bytes, where the slip of the encoder does not
    bite: on an identifier whose five words are not negative the encoder
    returns a text that the decoder takes back to the same bytes. *)
Lemma round_trip_nonneg_words x fuel :
  KSUID.wf x -> words_nonneg x -> (28 <= fuel)%nat ->
  exists e,
    Base62.encodeBase62 fuel (KSUID.bytes x) = Some e
    /\ Base62.decodeBase62 e = Some (KSUID.bytes x).
Proof.
  intros Hwf Hnn Hf. eexists. split.
  - apply encodeBase62_nonneg_words; assumption.
  - destruct (words_value x Hwf Hnn) as (_ & _ & Hrange).
    rewrite decodeBase62_text_of by exact Hrange.
    rewrite digits_bytes by exact Hwf. reflexivity.
Qed.

(** On such identifiers [equals] returns, and returns [true] exactly for
    equal bytes. *)
Lemma equals_nonneg_words a b fuel :
  KSUID.wf a -> KSUID.wf b -> words_nonneg a -> words_nonneg b ->
  (28 <= fuel)%nat ->
  exists r, KSUID.equals fuel a b = Some r
            /\ (r = true <-> KSUID.bytes a = KSUID.bytes b).
Proof.
  intros Ha Hb Hna Hnb Hf. unfold KSUID.equals, KSUID.toString.
  rewrite !encodeBase62_nonneg_words by assumption.
  eexists. split; [reflexivity|]. rewrite str_eqb_eq. split.
  - intros E.
    pose proof (decodeBase62_text_of _ (proj2 (proj2 (words_value a Ha Hna)))) as Da.
    pose proof (decodeBase62_text_of _ (proj2 (proj2 (words_value b Hb Hnb)))) as Db.
    rewrite digits_bytes in Da, Db by assumption.
    rewrite E, Db in Da. injection Da as Da. symmetry. exact Da.
  - intros ->. reflexivity.
Qed.

(** A character of the alphabet is below [0x80], its value is a digit, and
    the digit has that character. *)
Lemma alphabet_char c :
  in_alphabet c = true ->
  (c <? 128) = true
  /\ 0 <= JS.to_uint8 (Base62.base62Value c) < 62
  /\ char_of (JS.to_uint8 (Base62.base62Value c)) = c.
Proof.
  intros Hc. unfold in_alphabet in Hc. apply existsb_exists in Hc.
  destruct Hc as (a & Hin & Ha). apply Z.eqb_eq in Ha. subst a.
  assert (Hall : forallb
            (fun a => (a <? 128)
                      && (0 <=? JS.to_uint8 (Base62.base62Value a))
                      && (JS.to_uint8 (Base62.base62Value a) <? 62)
                      && (char_of (JS.to_uint8 (Base62.base62Value a)) =? a))
            BASE62_CHARACTERS = true) by (vm_compute; reflexivity).
  rewrite forallb_forall in Hall. apply Hall in Hin.
  repeat (apply andb_true_iff in Hin; let H := fresh "H" in destruct Hin as [Hin H]).
  repeat apply conj.
  - exact Hin.
  - apply Z.leb_le. assumption.
  - apply Z.ltb_lt. assumption.
  - apply Z.eqb_eq. assumption.
Qed.

Lemma alphabet_string s :
  forallb in_alphabet s = true ->
  ascii_only s = true
  /\ Forall (fun d => 0 <= d < 62) (Base62.digits_of s)
  /\ map char_of (Base62.digits_of s) = s.
Proof.
  induction s as [|c s IH]; intros Hs.
  - repeat split. apply List.Forall_nil.
  - cbn [forallb] in Hs. apply andb_true_iff in Hs. destruct Hs as [Hc Hs].
    destruct (IH Hs) as (Ha & Hd & Hm).
    destruct (alphabet_char c Hc) as (H1 & H2 & H3).
    unfold ascii_only, Base62.digits_of in *. cbn [forallb map].
    rewrite H1, Ha, H3, Hm. repeat split.
    apply List.Forall_cons; assumption.
Qed.

Lemma val_nonneg base l :
  1 <= base -> Forall (fun d => 0 <= d) l -> 0 <= val base l.
Proof. intros Hb Hl. apply (horner_ge base l 0 Hb ltac:(lia) Hl). Qed.

(** The round trip from text, where the slip of the encoder does not
    bite: when a 27-character string over the alphabet decodes to bytes
    whose five words are not negative, encoding the bytes gives the string
    back. *)
Lemma round_trip_text_nonneg_words s b fuel :
  length s = STRING_ENCODED_LENGTH -> forallb in_alphabet s = true ->
  Base62.decodeBase62 s = Some b -> words_nonneg (KSUID.mk b) ->
  (28 <= fuel)%nat ->
  Base62.encodeBase62 fuel b = Some s.
Proof.
  intros Hlen Hs Hd Hnn Hf.
  destruct (alphabet_string s Hs) as (Ha & Hdig & Hchars).
  assert (HV : 0 <= val 62 (Base62.digits_of s) < 2 ^ 160).
  { split.
    - apply val_nonneg; [lia | apply digits_nonneg].
    - destruct (Z.lt_ge_cases (val 62 (Base62.digits_of s)) (2 ^ 160))
        as [Hlt|Hge]; [exact Hlt|].
      assert (Hnone : Base62.decodeBase62 s = None)
        by (apply (decodeBase62_spec s Hlen); right; exact Hge).
      congruence. }
  rewrite decodeBase62_value in Hd by (assumption || apply HV).
  assert (Hb : b = digits 256 20 (val 62 (Base62.digits_of s))) by congruence.
  subst b. clear Hd.
  assert (Hwf : KSUID.wf (KSUID.mk (digits 256 20 (val 62 (Base62.digits_of s))))).
  { split; cbn [KSUID.bytes]; [apply digits_length|].
    apply (digits_range 256 20). lia. }
  pose proof (encodeBase62_nonneg_words _ fuel Hwf Hnn Hf) as He.
  cbn [KSUID.bytes] in He. rewrite He, val_digits by lia.
  change (256 ^ Z.of_nat 20) with (2 ^ 160). rewrite Z.mod_small by exact HV.
  unfold text_of.
  replace 27%nat with (length (Base62.digits_of s))
    by (unfold Base62.digits_of; rewrite length_map; exact Hlen).
  rewrite digits_val by (lia || exact Hdig).
  rewrite Hchars. reflexivity.
Qed.

(* ===================================================================== *)
(** ** Orders *)
(* ===================================================================== *)

Lemma val_range base l :
  0 < base -> Forall (fun d => 0 <= d < base) l ->
  0 <= val base l < base ^ Z.of_nat (length l).
Proof.
  intros Hb. induction l as [|d l IH] using rev_ind; intros Hl.
  - cbn. lia.
  - apply Forall_app in Hl. destruct Hl as [Hl Hd].
    apply Forall_cons in Hd. destruct Hd as [Hd _].
    specialize (IH Hl). rewrite val_snoc, length_app. cbn [length].
    replace (Z.of_nat (length l + 1)) with (Z.succ (Z.of_nat (length l))) by lia.
    rewrite Z.pow_succ_r by lia. nia.
Qed.

Lemma val_cons base x l :
  val base (x :: l) = x * base ^ Z.of_nat (length l) + val base l.
Proof.
  change (x :: l) with ([x] ++ l). rewrite val_app.
  change (val base [x]) with (0 * base + x). lia.
Qed.

(** On digit lists of one length the order of the strings is the order of
    the numbers. *)
Lemma str_ltb_val base l1 :
  0 < base ->
  forall l2,
    length l1 = length l2 ->
    Forall (fun d => 0 <= d < base) l1 -> Forall (fun d => 0 <= d < base) l2 ->
    (JS.str_ltb l1 l2 = true <-> val base l1 < val base l2).
Proof.
  intros Hb. induction l1 as [|x l1 IH]; intros [|y l2] Hlen H1 H2;
    try discriminate Hlen.
  - cbn. split; [discriminate | lia].
  - apply Forall_cons in H1. destruct H1 as [Hx H1].
    apply Forall_cons in H2. destruct H2 as [Hy H2].
    injection Hlen as Hlen.
    pose proof (val_range base l1 Hb H1) as R1.
    pose proof (val_range base l2 Hb H2) as R2.
    rewrite !val_cons, <- Hlen. rewrite <- Hlen in R2.
    cbn [JS.str_ltb].
    destruct (Z.ltb_spec x y) as [Hlt|Hge].
    + split; [intros _; nia | reflexivity].
    + destruct (Z.ltb_spec y x) as [Hgt|Hle].
      * split; [discriminate | intros; exfalso; nia].
      * assert (x = y) by lia. subst y.
        rewrite (IH l2 Hlen H1 H2). lia.
Qed.

(** A map that is strictly increasing on the elements keeps the order of
    the strings. *)
Lemma str_ltb_map (f : Z -> Z) (P : Z -> Prop) :
  (forall a b, P a -> P b -> a < b -> f a < f b) ->
  forall l1 l2,
    Forall P l1 -> Forall P l2 ->
    JS.str_ltb (map f l1) (map f l2) = JS.str_ltb l1 l2.
Proof.
  intros Hf. induction l1 as [|x l1 IH]; intros [|y l2] H1 H2; try reflexivity.
  apply Forall_cons in H1. destruct H1 as [Hx H1].
  apply Forall_cons in H2. destruct H2 as [Hy H2].
  cbn [map JS.str_ltb]. rewrite (IH l2 H1 H2).
  destruct (Z.ltb_spec x y) as [Hlt|Hge].
  - replace (f x <? f y) with true; [reflexivity|].
    symmetry. apply Z.ltb_lt. apply Hf; assumption.
  - replace (f x <? f y) with false.
    + destruct (Z.ltb_spec y x) as [Hgt|Hle].
      * replace (f y <? f x) with true; [reflexivity|].
        symmetry. apply Z.ltb_lt. apply Hf; assumption.
      * assert (x = y) by lia. subst y. rewrite Z.ltb_irrefl. reflexivity.
    + symmetry. apply Z.ltb_ge.
      destruct (Z.eq_dec x y) as [->|Hne]; [lia|].
      assert (f y < f x) by (apply Hf; try assumption; lia). lia.
Qed.

(** The alphabet is in increasing order. *)
Lemma char_of_increasing a b :
  0 <= a < 62 -> 0 <= b < 62 -> a < b -> char_of a < char_of b.
Proof.
  intros Ha Hb Hab.
  assert (Hall : forallb
            (fun i => char_of (Z.of_nat i) <? char_of (Z.of_nat (S i)))
            (seq 0 61) = true) by (vm_compute; reflexivity).
  rewrite forallb_forall in Hall.
  assert (Hstep : forall i, 0 <= i < 61 -> char_of i < char_of (i + 1)).
  { intros i Hi. specialize (Hall (Z.to_nat i)).
    rewrite Nat2Z.inj_succ, Z2Nat.id in Hall by lia.
    apply Z.ltb_lt, Hall. apply in_seq. lia. }
  assert (Hmono : forall (k : nat) i,
             0 <= i -> i + Z.of_nat (S k) < 62 ->
             char_of i < char_of (i + Z.of_nat (S k))).
  { induction k as [|k IHk]; intros i Hi Hk.
    - apply Hstep. lia.
    - etransitivity; [apply (IHk i); lia|].
      replace (i + Z.of_nat (S (S k))) with (i + Z.of_nat (S k) + 1) by lia.
      apply Hstep. lia. }
  replace b with (a + Z.of_nat (S (Z.to_nat (b - a - 1)))) by lia.
  apply Hmono; lia.
Qed.

Lemma ta_get_cons_S x (l : list Z) i :
  0 <= i -> JS.ta_get (x :: l) (i + 1) = JS.ta_get l i.
Proof.
  intros Hi. unfold JS.ta_get.
  replace (i + 1 <? 0) with false by (symmetry; apply Z.ltb_ge; lia).
  replace (i <? 0) with false by (symmetry; apply Z.ltb_ge; lia).
  replace (Z.to_nat (i + 1)) with (S (Z.to_nat i)) by lia. reflexivity.
Qed.

Lemma compare_from_shift k :
  forall i x a y b,
    0 <= i ->
    KSUID.compare_from k (i + 1) (x :: a) (y :: b) = KSUID.compare_from k i a b.
Proof.
  induction k as [|k IH]; intros i x a y b Hi; [reflexivity|].
  cbn [KSUID.compare_from]. rewrite !ta_get_cons_S by exact Hi.
  rewrite IH by lia. reflexivity.
Qed.

(** The loop of [compare] orders two arrays of one length as [<] orders
    strings. *)
Lemma compare_from_order a :
  forall b,
    length a = length b ->
    (KSUID.compare_from (length a) 0 a b < 0 <-> JS.str_ltb a b = true)
    /\ (KSUID.compare_from (length a) 0 a b = 0 <-> a = b)
    /\ (KSUID.compare_from (length a) 0 a b > 0 <-> JS.str_ltb b a = true).
Proof.
  induction a as [|x a IH]; intros [|y b] Hlen; try discriminate Hlen.
  - cbn. repeat split; intros; try reflexivity; try discriminate; lia.
  - injection Hlen as Hlen. destruct (IH b Hlen) as (I1 & I2 & I3).
    cbn [length KSUID.compare_from JS.str_ltb].
    change (JS.ta_get (x :: a) 0) with x. change (JS.ta_get (y :: b) 0) with y.
    rewrite (compare_from_shift (length a) 0) by lia.
    destruct (Z.eqb_spec x y) as [->|Hne]; cbn [negb].
    + rewrite Z.ltb_irrefl. rewrite I1, I2, I3.
      repeat split; try tauto.
      * intros ->. reflexivity.
      * intros E. injection E as ->. reflexivity.
    + destruct (Z.ltb_spec x y) as [Hlt|Hge].
      * replace (y <? x) with false by (symmetry; apply Z.ltb_ge; lia).
        repeat split; intros; try reflexivity; try discriminate; try lia.
        congruence.
      * replace (y <? x) with true by (symmetry; apply Z.ltb_lt; lia).
        repeat split; intros; try reflexivity; try discriminate; try lia.
        congruence.
Qed.


(* ===================================================================== *)
(** ** The bytes of the text *)
(* ===================================================================== *)

(** Whatever the remainder, the stored byte is a character of the string
    or 0, the byte stored for [NaN]. *)
Lemma stored_char_ascii (s : list Z) r :
  Forall (fun c => 0 <= c < 128) s ->
  0 <= JS.to_uint8 (default 0 (JS.charCodeAt s r)) < 128.
Proof.
  intros Hs. unfold JS.charCodeAt, JS.to_uint8.
  assert (H0 : 0 <= 0 mod 256 < 128) by (rewrite Zmod_0_l; lia).
  destruct (r <? 0); [exact H0|].
  destruct (s !! Z.to_nat r) as [c|] eqn:E; [|exact H0].
  apply (Forall_lookup_1 _ _ _ _ Hs) in E. cbn [default from_option id].
  rewrite Z.mod_small; lia.
Qed.

Lemma ta_set_num_ascii (s dst : list Z) n r :
  Forall (fun c => 0 <= c < 128) s -> Forall (fun c => 0 <= c < 128) dst ->
  Forall (fun c => 0 <= c < 128) (JS.ta_set_num dst n (JS.charCodeAt s r)).
Proof.
  intros Hs Hd. unfold JS.ta_set_num, JS.ta_set.
  destruct (n <? 0); [exact Hd|].
  apply Forall_insert; [exact Hd | apply stored_char_ascii; exact Hs].
Qed.

Lemma alphabet_ascii : Forall (fun c => 0 <= c < 128) BASE62_CHARACTERS.
Proof.
  apply Forall_forall. intros c Hc.
  assert (Hall : forallb (fun c => (0 <=? c) && (c <? 128)) BASE62_CHARACTERS = true)
    by (vm_compute; reflexivity).
  rewrite forallb_forall in Hall. apply list_elem_of_In, Hall in Hc.
  apply andb_true_iff in Hc. destruct Hc as [H1 H2].
  apply Z.leb_le in H1. apply Z.ltb_lt in H2. lia.
Qed.

Lemma zero_string_ascii : Forall (fun c => 0 <= c < 128) ZERO_STRING.
Proof.
  apply Forall_forall. intros c Hc.
  assert (Hall : forallb (fun c => (0 <=? c) && (c <? 128)) ZERO_STRING = true)
    by (vm_compute; reflexivity).
  rewrite forallb_forall in Hall. apply list_elem_of_In, Hall in Hc.
  apply andb_true_iff in Hc. destruct Hc as [H1 H2].
  apply Z.leb_le in H1. apply Z.ltb_lt in H2. lia.
Qed.

Lemma encode_loop_ascii fuel :
  forall bp n dst res,
    Forall (fun c => 0 <= c < 128) dst ->
    Base62.encode_loop fuel bp n dst = Some res ->
    Forall (fun c => 0 <= c < 128) (snd res).
Proof.
  induction fuel as [|fuel IH]; intros bp n dst res Hd Hrun.
  - destruct bp; [|discriminate]. cbn in Hrun. injection Hrun as <-. exact Hd.
  - destruct bp as [|c bp].
    + cbn in Hrun. injection Hrun as <-. exact Hd.
    + cbn [Base62.encode_loop] in Hrun.
      destruct (Base62.long_division 4294967296 62 (c :: bp)) as [q r].
      apply IH in Hrun; [exact Hrun|].
      apply ta_set_num_ascii; [apply alphabet_ascii | exact Hd].
Qed.

(** Every byte the encoder hands to [TextDecoder] is below [0x80], so the
    text has one code unit for each byte. *)
Lemma fastEncodeBase62_ascii fuel src s :
  Base62.fastEncodeBase62 fuel src = Some s ->
  Forall (fun c => 0 <= c < 128) s.
Proof.
  unfold Base62.fastEncodeBase62, JS.utf8_decode_ascii. intros Hrun.
  destruct (Base62.encode_loop fuel _ _ _) as [[n dst']|] eqn:E; [|discriminate].
  injection Hrun as <-.
  apply encode_loop_ascii in E.
  - cbn [snd] in E. unfold Base62.pad_head.
    generalize (seq 0 (Z.to_nat n)). intros l.
    revert dst' E. induction l as [|i l IH]; intros dst' E; [exact E|].
    cbn [fold_left]. apply IH.
    apply ta_set_num_ascii; [apply zero_string_ascii | exact E].
  - apply Forall_forall. intros c Hc.
    apply list_elem_of_In, repeat_spec in Hc. lia.
Qed.

(* ===================================================================== *)
(** ** parse on strings of the alphabet *)
(* ===================================================================== *)

(** What [parse] returns: the identifier whose twenty bytes are the number
    the digits denote. *)
Lemma parse_value s x :
  KSUID.parse s = Some x ->
  KSUID.bytes x = digits 256 20 (val 62 (Base62.digits_of s)).
Proof.
  intros Hp.
  assert (Hok : is_Some (KSUID.parse s)) by (exists x; exact Hp).
  apply parse_returns_iff in Hok. destruct Hok as (Hlen & Hmin & Hmax & Ha & Hv).
  unfold KSUID.parse in Hp.
  rewrite Hlen, Nat.eqb_refl, Hmin, Hmax in Hp. cbn [negb orb] in Hp.
  rewrite decodeBase62_value in Hp by assumption.
  unfold KSUID.construct in Hp.
  destruct (negb (length _ =? BYTE_LENGTH)%nat); [discriminate|].
  assert (Hx : x = KSUID.mk (digits 256 20 (val 62 (Base62.digits_of s))))
    by congruence.
  rewrite Hx. reflexivity.
Qed.

(** Among the strings of the alphabet the two bounds are the numbers 0
    and [2^160 - 1]: no such string is below the lower bound, and one is
    above the upper bound exactly when its number is [2^160] or more. *)
Lemma alphabet_bounds s :
  length s = STRING_ENCODED_LENGTH -> forallb in_alphabet s = true ->
  JS.str_ltb s MIN_STRING_ENCODED = false
  /\ (JS.str_ltb MAX_STRING_ENCODED s = true
      <-> 2 ^ 160 <= val 62 (Base62.digits_of s)).
Proof.
  intros Hlen Hs.
  destruct (alphabet_string s Hs) as (_ & Hdig & Hchars).
  assert (Hmin : forallb in_alphabet MIN_STRING_ENCODED = true)
    by (vm_compute; reflexivity).
  assert (Hmax : forallb in_alphabet MAX_STRING_ENCODED = true)
    by (vm_compute; reflexivity).
  destruct (alphabet_string _ Hmin) as (_ & Dmin & Cmin).
  destruct (alphabet_string _ Hmax) as (_ & Dmax & Cmax).
  assert (Hl : length (Base62.digits_of s) = 27%nat)
    by (unfold Base62.digits_of; rewrite length_map; exact Hlen).
  assert (Hord : forall t,
             length t = 27%nat -> forallb in_alphabet t = true ->
             forall u, length u = 27%nat -> forallb in_alphabet u = true ->
             (JS.str_ltb t u = true
              <-> val 62 (Base62.digits_of t) < val 62 (Base62.digits_of u))).
  { intros t Ht Hta u Hu Hua.
    destruct (alphabet_string t Hta) as (_ & Dt & Ct).
    destruct (alphabet_string u Hua) as (_ & Du & Cu).
    rewrite <- Ct at 1. rewrite <- Cu at 1.
    rewrite (str_ltb_map char_of (fun d => 0 <= d < 62) char_of_increasing)
      by assumption.
    apply str_ltb_val; try assumption; [lia|].
    unfold Base62.digits_of. rewrite !length_map. congruence. }
  split.
  - destruct (JS.str_ltb s MIN_STRING_ENCODED) eqn:E; [|reflexivity].
    apply (Hord s Hlen Hs MIN_STRING_ENCODED eq_refl Hmin) in E.
    change (val 62 (Base62.digits_of MIN_STRING_ENCODED)) with 0 in E.
    pose proof (val_nonneg 62 _ ltac:(lia) (digits_nonneg s)). lia.
  - rewrite (Hord MAX_STRING_ENCODED eq_refl Hmax s Hlen Hs).
    assert (Hv : val 62 (Base62.digits_of MAX_STRING_ENCODED) = 2 ^ 160 - 1)
      by (vm_compute; reflexivity).
    rewrite Hv. lia.
Qed.

(** X2.  On strings of the alphabet [parse] fails exactly when the string
    does not have 27 characters or its number does not fit into twenty
    bytes. *)
Lemma parse_alphabet_fails_iff s :
  forallb in_alphabet s = true ->
  (KSUID.parse s = None
   <-> length s <> STRING_ENCODED_LENGTH
       \/ 2 ^ 160 <= val 62 (Base62.digits_of s)).
Proof.
  intros Hs. rewrite eq_None_not_Some, parse_returns_iff.
  destruct (Nat.eq_dec (length s) STRING_ENCODED_LENGTH) as [Hlen|Hlen];
    [|split; [intros _; left; exact Hlen | intros _ [H _]; contradiction]].
  destruct (alphabet_bounds s Hlen Hs) as [Hmin Hmax].
  destruct (alphabet_string s Hs) as (Ha & _ & _).
  split.
  - intros Hn. right.
    destruct (Z.lt_ge_cases (val 62 (Base62.digits_of s)) (2 ^ 160)) as [Hlt|Hge];
      [|exact Hge].
    exfalso. apply Hn. repeat apply conj; try assumption.
    destruct (JS.str_ltb MAX_STRING_ENCODED s); [|reflexivity].
    pose proof (proj1 Hmax eq_refl). lia.
  - intros [H|H] (_ & _ & _ & _ & Hv); [contradiction | lia].
Qed.

(* ===================================================================== *)
(** ** The exhaustion test of the package *)
(* ===================================================================== *)

(** The test "should throw when sequence is exhausted" calls [next()]
    65535 times and expects the call after them to throw.  On the
    sequence as the specification describes it that call is the 65536th
    one, and it returns the identifier of the counter 65535. *)
Lemma exhaustion_test_on_model (n : nat) (seed : KSUID.t) :
  Z.of_nat n = 65535 ->
  exists ids s',
    Sequence.emit n (Sequence.create seed) = Some (ids, s')
    /\ Sequence.next s'
       = Some (Sequence.withCounter seed 65535, Sequence.mk seed 65536).
Proof.
  intros Hn. eexists _, _. split.
  - unfold Sequence.create. apply emit_spec; lia.
  - rewrite Z.add_0_l, Hn. reflexivity.
Qed.

(* ===================================================================== *)
(** ** The 128-bit payload value *)
(* ===================================================================== *)

Lemma toBytes_bytes v :
  Uint128.toBytes v = be8 (Uint128.values1 v) ++ be8 (Uint128.values0 v).
Proof.
  transitivity
    (map (fun k => JS.to_uint8
                     (Z.land (Z.shiftr (Uint128.values1 v) (8 * k)) 255))
       [7; 6; 5; 4; 3; 2; 1; 0]
     ++ map (fun k => JS.to_uint8
                        (Z.land (Z.shiftr (Uint128.values0 v) (8 * k)) 255))
          [7; 6; 5; 4; 3; 2; 1; 0]).
  - reflexivity.
  - cbn [map]. rewrite !stored_bigint_byte by lia. reflexivity.
Qed.

Lemma be8_length v : length (be8 v) = 8%nat.
Proof. reflexivity. Qed.

Lemma be8_bytes v : Forall is_byte (be8 v).
Proof. unfold be8. bytes_Forall. Qed.

Lemma fromPayload_halves hs ls :
  length hs = 8%nat -> length ls = 8%nat ->
  Forall is_byte hs -> Forall is_byte ls ->
  Uint128.fromPayload (hs ++ ls) = Uint128.make (val 256 hs) (val 256 ls).
Proof.
  intros Hlh Hll Hh Hl. unfold Uint128.fromPayload.
  rewrite (take_app_length' _ _ 8) by (symmetry; exact Hlh).
  rewrite (drop_app_length' _ _ 8) by (symmetry; exact Hlh).
  rewrite firstn_all2 by (rewrite Hll; lia).
  rewrite !bytesToBigInt_val by assumption. reflexivity.
Qed.

Lemma toBytes_value v :
  low_in_range v -> Uint128.toBytes v = be16 (uint128_value v).
Proof.
  unfold low_in_range, uint128_value, be16. intros Hl. rewrite toBytes_bytes.
  rewrite (Z.add_comm (_ * _)), Z.div_add by lia.
  rewrite be8_mod, Z.div_small by lia. reflexivity.
Qed.

(** X3.  Writing the sixteen bytes of a payload value and reading them
    back: [fromPayload(v.toBytes())] has the two halves of [v] reduced
    modulo [2^64]; it is [v] itself when the halves are 64-bit numbers,
    and it is not for a value such as [MAX.increment()], whose high half
    is [2^64]. *)
Theorem fromPayload_toBytes v :
  Uint128.fromPayload (Uint128.toBytes v)
  = Uint128.make (Uint128.values1 v mod 2 ^ 64) (Uint128.values0 v mod 2 ^ 64).
Proof.
  rewrite toBytes_bytes.
  rewrite fromPayload_halves by (first [apply be8_length | apply be8_bytes]).
  rewrite !val_be8. reflexivity.
Qed.

(** X4.  Reading sixteen bytes as a payload value and writing the value
    out gives the sixteen bytes back: [fromPayload(p).toBytes()] is [p]. *)
Theorem toBytes_fromPayload payload :
  length payload = 16%nat -> Forall is_byte payload ->
  Uint128.toBytes (Uint128.fromPayload payload) = payload.
Proof.
  intros Hlen Hall.
  rewrite <- (take_drop 8 payload) at 1.
  assert (Hlh : length (take 8 payload) = 8%nat)
    by (rewrite length_take, Hlen; reflexivity).
  assert (Hll : length (drop 8 payload) = 8%nat)
    by (rewrite length_drop, Hlen; reflexivity).
  rewrite fromPayload_halves
    by (first [assumption | apply Forall_take, Hall | apply Forall_drop, Hall]).
  rewrite toBytes_bytes. unfold Uint128.make.
  cbn [Uint128.values0 Uint128.values1].
  rewrite !be8_val_list
    by (first [assumption | apply Forall_take, Hall | apply Forall_drop, Hall]).
  apply take_drop.
Qed.

Lemma getTimestamp_be4 v l :
  KSUID.getTimestamp (KSUID.mk (be4 v ++ l)) = JS.to_int32 v.
Proof.
  unfold be4. cbn [app].
  lazymatch goal with
  | |- KSUID.getTimestamp (KSUID.mk (?a :: ?b :: ?c :: ?d :: _)) = _ =>
      transitivity (JS.to_int32 (val 256 [a; b; c; d]));
      [exact (word_signed a b c d (byte_of_is_byte _ _) (byte_of_is_byte _ _)
                (byte_of_is_byte _ _) (byte_of_is_byte _ _))|]
  end.
  fold (be4 v). rewrite val_be4.
  unfold JS.to_int32. f_equal.
  rewrite Zplus_mod_idemp_l. reflexivity.
Qed.

(** X5.  An identifier is put together again from its parts: for every
    identifier [x], [uint128Payload(x.bytes).toKSUID(x.getTimestamp())] is
    the twenty bytes of [x]; this holds although [getTimestamp] is a
    signed number, since [toKSUID] stores the timestamp modulo [2^32]. *)
Theorem toKSUID_of_parts x :
  KSUID.wf x ->
  Uint128.toKSUID (Uint128.uint128Payload (KSUID.bytes x)) (KSUID.getTimestamp x)
  = KSUID.bytes x.
Proof.
  intros Hwf.
  rewrite toKSUID_bytes, be4_to_int32, (timestamp_bytes_kept x Hwf).
  rewrite (uint128Payload_halves x Hwf).
  unfold Uint128.make, payload_high, payload_low.
  cbn [Uint128.values0 Uint128.values1].
  destruct Hwf as [Hlen Hall].
  rewrite !be8_val_list.
  - symmetry. rewrite <- (take_drop 4 (KSUID.bytes x)) at 1. f_equal.
    rewrite <- (take_drop 8 (drop 4 (KSUID.bytes x))) at 1.
    rewrite drop_drop. reflexivity.
  - rewrite length_drop, Hlen. reflexivity.
  - apply Forall_drop, Hall.
  - rewrite length_take, length_drop, Hlen. reflexivity.
  - apply Forall_take, Forall_drop, Hall.
Qed.

(** X6.  What [toKSUID] builds: twenty bytes whose timestamp reads back as
    the signed 32-bit reading of the argument and whose payload value reads
    back as the two halves modulo [2^64]. *)
Theorem toKSUID_read_back v timestamp :
  length (Uint128.toKSUID v timestamp) = BYTE_LENGTH
  /\ Forall is_byte (Uint128.toKSUID v timestamp)
  /\ KSUID.getTimestamp (KSUID.mk (Uint128.toKSUID v timestamp))
     = JS.to_int32 timestamp
  /\ Uint128.uint128Payload (Uint128.toKSUID v timestamp)
     = Uint128.make (Uint128.values1 v mod 2 ^ 64)
                    (Uint128.values0 v mod 2 ^ 64).
Proof.
  rewrite toKSUID_bytes. repeat apply conj.
  - reflexivity.
  - unfold be4, be8. cbn [app]. bytes_Forall.
  - rewrite getTimestamp_be4. unfold JS.to_int32.
    pose proof (Z.mod_pos_bound (timestamp + 2 ^ 31) (2 ^ 32) ltac:(lia)).
    rewrite (Z.mod_small (_ - _ + _)) by lia. lia.
  - unfold Uint128.uint128Payload.
    change TIMESTAMP_BYTE_LENGTH with (length (be4 (JS.to_int32 timestamp))).
    rewrite drop_app_length.
    rewrite fromPayload_halves by (first [apply be8_length | apply be8_bytes]).
    rewrite !val_be8. reflexivity.
Qed.

(** X7.  [compare] orders the values whose low half is a 64-bit number as
    the numbers they denote: it answers [-1], [0] or [1] as the number of
    the receiver is below, equal to or above the number of the argument;
    and it answers 0 exactly when [equals] answers [true], which is when
    the two values have the same halves. *)
Theorem Uint128_compare_order a b :
  low_in_range a -> low_in_range b ->
  Uint128.compare a b
  = match uint128_value a ?= uint128_value b with
    | Lt => -1
    | Eq => 0
    | Gt => 1
    end
  /\ (Uint128.compare a b = 0 <-> Uint128.equals a b = true)
  /\ (Uint128.equals a b = true <-> a = b).
Proof.
  unfold low_in_range, uint128_value, Uint128.compare, Uint128.equals.
  destruct a as [la ha], b as [lb hb]. cbn [Uint128.values0 Uint128.values1].
  intros Ha Hb. repeat apply conj.
  - destruct (Z.compare_spec (ha * 2 ^ 64 + la) (hb * 2 ^ 64 + lb)) as [E|E|E];
      destruct (ha <? hb) eqn:E1; destruct (hb <? ha) eqn:E2;
      destruct (la <? lb) eqn:E3; destruct (lb <? la) eqn:E4;
      try reflexivity; exfalso;
      rewrite ?Z.ltb_lt, ?Z.ltb_ge in *; nia.
  - destruct (ha <? hb) eqn:E1; destruct (hb <? ha) eqn:E2;
      destruct (la <? lb) eqn:E3; destruct (lb <? la) eqn:E4;
      rewrite ?Z.ltb_lt, ?Z.ltb_ge in *;
      intros H; try discriminate H; try lia;
      apply andb_true_iff; split; apply Z.eqb_eq; lia.
  - destruct (ha <? hb) eqn:E1; destruct (hb <? ha) eqn:E2;
      destruct (la <? lb) eqn:E3; destruct (lb <? la) eqn:E4;
      rewrite ?Z.ltb_lt, ?Z.ltb_ge in *;
      intros H; try reflexivity;
      apply andb_true_iff in H; destruct H as [H0 H1];
      apply Z.eqb_eq in H0, H1; lia.
  - intros H. apply andb_true_iff in H. destruct H as [H0 H1].
    apply Z.eqb_eq in H0, H1. subst. reflexivity.
  - intros H. injection H as -> ->. rewrite !Z.eqb_refl. reflexivity.
Qed.

Ltac halves a la ha :=
  destruct a as [la ha];
  unfold low_in_range, uint128_value, Uint128.make in *;
  cbn [Uint128.values0 Uint128.values1] in *.

Lemma land_ones64 x : Z.land x 18446744073709551615 = x mod 2 ^ 64.
Proof.
  change 18446744073709551615 with (Z.ones 64). apply Z.land_ones. lia.
Qed.

(** X8.  [add] is exact on values whose low halves are 64-bit numbers: the
    low half of the sum is a 64-bit number again, the carry goes to the
    high half, and the two halves denote the sum of the two numbers; the
    high half is not reduced, so the sum does not wrap around at [2^128].
    The bytes that [toBytes] writes for it are those of the sum modulo
    [2^128]. *)
Theorem Uint128_add_exact a b :
  low_in_range a -> low_in_range b ->
  low_in_range (Uint128.add a b)
  /\ uint128_value (Uint128.add a b) = uint128_value a + uint128_value b
  /\ Uint128.toBytes (Uint128.add a b)
     = be16 (uint128_value a + uint128_value b).
Proof.
  intros Ha Hb.
  assert (H : low_in_range (Uint128.add a b)
              /\ uint128_value (Uint128.add a b)
                 = uint128_value a + uint128_value b).
  { halves a la ha. halves b lb hb. unfold Uint128.add, Uint128.make.
    cbn [Uint128.values0 Uint128.values1].
    change 18446744073709551615 with (2 ^ 64 - 1).
    destruct (2 ^ 64 - 1 <? la + lb) eqn:E;
      cbn [Uint128.values0 Uint128.values1].
    - apply Z.ltb_lt in E.
      change (2 ^ 64 - 1) with 18446744073709551615. rewrite land_ones64.
      replace ((la + lb) mod 2 ^ 64) with (la + lb - 2 ^ 64); [lia|].
      apply Z.mod_unique with (q := 1); lia.
    - apply Z.ltb_ge in E. lia. }
  destruct H as [Hl Hv]. split; [exact Hl|]. split; [exact Hv|].
  rewrite toBytes_value by exact Hl. rewrite Hv. reflexivity.
Qed.

(** X9.  [subtract] is exact on values whose low halves are 64-bit
    numbers: the low half of the difference is a 64-bit number again, the
    borrow is taken from the high half, and the two halves denote the
    difference of the two numbers; the high half is not reduced, so it is
    negative when the argument is the larger number.  The bytes that
    [toBytes] writes for it are those of the difference modulo [2^128]. *)
Theorem Uint128_subtract_exact a b :
  low_in_range a -> low_in_range b ->
  low_in_range (Uint128.subtract a b)
  /\ uint128_value (Uint128.subtract a b) = uint128_value a - uint128_value b
  /\ Uint128.toBytes (Uint128.subtract a b)
     = be16 (uint128_value a - uint128_value b).
Proof.
  intros Ha Hb.
  assert (H : low_in_range (Uint128.subtract a b)
              /\ uint128_value (Uint128.subtract a b)
                 = uint128_value a - uint128_value b).
  { halves a la ha. halves b lb hb. unfold Uint128.subtract, Uint128.make.
    cbn [Uint128.values0 Uint128.values1].
    change 18446744073709551616 with (2 ^ 64).
    destruct (lb <=? la) eqn:E; cbn [Uint128.values0 Uint128.values1].
    - apply Z.leb_le in E. lia.
    - apply Z.leb_gt in E. lia. }
  destruct H as [Hl Hv]. split; [exact Hl|]. split; [exact Hv|].
  rewrite toBytes_value by exact Hl. rewrite Hv. reflexivity.
Qed.

(** X10.  [add] and [subtract] undo each other on values whose low halves
    are 64-bit numbers: [a.add(b).subtract(b)] and [a.subtract(b).add(b)]
    have the halves of [a], also when the sum or the difference leaves
    the range of 128 bits. *)
Theorem Uint128_add_subtract_inverse a b :
  low_in_range a -> low_in_range b ->
  Uint128.subtract (Uint128.add a b) b = a
  /\ Uint128.add (Uint128.subtract a b) b = a.
Proof.
  intros Ha Hb. halves a la ha. halves b lb hb.
  unfold Uint128.add, Uint128.subtract, Uint128.make.
  cbn [Uint128.values0 Uint128.values1].
  change 18446744073709551615 with (2 ^ 64 - 1).
  change 18446744073709551616 with (2 ^ 64).
  split.
  - destruct (2 ^ 64 - 1 <? la + lb) eqn:E;
      cbn [Uint128.values0 Uint128.values1].
    + apply Z.ltb_lt in E.
      change (2 ^ 64 - 1) with 18446744073709551615. rewrite land_ones64.
      replace ((la + lb) mod 2 ^ 64) with (la + lb - 2 ^ 64)
        by (apply Z.mod_unique with (q := 1); lia).
      destruct (lb <=? la + lb - 2 ^ 64) eqn:E'.
      * apply Z.leb_le in E'. lia.
      * f_equal; lia.
    + apply Z.ltb_ge in E.
      destruct (lb <=? la + lb) eqn:E'.
      * f_equal; lia.
      * apply Z.leb_gt in E'. lia.
  - destruct (lb <=? la) eqn:E; cbn [Uint128.values0 Uint128.values1].
    + apply Z.leb_le in E.
      destruct (2 ^ 64 - 1 <? la - lb + lb) eqn:E'.
      * apply Z.ltb_lt in E'. lia.
      * f_equal; lia.
    + apply Z.leb_gt in E.
      destruct (2 ^ 64 - 1 <? la + 2 ^ 64 - lb + lb) eqn:E'.
      * change (2 ^ 64 - 1) with 18446744073709551615. rewrite land_ones64.
        replace ((la + 2 ^ 64 - lb + lb) mod 2 ^ 64) with la
          by (apply Z.mod_unique with (q := 1); lia).
        f_equal; lia.
      * apply Z.ltb_ge in E'. lia.
Qed.

(* ===================================================================== *)
(** ** Hexadecimal text *)
(* ===================================================================== *)

Lemma hex_loop_spec fuel :
  forall n acc,
    (1 <= fuel)%nat -> 0 <= n < 16 ^ Z.of_nat fuel ->
    exists m,
      (1 <= m)%nat /\ n < 16 ^ Z.of_nat m
      /\ (m = 1%nat \/ 16 ^ (Z.of_nat m - 1) <= n)
      /\ JS.hex_loop fuel n acc = map JS.hex_digit (digits 16 m n) ++ acc.
Proof.
  induction fuel as [|fuel IH]; intros n acc Hf Hn; [lia|].
  cbn [JS.hex_loop].
  destruct (n / 16 =? 0) eqn:E.
  - apply Z.eqb_eq in E.
    assert (n < 16) by (Z.div_mod_to_equations; lia).
    exists 1%nat. repeat apply conj; [lia | cbn; lia | left; reflexivity |].
    cbn [digits map app]. reflexivity.
  - apply Z.eqb_neq in E.
    assert (H16 : 16 <= n) by (Z.div_mod_to_equations; lia).
    rewrite Nat2Z.inj_succ, Z.pow_succ_r in Hn by lia.
    destruct fuel as [|fuel]; [cbn in Hn; lia|].
    destruct (IH (n / 16) (JS.hex_digit (n mod 16) :: acc)) as (m & Hm & Hlt & Hge & Heq).
    + lia.
    + split; [Z.div_mod_to_equations; lia|].
      apply Z.div_lt_upper_bound; lia.
    + exists (S m). repeat apply conj.
      * lia.
      * rewrite Nat2Z.inj_succ, Z.pow_succ_r by lia.
        Z.div_mod_to_equations; lia.
      * right. replace (Z.of_nat (S m) - 1) with (Z.of_nat m) by lia.
        destruct Hge as [->|Hge]; [cbn; lia|].
        replace (Z.of_nat m) with (Z.succ (Z.of_nat m - 1)) by lia.
        rewrite Z.pow_succ_r by lia.
        Z.div_mod_to_equations; lia.
      * rewrite Heq. cbn [digits]. rewrite map_app, <- app_assoc. reflexivity.
Qed.

Lemma pow16_log2 n : 0 <= n -> n < 16 ^ Z.of_nat (S (Z.to_nat (Z.log2 n))).
Proof.
  intros Hn. rewrite Nat2Z.inj_succ, Z2Nat.id by apply Z.log2_nonneg.
  destruct (Z.eq_dec n 0) as [->|Hne]; [cbn; lia|].
  pose proof (Z.log2_spec n ltac:(lia)) as [_ Hlt].
  eapply Z.lt_le_trans; [exact Hlt|].
  apply Z.pow_le_mono_l. pose proof (Z.log2_nonneg n). lia.
Qed.

(** The digits of [toString(16)], padded to [k] characters, are the [k]
    hexadecimal digits of a number that has no more than [k] of them. *)
Lemma padStart_toString16 k n :
  (1 <= k)%nat -> 0 <= n < 16 ^ Z.of_nat k ->
  JS.padStart (JS.toString16 n) k 48 = map JS.hex_digit (digits 16 k n).
Proof.
  intros Hk [Hn Hlt]. unfold JS.toString16.
  destruct (n <? 0) eqn:E; [apply Z.ltb_lt in E; lia|].
  destruct (hex_loop_spec (S (Z.to_nat (Z.log2 n))) n [])
    as (m & Hm & Hlm & Hge & Heq); [lia | split; [lia | apply pow16_log2; lia] |].
  rewrite Heq, app_nil_r. unfold JS.padStart.
  rewrite length_map, digits_length.
  assert (Hmk : (m <= k)%nat).
  { destruct Hge as [->|Hge]; [lia|].
    destruct (le_lt_dec m k) as [|Hgt]; [assumption|exfalso].
    assert (16 ^ Z.of_nat k <= 16 ^ (Z.of_nat m - 1))
      by (apply Z.pow_le_mono_r; lia).
    lia. }
  replace k with ((k - m) + m)%nat at 2 by lia.
  rewrite digits_app by lia.
  rewrite Z.div_small by lia.
  rewrite digits_zero, map_app. f_equal.
  generalize (k - m)%nat. intros j. induction j as [|j IHj]; [reflexivity|].
  cbn [repeat map]. rewrite <- IHj. reflexivity.
Qed.

(** X11.  [Uint128.toString()] of a value whose halves are 64-bit numbers
    is ["0x"] followed by the 32 lower-case hexadecimal digits of the
    number, most significant digit first: 34 characters. *)
Theorem Uint128_toString_hex v :
  0 <= Uint128.values1 v < 2 ^ 64 -> low_in_range v ->
  Uint128.toString v
  = JS.str "0x" ++ map JS.hex_digit (digits 16 32 (uint128_value v))
  /\ length (Uint128.toString v) = 34%nat.
Proof.
  intros Hh Hl.
  assert (E : Uint128.toString v
              = JS.str "0x" ++ map JS.hex_digit (digits 16 32 (uint128_value v))).
  { unfold Uint128.toString, uint128_value, low_in_range in *.
    rewrite !padStart_toString16
      by (first [lia | change (16 ^ Z.of_nat 16) with (2 ^ 64); assumption]).
    f_equal. change 32%nat with (16 + 16)%nat.
    rewrite digits_app by lia. rewrite map_app.
    change (16 ^ Z.of_nat 16) with (2 ^ 64).
    rewrite (Z.add_comm (_ * _)), Z.div_add, Z.div_small by lia.
    rewrite Z.add_0_l.
    change (2 ^ 64) with (16 ^ Z.of_nat 16).
    rewrite digits_mod by lia. reflexivity. }
  split; [exact E|].
  rewrite E, length_app, length_map, digits_length. reflexivity.
Qed.

Lemma toUpperCase_app a b :
  JS.toUpperCase (a ++ b) = JS.toUpperCase a ++ JS.toUpperCase b.
Proof. apply map_app. Qed.

Lemma upper_hex_digit d :
  0 <= d < 16 ->
  JS.toUpperCase [JS.hex_digit d] = [default 0 (HEX_UPPER !! Z.to_nat d)].
Proof.
  intros Hd.
  assert (Hall : forallb
            (fun d => JS.str_eqb (JS.toUpperCase [JS.hex_digit d])
                        [default 0 (HEX_UPPER !! Z.to_nat d)])
            [0; 1; 2; 3; 4; 5; 6; 7; 8; 9; 10; 11; 12; 13; 14; 15] = true)
    by (vm_compute; reflexivity).
  rewrite forallb_forall in Hall.
  apply str_eqb_eq, Hall.
  assert (d = 0 \/ d = 1 \/ d = 2 \/ d = 3 \/ d = 4 \/ d = 5 \/ d = 6 \/ d = 7
          \/ d = 8 \/ d = 9 \/ d = 10 \/ d = 11 \/ d = 12 \/ d = 13 \/ d = 14
          \/ d = 15) as Hcases by lia.
  cbn [In]. intuition auto.
Qed.

Lemma byte_hex b :
  is_byte b ->
  JS.toUpperCase (JS.padStart (JS.toString16 b) 2 48) = hex_pair b.
Proof.
  unfold is_byte. intros Hb.
  rewrite padStart_toString16 by (cbn; lia).
  cbn [digits app map].
  change [JS.hex_digit (b / 16 mod 16); JS.hex_digit (b mod 16)]
    with ([JS.hex_digit (b / 16 mod 16)] ++ [JS.hex_digit (b mod 16)]).
  rewrite toUpperCase_app.
  rewrite !upper_hex_digit by (Z.div_mod_to_equations; lia).
  rewrite (Z.mod_small (b / 16)) by (Z.div_mod_to_equations; lia).
  reflexivity.
Qed.

Lemma bytesToHex_pairs bytes :
  Forall is_byte bytes -> Cli.bytesToHex bytes = concat (map hex_pair bytes).
Proof.
  unfold Cli.bytesToHex. induction bytes as [|b l IH]; intros Hl; [reflexivity|].
  apply Forall_cons in Hl. destruct Hl as [Hb Hl].
  cbn [map concat]. rewrite toUpperCase_app, byte_hex by exact Hb.
  f_equal. apply IH. exact Hl.
Qed.

Lemma hex_pair_inj a b :
  is_byte a -> is_byte b -> hex_pair a = hex_pair b -> a = b.
Proof.
  unfold is_byte. intros Ha Hb E.
  assert (Hall : forallb
            (fun p => negb (JS.str_eqb (hex_pair (fst p)) (hex_pair (snd p)))
                      || (fst p =? snd p))
            (list_prod (map Z.of_nat (seq 0 256)) (map Z.of_nat (seq 0 256)))
          = true) by (vm_compute; reflexivity).
  rewrite forallb_forall in Hall.
  specialize (Hall (a, b)). cbn [fst snd] in Hall.
  rewrite (proj2 (str_eqb_eq _ _) E) in Hall. cbn [negb orb] in Hall.
  apply Z.eqb_eq, Hall. apply in_prod; apply in_map_iff.
  - exists (Z.to_nat a). split; [lia|]. apply in_seq. lia.
  - exists (Z.to_nat b). split; [lia|]. apply in_seq. lia.
Qed.

(** X12.  [bytesToHex] writes every byte as two upper-case hexadecimal
    digits, the high one first, in the order of the bytes: the text has
    twice as many characters as the array has bytes, and two arrays with
    the same text are the same array. *)
Theorem bytesToHex_spec bytes :
  Forall is_byte bytes ->
  Cli.bytesToHex bytes = concat (map hex_pair bytes)
  /\ length (Cli.bytesToHex bytes) = (2 * length bytes)%nat
  /\ (forall other,
         Forall is_byte other ->
         Cli.bytesToHex other = Cli.bytesToHex bytes -> other = bytes).
Proof.
  intros Hl. repeat apply conj.
  - apply bytesToHex_pairs, Hl.
  - rewrite bytesToHex_pairs by exact Hl. clear Hl.
    induction bytes as [|b l IH]; [reflexivity|].
    cbn [map concat length app hex_pair]. rewrite IH. lia.
  - intros other Ho. rewrite !bytesToHex_pairs by assumption.
    revert other Ho. induction Hl as [|b l Hb Hl IH]; intros other Ho E.
    + destruct other as [|c other]; [reflexivity|discriminate E].
    + destruct other as [|c other]; [discriminate E|].
      apply Forall_cons in Ho. destruct Ho as [Hc Ho].
      cbn [map concat] in E.
      assert (E1 : hex_pair c = hex_pair b /\
                   concat (map hex_pair other) = concat (map hex_pair l)).
      { unfold hex_pair in *. cbn [app] in E.
        injection E as E1 E2 E3. split; [congruence | exact E3]. }
      destruct E1 as [E1 E2].
      f_equal; [apply hex_pair_inj; assumption | apply IH; assumption].
Qed.

(* ===================================================================== *)
(** ** The order of identifiers *)
(* ===================================================================== *)

Lemma compare_from_opp k :
  forall i a b, KSUID.compare_from k i b a = - KSUID.compare_from k i a b.
Proof.
  induction k as [|k IH]; intros i a b; cbn [KSUID.compare_from]; [reflexivity|].
  rewrite (Z.eqb_sym (JS.ta_get b i)).
  destruct (JS.ta_get a i =? JS.ta_get b i); cbn [negb]; [apply IH | lia].
Qed.

Lemma compare_opp x y : KSUID.compare y x = - KSUID.compare x y.
Proof. apply compare_from_opp. Qed.

Lemma compare_value x y :
  KSUID.wf x -> KSUID.wf y ->
  (KSUID.compare x y < 0 <-> ksuid_value x < ksuid_value y)
  /\ (KSUID.compare x y = 0 <-> x = y)
  /\ (KSUID.compare x y > 0 <-> ksuid_value y < ksuid_value x).
Proof.
  intros [Hlx Hbx] [Hly Hby].
  assert (Hlen : length (KSUID.bytes x) = length (KSUID.bytes y)) by congruence.
  destruct (compare_from_order (KSUID.bytes x) (KSUID.bytes y) Hlen)
    as (Hlt & Heq & Hgt).
  rewrite Hlx in Hlt, Heq, Hgt.
  fold (KSUID.compare x y) in Hlt, Heq, Hgt.
  unfold ksuid_value. repeat apply conj.
  - intros H. apply (str_ltb_val 256); try assumption; [lia|]. apply Hlt, H.
  - intros H. apply Hlt. apply (str_ltb_val 256); try assumption. lia.
  - intros H. apply Heq in H. destruct x, y. cbn in H. congruence.
  - intros ->. apply Heq. reflexivity.
  - intros H. apply (str_ltb_val 256); try assumption; [lia|congruence|].
    apply Hgt, H.
  - intros H. apply Hgt. apply (str_ltb_val 256); try assumption; [lia|congruence].
Qed.

(** X13.  [compare] orders identifiers as the unsigned 160-bit numbers
    their twenty bytes denote: the result is negative, zero or positive as
    the number of the receiver is below, equal to or above the number of
    the argument, it is zero only for identical bytes, and exchanging the
    two identifiers changes the sign of the result. *)
Theorem compare_order x y :
  KSUID.wf x -> KSUID.wf y ->
  (KSUID.compare x y < 0 <-> ksuid_value x < ksuid_value y)
  /\ (KSUID.compare x y = 0 <-> KSUID.bytes x = KSUID.bytes y)
  /\ (KSUID.compare x y > 0 <-> ksuid_value y < ksuid_value x)
  /\ KSUID.compare y x = - KSUID.compare x y.
Proof.
  intros Hx Hy. destruct (compare_value x y Hx Hy) as (Hlt & Heq & Hgt).
  split; [exact Hlt|]. split; [|split; [exact Hgt | apply compare_opp]].
  rewrite Heq. split; [intros ->; reflexivity|].
  destruct x, y. cbn. intros ->. reflexivity.
Qed.

Lemma compare_le_value x y :
  KSUID.wf x -> KSUID.wf y ->
  (KSUID.compare x y <= 0 <-> ksuid_value x <= ksuid_value y).
Proof.
  intros Hx Hy. destruct (compare_value x y Hx Hy) as (Hlt & Heq & Hgt).
  split; intros H.
  - destruct (Z.lt_ge_cases 0 (KSUID.compare x y)) as [Hpos|Hle]; [lia|].
    destruct (Z.eq_dec (KSUID.compare x y) 0) as [E|Hne].
    + apply Heq in E. subst y. lia.
    + apply Z.lt_le_incl, Hlt. lia.
  - destruct (Z.lt_ge_cases 0 (KSUID.compare x y)) as [Hpos|Hle]; [|lia].
    assert (KSUID.compare x y > 0) as Hg by lia. apply Hgt in Hg. lia.
Qed.

Lemma isSorted_cons a b rest :
  KSUID.isSorted (a :: b :: rest)
  = (KSUID.compare a b <=? 0) && KSUID.isSorted (b :: rest).
Proof.
  cbn [KSUID.isSorted].
  destruct (0 <? KSUID.compare a b) eqn:E.
  - apply Z.ltb_lt in E. symmetry. apply andb_false_iff. left.
    apply Z.leb_gt. exact E.
  - apply Z.ltb_ge in E. rewrite (proj2 (Z.leb_le _ _) E). reflexivity.
Qed.

(** X14.  [isSorted] looks at neighbours only, and yet it answers [true]
    exactly for the arrays in which every identifier denotes a number that
    is at most the number of every identifier after it. *)
Theorem isSorted_spec ids :
  Forall KSUID.wf ids ->
  (KSUID.isSorted ids = true
   <-> forall (i j : nat) a b,
         (i < j)%nat -> ids !! i = Some a -> ids !! j = Some b ->
         ksuid_value a <= ksuid_value b).
Proof.
  induction ids as [|a rest IH]; intros Hwf.
  - split; [|reflexivity]. intros _ i j a b _ Hi. discriminate Hi.
  - apply Forall_cons in Hwf. destruct Hwf as [Ha Hrest].
    specialize (IH Hrest).
    destruct rest as [|b rest].
    + split; [|reflexivity]. intros _ i j x y Hij Hi Hj.
      destruct j as [|j]; [lia|]. discriminate Hj.
    + pose proof Hrest as Hrest'.
      apply Forall_cons in Hrest'. destruct Hrest' as [Hb _].
      rewrite isSorted_cons, andb_true_iff, Z.leb_le.
      rewrite (compare_le_value a b Ha Hb), IH. split.
      * intros [Hab Hall] i j x y Hij Hi Hj.
        destruct j as [|j]; [lia|]. cbn in Hj.
        destruct i as [|i].
        -- injection Hi as <-.
           destruct j as [|j]; [injection Hj as <-; exact Hab|].
           etransitivity; [exact Hab|].
           apply (Hall 0%nat (S j) b y); [lia | reflexivity | exact Hj].
        -- cbn in Hi. apply (Hall i j x y); [lia | exact Hi | exact Hj].
      * intros Hall. split.
        -- apply (Hall 0%nat 1%nat a b); [lia | reflexivity | reflexivity].
        -- intros i j x y Hij Hi Hj.
           apply (Hall (S i) (S j) x y); [lia | exact Hi | exact Hj].
Qed.

Lemma sort_insert_perm a ids : KSUID.sort_insert a ids ≡ₚ a :: ids.
Proof.
  induction ids as [|b rest IH]; cbn [KSUID.sort_insert]; [reflexivity|].
  destruct (KSUID.compare a b <=? 0); [reflexivity|].
  rewrite IH. apply Permutation_swap.
Qed.

Lemma sort_insert_head a ids :
  exists rest,
    KSUID.sort_insert a ids = a :: rest
    \/ (exists b ids', ids = b :: ids' /\ KSUID.sort_insert a ids = b :: rest
                       /\ KSUID.compare b a < 0).
Proof.
  destruct ids as [|b ids']; cbn [KSUID.sort_insert].
  - exists []. left. reflexivity.
  - destruct (KSUID.compare a b <=? 0) eqn:E.
    + eexists. left. reflexivity.
    + apply Z.leb_gt in E. eexists. right. exists b, ids'.
      split; [reflexivity|]. split; [reflexivity|].
      rewrite compare_opp. lia.
Qed.

Lemma sort_insert_sorted a ids :
  KSUID.isSorted ids = true -> KSUID.isSorted (KSUID.sort_insert a ids) = true.
Proof.
  induction ids as [|b rest IH]; intros Hs; [reflexivity|].
  cbn [KSUID.sort_insert].
  destruct (KSUID.compare a b <=? 0) eqn:E.
  - rewrite isSorted_cons, E, Hs. reflexivity.
  - apply Z.leb_gt in E.
    assert (Hrest : KSUID.isSorted rest = true).
    { destruct rest as [|c rest']; [reflexivity|].
      rewrite isSorted_cons in Hs. apply andb_true_iff in Hs. apply Hs. }
    specialize (IH Hrest).
    destruct (sort_insert_head a rest) as (tl & [Hh | (c & rest' & -> & Hh & _)]).
    + rewrite Hh in *. rewrite isSorted_cons, IH, andb_true_r.
      apply Z.leb_le. rewrite compare_opp. lia.
    + rewrite Hh in *. rewrite isSorted_cons, IH, andb_true_r.
      rewrite isSorted_cons in Hs. apply andb_true_iff in Hs. apply Hs.
Qed.

(** X15.  After [KSUID.sort(ids)] the array holds the same identifiers as
    before, each as often as before, [KSUID.isSorted(ids)] answers [true],
    and an array for which [isSorted] answers [true] is left as it is. *)
Theorem sort_spec ids :
  KSUID.isSorted (KSUID.sort ids) = true
  /\ KSUID.sort ids ≡ₚ ids
  /\ (KSUID.isSorted ids = true -> KSUID.sort ids = ids).
Proof.
  repeat apply conj.
  - induction ids as [|a rest IH]; [reflexivity|].
    cbn [KSUID.sort foldr]. apply sort_insert_sorted, IH.
  - induction ids as [|a rest IH]; [reflexivity|].
    cbn [KSUID.sort foldr]. rewrite sort_insert_perm.
    apply Permutation_skip, IH.
  - induction ids as [|a rest IH]; intros Hs; [reflexivity|].
    cbn [KSUID.sort foldr]. fold (KSUID.sort rest).
    destruct rest as [|b rest']; [reflexivity|].
    rewrite isSorted_cons in Hs. apply andb_true_iff in Hs.
    destruct Hs as [Hab Hs]. rewrite (IH Hs).
    cbn [KSUID.sort_insert]. rewrite Hab. reflexivity.
Qed.

(* ===================================================================== *)
(** ** Identifiers from a time and a payload *)
(* ===================================================================== *)

Lemma stamped_bytes ts payload :
  length payload = PAYLOAD_BYTE_LENGTH ->
  JS.ta_set_array
    (JS.ta_set
       (JS.ta_set
          (JS.ta_set
             (JS.ta_set (JS.ta_new BYTE_LENGTH) 0 (JS.band (JS.sar ts 24) 0xFF))
             1 (JS.band (JS.sar ts 16) 0xFF))
          2 (JS.band (JS.sar ts 8) 0xFF))
       3 (JS.band ts 0xFF))
    payload TIMESTAMP_BYTE_LENGTH
  = Some (be4 ts ++ payload).
Proof.
  intros Hlen. unfold JS.ta_set_array. rewrite Hlen.
  transitivity
    (Some ([JS.to_uint8 (JS.band (Z.shiftr (JS.to_int32 ts) (8 * 3)) 255);
            JS.to_uint8 (JS.band (Z.shiftr (JS.to_int32 ts) (8 * 2)) 255);
            JS.to_uint8 (JS.band (Z.shiftr (JS.to_int32 ts) (8 * 1)) 255);
            JS.to_uint8 (JS.band ts 255)] ++ payload ++ [])).
  - reflexivity.
  - rewrite !stored_number_byte by lia. rewrite stored_number_low.
    rewrite app_nil_r. fold (be4 (JS.to_int32 ts)). rewrite be4_to_int32.
    reflexivity.
Qed.

Lemma fromParts_bytes time payload :
  KSUID.fromParts time payload
  = if (length payload =? PAYLOAD_BYTE_LENGTH)%nat
    then Some (KSUID.mk (be4 (stamp_of time) ++ payload))
    else None.
Proof.
  unfold KSUID.fromParts.
  destruct (length payload =? PAYLOAD_BYTE_LENGTH)%nat eqn:E; [|reflexivity].
  apply Nat.eqb_eq in E. cbn [negb]. cbv zeta.
  fold (stamp_of time). rewrite stamped_bytes by exact E.
  unfold KSUID.construct. rewrite length_app, E. reflexivity.
Qed.

Lemma randomWithTime_fromParts time payload :
  length payload = PAYLOAD_BYTE_LENGTH ->
  KSUID.randomWithTime (Some payload) time = KSUID.fromParts time payload.
Proof.
  intros E. unfold KSUID.randomWithTime, KSUID.fromParts.
  rewrite E. reflexivity.
Qed.

(** X16.  [fromParts] throws for a payload that does not have sixteen
    bytes and for nothing else; the identifier it returns has the
    timestamp, modulo [2^32], in its first four bytes, most significant
    byte first, and the payload behind them, so that [getPayload] gives
    the payload back and [getTimestamp] gives the signed 32-bit reading of
    the timestamp. *)
Theorem fromParts_spec time payload :
  KSUID.fromParts time payload
  = (if (length payload =? PAYLOAD_BYTE_LENGTH)%nat
     then Some (KSUID.mk (be4 (stamp_of time) ++ payload))
     else None)
  /\ (forall x,
         KSUID.fromParts time payload = Some x ->
         KSUID.getPayload x = payload
         /\ KSUID.getTimestamp x = JS.to_int32 (stamp_of time)).
Proof.
  split; [apply fromParts_bytes|].
  intros x. rewrite fromParts_bytes.
  destruct (length payload =? PAYLOAD_BYTE_LENGTH)%nat; [|discriminate].
  intros [= <-]. split.
  - reflexivity.
  - apply getTimestamp_be4.
Qed.

(** X17.  The time of an identifier made from a date: for a date whose
    whole seconds are less than [2^31] seconds away from the epoch of the
    identifiers, on either side, [getTime] of the identifier that
    [fromParts] returns is that date cut down to whole seconds. *)
Theorem getTime_fromParts ms payload :
  length payload = PAYLOAD_BYTE_LENGTH ->
  - 2 ^ 31 <= ms / 1000 - EPOCH_STAMP < 2 ^ 31 ->
  exists x,
    KSUID.fromParts (Some ms) payload = Some x
    /\ KSUID.getTimestamp x = ms / 1000 - EPOCH_STAMP
    /\ KSUID.getTime x = Some (ms / 1000 * 1000).
Proof.
  intros Hlen Hr. rewrite fromParts_bytes, Hlen, Nat.eqb_refl.
  eexists. split; [reflexivity|].
  assert (Hts : KSUID.getTimestamp (KSUID.mk (be4 (stamp_of (Some ms)) ++ payload))
                = ms / 1000 - EPOCH_STAMP).
  { rewrite getTimestamp_be4. apply to_int32_small. exact Hr. }
  split; [exact Hts|].
  unfold KSUID.getTime. rewrite Hts.
  replace (ms / 1000 - EPOCH_STAMP + EPOCH_STAMP) with (ms / 1000) by lia.
  unfold JS.new_Date.
  unfold EPOCH_STAMP in Hr.
  destruct (Z.abs (ms / 1000 * 1000) <=? 8640000000000000) eqn:E; [reflexivity|].
  apply Z.leb_gt in E. lia.
Qed.

(** X18.  An identifier is made again from its time and its payload:
    [fromParts(x.getTime(), x.getPayload())] returns an identifier with
    the bytes of [x], for every identifier [x]. *)
Theorem fromParts_getTime_getPayload x :
  KSUID.wf x ->
  KSUID.fromParts (KSUID.getTime x) (KSUID.getPayload x) = Some x.
Proof.
  intros Hwf. pose proof Hwf as [Hlen Hall].
  rewrite fromParts_bytes.
  unfold KSUID.getPayload. rewrite length_drop, Hlen.
  change (BYTE_LENGTH - TIMESTAMP_BYTE_LENGTH =? PAYLOAD_BYTE_LENGTH)%nat
    with true.
  cbv iota.
  assert (Hs : stamp_of (KSUID.getTime x) = KSUID.getTimestamp x).
  { unfold KSUID.getTime, JS.new_Date.
    rewrite (getTimestamp_signed x Hwf).
    pose proof (to_int32_range (val 256 (take 4 (KSUID.bytes x)))) as Hr.
    set (t := JS.to_int32 _) in *. unfold EPOCH_STAMP.
    destruct (Z.abs ((t + 1400000000) * 1000) <=? 8640000000000000) eqn:E;
      [|apply Z.leb_gt in E; lia].
    unfold stamp_of, JS.getTime, JS.int_of_number, JS.floor_div, EPOCH_STAMP.
    cbn [fmap option_fmap option_map default].
    rewrite Z.div_mul by lia. unfold id. lia. }
  rewrite Hs, (timestamp_bytes_kept x Hwf).
  change TIMESTAMP_BYTE_LENGTH with 4%nat. rewrite take_drop.
  destruct x. reflexivity.
Qed.

Lemma str_ltb_app l1 :
  forall l2 r1 r2,
    length l1 = length l2 -> JS.str_ltb l1 l2 = true ->
    JS.str_ltb (l1 ++ r1) (l2 ++ r2) = true.
Proof.
  induction l1 as [|a l1 IH]; intros [|b l2] r1 r2 Hlen H;
    try discriminate Hlen; try discriminate H.
  cbn [JS.str_ltb app] in *.
  destruct (a <? b); [reflexivity|].
  destruct (b <? a); [discriminate H|].
  apply IH; [cbn [length] in Hlen; lia | exact H].
Qed.

(** X19.  Identifiers sort by time, whatever the generator returned: when
    the generator returns sixteen bytes each time, [randomWithTime] returns
    for two dates, and when the timestamp of the first date is below the
    timestamp of the second one, both within 32 bits, [compare] puts the
    first identifier before the second one. *)
Theorem randomWithTime_sorts_by_time ms1 ms2 p1 p2 :
  length p1 = PAYLOAD_BYTE_LENGTH -> length p2 = PAYLOAD_BYTE_LENGTH ->
  0 <= ms1 / 1000 - EPOCH_STAMP ->
  ms1 / 1000 - EPOCH_STAMP < ms2 / 1000 - EPOCH_STAMP ->
  ms2 / 1000 - EPOCH_STAMP < 2 ^ 32 ->
  exists x y,
    KSUID.randomWithTime (Some p1) (Some ms1) = Some x
    /\ KSUID.randomWithTime (Some p2) (Some ms2) = Some y
    /\ KSUID.compare x y < 0
    /\ KSUID.compare y x > 0.
Proof.
  intros Hl1 Hl2 H0 Hlt H32.
  rewrite !randomWithTime_fromParts, !fromParts_bytes by assumption.
  rewrite Hl1, Hl2, Nat.eqb_refl.
  eexists _, _. split; [reflexivity|]. split; [reflexivity|].
  set (x := KSUID.mk (be4 (stamp_of (Some ms1)) ++ p1)).
  set (y := KSUID.mk (be4 (stamp_of (Some ms2)) ++ p2)).
  assert (Hc : KSUID.compare x y < 0).
  { assert (Hlen : length (KSUID.bytes x) = length (KSUID.bytes y))
      by (cbn [KSUID.bytes x y]; rewrite !length_app, Hl1, Hl2; reflexivity).
    destruct (compare_from_order (KSUID.bytes x) (KSUID.bytes y) Hlen)
      as (Hc & _ & _).
    replace (length (KSUID.bytes x)) with BYTE_LENGTH in Hc
      by (cbn [KSUID.bytes x]; rewrite length_app, Hl1; reflexivity).
    apply Hc. cbn [KSUID.bytes x y].
    apply str_ltb_app; [reflexivity|].
    apply (str_ltb_val 256); [lia | reflexivity | | |].
    - unfold be4. bytes_Forall.
    - unfold be4. bytes_Forall.
    - rewrite !val_be4.
      unfold stamp_of, JS.getTime, JS.int_of_number, JS.floor_div.
      cbn [fmap option_fmap option_map default]. unfold id.
      rewrite !Z.mod_small by lia. lia. }
  split; [exact Hc|]. rewrite compare_opp. lia.
Qed.

(* ===================================================================== *)
(** ** The text of an identifier *)
(* ===================================================================== *)

(** X20.  The encoder never returns on an identifier whose byte 0 is
    [0x80] or more, so neither do the methods built on it: [toString()],
    [equals] with such an identifier on either side, and [isNil()] run
    for ever on it. *)
Theorem encoder_diverges_high_byte x y fuel :
  KSUID.wf x -> 128 <= JS.ta_get (KSUID.bytes x) 0 ->
  KSUID.toString fuel x = None
  /\ KSUID.equals fuel x y = None
  /\ KSUID.equals fuel y x = None
  /\ KSUID.isNil fuel x = None.
Proof.
  intros Hwf Hb.
  pose proof (toString_diverges_high_byte x fuel Hwf Hb) as Hx.
  unfold KSUID.isNil, KSUID.equals. rewrite Hx.
  repeat apply conj; try reflexivity.
  destruct (KSUID.toString fuel y); reflexivity.
Qed.

Lemma wf_Nil : KSUID.wf KSUID.Nil.
Proof. wf_concrete. Qed.

Lemma words_nonneg_Nil : words_nonneg KSUID.Nil.
Proof.
  unfold words_nonneg.
  repeat (apply List.Forall_cons; [vm_compute; reflexivity|]).
  apply List.Forall_nil.
Qed.

(** X21.  On identifiers none of whose five words has its high bit set,
    [equals] returns and answers [true] exactly for identical bytes, and
    [isNil()] returns and answers [true] exactly for the twenty zero
    bytes. *)
Theorem equals_isNil_nonneg_words a b fuel :
  KSUID.wf a -> KSUID.wf b -> words_nonneg a -> words_nonneg b ->
  (28 <= fuel)%nat ->
  (exists r, KSUID.equals fuel a b = Some r
             /\ (r = true <-> KSUID.bytes a = KSUID.bytes b))
  /\ (exists r, KSUID.isNil fuel a = Some r
                /\ (r = true <-> KSUID.bytes a = repeat 0 20)).
Proof.
  intros Ha Hb Hna Hnb Hf. split.
  - apply equals_nonneg_words; assumption.
  - apply (equals_nonneg_words a KSUID.Nil fuel Ha wf_Nil Hna words_nonneg_Nil Hf).
Qed.

Lemma char_of_in_alphabet d : 0 <= d < 62 -> in_alphabet (char_of d) = true.
Proof.
  intros Hd.
  assert (Hall : forallb (fun n => in_alphabet (char_of (Z.of_nat n))) (seq 0 62)
                 = true) by (vm_compute; reflexivity).
  rewrite forallb_forall in Hall.
  rewrite <- (Z2Nat.id d) by lia. apply Hall, in_seq. lia.
Qed.

Lemma text_of_alphabet v : forallb in_alphabet (text_of v) = true.
Proof.
  unfold text_of. apply forallb_forall. intros c Hc.
  apply in_map_iff in Hc. destruct Hc as (d & <- & Hd).
  apply char_of_in_alphabet.
  pose proof (digits_range 62 27 v ltac:(lia)) as Hr.
  rewrite Forall_forall in Hr. apply Hr, list_elem_of_In, Hd.
Qed.

Lemma text_of_value v :
  0 <= v < 2 ^ 160 -> val 62 (Base62.digits_of (text_of v)) = v.
Proof.
  intros Hv. rewrite text_of_digits, val_digits by lia.
  apply Z.mod_small.
  assert (2 ^ 160 < 62 ^ Z.of_nat 27) by (vm_compute; reflexivity). lia.
Qed.

Lemma parse_text_of x :
  KSUID.wf x -> words_nonneg x ->
  KSUID.parse (text_of (ksuid_value x)) = Some x.
Proof.
  intros Hwf Hn. unfold ksuid_value.
  destruct (words_value x Hwf Hn) as (_ & _ & Hv).
  set (s := text_of (val 256 (KSUID.bytes x))).
  destruct (alphabet_bounds s (text_of_length _) (text_of_alphabet _))
    as [Hmin Hmax].
  unfold KSUID.parse.
  rewrite (text_of_length _ : length s = STRING_ENCODED_LENGTH), Nat.eqb_refl.
  rewrite Hmin. cbn [negb orb].
  destruct (JS.str_ltb MAX_STRING_ENCODED s) eqn:E.
  { pose proof (proj1 Hmax eq_refl) as Hge. unfold s in Hge.
    rewrite text_of_value in Hge by exact Hv. lia. }
  unfold s. rewrite decodeBase62_text_of by exact Hv.
  rewrite digits_bytes by exact Hwf.
  unfold KSUID.construct. rewrite (proj1 Hwf), Nat.eqb_refl. cbn [negb].
  destruct x. reflexivity.
Qed.

(** X22.  The round trip through the text: on an identifier none of whose
    five words has its high bit set, [toString()] returns 27 characters of
    the alphabet, and [parse] and [parseOrNil] take them back to the same
    identifier. *)
Theorem toString_parse_round_trip x fuel :
  KSUID.wf x -> words_nonneg x -> (28 <= fuel)%nat ->
  exists s,
    KSUID.toString fuel x = Some s
    /\ length s = STRING_ENCODED_LENGTH
    /\ forallb in_alphabet s = true
    /\ KSUID.parse s = Some x
    /\ KSUID.parseOrNil s = x.
Proof.
  intros Hwf Hn Hf. exists (text_of (ksuid_value x)).
  pose proof (parse_text_of x Hwf Hn) as Hp.
  repeat apply conj.
  - apply encodeBase62_nonneg_words; assumption.
  - apply text_of_length.
  - apply text_of_alphabet.
  - exact Hp.
  - unfold KSUID.parseOrNil. rewrite Hp. reflexivity.
Qed.

(** X23.  The round trip through the bytes: when [parse] accepts a string
    of the alphabet and none of the five words of the identifier has its
    high bit set, [toString()] of the identifier is the string. *)
Theorem parse_toString_round_trip s x fuel :
  forallb in_alphabet s = true -> KSUID.parse s = Some x ->
  words_nonneg x -> (28 <= fuel)%nat ->
  KSUID.toString fuel x = Some s.
Proof.
  intros Hs Hp Hn Hf.
  assert (Hok : is_Some (KSUID.parse s)) by (exists x; exact Hp).
  apply parse_returns_iff in Hok. destruct Hok as (Hlen & _ & _ & Ha & Hv).
  pose proof (parse_value s x Hp) as Hb.
  unfold KSUID.toString.
  apply (round_trip_text_nonneg_words s (KSUID.bytes x) fuel Hlen Hs);
    [|destruct x; exact Hn | exact Hf].
  rewrite Hb. apply decodeBase62_value; assumption.
Qed.

Lemma ta_set_num_length dst n v : length (JS.ta_set_num dst n v) = length dst.
Proof. unfold JS.ta_set_num. apply ta_set_length. Qed.

Lemma encode_loop_length fuel :
  forall bp n dst res,
    Base62.encode_loop fuel bp n dst = Some res -> length (snd res) = length dst.
Proof.
  induction fuel as [|fuel IH]; intros bp n dst res Hrun.
  - destruct bp; [|discriminate]. cbn in Hrun. injection Hrun as <-. reflexivity.
  - destruct bp as [|c bp].
    + cbn in Hrun. injection Hrun as <-. reflexivity.
    + cbn [Base62.encode_loop] in Hrun.
      destruct (Base62.long_division 4294967296 62 (c :: bp)) as [q r].
      apply IH in Hrun. rewrite Hrun. apply ta_set_num_length.
Qed.

(** X24.  Whatever bytes it is given, the encoder, when it returns,
    returns 27 code units, each below [0x80]: the text never has another
    length, and every byte it hands to the decoder of the platform is one
    character. *)
Theorem encodeBase62_shape fuel bytes s :
  Base62.encodeBase62 fuel bytes = Some s ->
  length s = STRING_ENCODED_LENGTH /\ Forall (fun c => 0 <= c < 128) s.
Proof.
  intros Hrun. split; [|exact (fastEncodeBase62_ascii fuel bytes s Hrun)].
  unfold Base62.encodeBase62, Base62.fastEncodeBase62, JS.utf8_decode_ascii in Hrun.
  destruct (Base62.encode_loop fuel _ _ _) as [[n dst']|] eqn:E; [|discriminate].
  injection Hrun as <-.
  apply encode_loop_length in E. cbn [snd] in E.
  unfold Base62.pad_head.
  generalize (seq 0 (Z.to_nat n)). intros l.
  revert dst' E. induction l as [|i l IH]; intros dst' E; [exact E|].
  cbn [fold_left]. apply IH. rewrite ta_set_num_length. exact E.
Qed.

(* ===================================================================== *)
(** ** The decoder on every string *)
(* ===================================================================== *)

(** X25.  [decodeBase62] reads the UTF-8 bytes of its argument, whatever
    the characters are: it throws unless there are 27 bytes and the number
    their digits denote is below [2^160], and then it returns the twenty
    big-endian bytes of that number. *)
Theorem decodeBase62_bytes s :
  let src := JS.utf8_encode s in
  Base62.decodeBase62 s
  = if (length src =? STRING_ENCODED_LENGTH)%nat
       && (val 62 (Base62.digits_of src) <? 2 ^ 160)
    then Some (digits 256 20 (val 62 (Base62.digits_of src)))
    else None.
Proof.
  intros src. unfold Base62.decodeBase62, Base62.fastDecodeBase62. fold src.
  destruct (Nat.eqb_spec (length src) STRING_ENCODED_LENGTH) as [Hlen|Hlen];
    cbn [negb andb]; [|reflexivity].
  destruct (Z.ltb_spec (val 62 (Base62.digits_of src)) (2 ^ 160)) as [Hv|Hv].
  - change (Z.of_nat BYTE_LENGTH) with (4 * Z.of_nat 5).
    rewrite (decode_loop_bytes 5).
    + change (drop (4 * 5) (JS.ta_new BYTE_LENGTH)) with (@nil Z).
      rewrite app_nil_r. reflexivity.
    + apply digits_nonneg.
    + discriminate.
    + exact Hv.
    + unfold Base62.decode_fuel. lia.
    + change (length (JS.ta_new BYTE_LENGTH)) with 20%nat. lia.
  - destruct (decode_loop_digits Base62.decode_fuel src (JS.ta_new BYTE_LENGTH))
      as (dst' & _ & ->).
    + unfold Base62.decode_fuel. lia.
    + intros E. rewrite E in Hlen. discriminate Hlen.
    + replace (val 62 (Base62.digits_of src) <? 2 ^ 160) with false
        by (symmetry; apply Z.ltb_ge; exact Hv).
      reflexivity.
Qed.

(** X26.  [base62Value] undoes the alphabet: the character at index [i]
    of [BASE62_CHARACTERS] has the value [i], for each of the 62
    indices. *)
Theorem base62Value_alphabet (i : nat) c :
  BASE62_CHARACTERS !! i = Some c -> Base62.base62Value c = Z.of_nat i.
Proof.
  intros Hc.
  do 62 (destruct i as [|i]; [injection Hc as <-; reflexivity|]).
  discriminate Hc.
Qed.

(* ===================================================================== *)
(** ** parseOrNil *)
(* ===================================================================== *)

Lemma parse_wf s x : KSUID.parse s = Some x -> KSUID.wf x.
Proof.
  intros Hp. split.
  - rewrite (parse_value s x Hp). apply digits_length.
  - rewrite (parse_value s x Hp). apply (digits_range 256). lia.
Qed.

Lemma val_zero_digits base l :
  1 <= base -> Forall (fun d => 0 <= d) l -> val base l = 0 ->
  Forall (fun d => d = 0) l.
Proof.
  intros Hb. induction l as [|d l IH] using rev_ind; intros Hl Hv.
  - apply List.Forall_nil.
  - apply Forall_app in Hl. destruct Hl as [Hl Hd].
    apply Forall_cons in Hd. destruct Hd as [Hd _].
    rewrite val_snoc in Hv.
    pose proof (val_nonneg base l Hb Hl) as Hn.
    assert (val base l = 0 /\ d = 0) as [Hv0 ->] by nia.
    apply Forall_app. split; [apply IH; assumption|].
    apply List.Forall_cons; [reflexivity | apply List.Forall_nil].
Qed.

Lemma val_of_zeros base l : Forall (fun d => d = 0) l -> val base l = 0.
Proof.
  induction l as [|d l IH] using rev_ind; intros Hl; [reflexivity|].
  apply Forall_app in Hl. destruct Hl as [Hl Hd].
  apply Forall_cons in Hd. destruct Hd as [-> _].
  rewrite val_snoc, IH by exact Hl. lia.
Qed.

(** The characters below [0x80] that the decoder reads as the digit 0 are
    ['0'] and ['=']. *)
Lemma zero_digit_chars c :
  0 <= c < 128 ->
  (JS.to_uint8 (Base62.base62Value c) = 0 <-> c = 48 \/ c = 61).
Proof.
  intros Hc.
  assert (Hall : forallb
            (fun n => Bool.eqb (JS.to_uint8 (Base62.base62Value (Z.of_nat n)) =? 0)
                        ((Z.of_nat n =? 48) || (Z.of_nat n =? 61)))
            (seq 0 128) = true) by (vm_compute; reflexivity).
  rewrite forallb_forall in Hall.
  specialize (Hall (Z.to_nat c)). rewrite Z2Nat.id in Hall by lia.
  specialize (Hall ltac:(apply in_seq; lia)).
  apply Bool.eqb_prop in Hall.
  rewrite <- Z.eqb_eq, Hall, orb_true_iff, !Z.eqb_eq. reflexivity.
Qed.

Lemma str_ltb_zeros s :
  forall n, length s = n -> Forall (fun c => 48 <= c) s ->
            JS.str_ltb s (repeat 48 n) = false.
Proof.
  induction s as [|c s IH]; intros n Hlen Hs.
  - subst n. reflexivity.
  - destruct n as [|n]; [discriminate Hlen|].
    apply Forall_cons in Hs. destruct Hs as [Hc Hs].
    cbn [repeat JS.str_ltb].
    replace (c <? 48) with false by (symmetry; apply Z.ltb_ge; lia).
    destruct (48 <? c); [reflexivity|].
    apply IH; [cbn [length] in Hlen; lia | exact Hs].
Qed.

Lemma parse_zeros s :
  length s = STRING_ENCODED_LENGTH -> Forall (fun c => c = 48 \/ c = 61) s ->
  KSUID.parse s = Some KSUID.Nil.
Proof.
  intros Hlen Hs.
  assert (Hd : Forall (fun d => d = 0) (Base62.digits_of s)).
  { unfold Base62.digits_of. apply Forall_map.
    eapply Forall_impl; [exact Hs|]. cbn beta.
    intros c Hc. apply zero_digit_chars; [lia | exact Hc]. }
  assert (Hok : is_Some (KSUID.parse s)).
  { apply parse_returns_iff. repeat apply conj.
    - exact Hlen.
    - change MIN_STRING_ENCODED with (repeat 48 27).
      apply str_ltb_zeros; [exact Hlen|].
      eapply Forall_impl; [exact Hs|]. cbn beta. lia.
    - destruct s as [|c s]; [discriminate Hlen|].
      apply Forall_cons in Hs. destruct Hs as [Hc _].
      assert (HM : exists tl, MAX_STRING_ENCODED = 97 :: tl)
        by (eexists; vm_compute; reflexivity).
      destruct HM as [tl ->]. cbn [JS.str_ltb].
      replace (97 <? c) with false by (symmetry; apply Z.ltb_ge; lia).
      replace (c <? 97) with true by (symmetry; apply Z.ltb_lt; lia).
      reflexivity.
    - unfold ascii_only. apply forallb_forall. intros c Hc.
      rewrite Forall_forall in Hs. apply list_elem_of_In, Hs in Hc.
      apply Z.ltb_lt. lia.
    - rewrite val_of_zeros by exact Hd. lia. }
  destruct Hok as [x Hx]. rewrite Hx. f_equal.
  pose proof (parse_value s x Hx) as Hb.
  rewrite val_of_zeros, digits_zero in Hb by exact Hd.
  destruct x as [b]. cbn [KSUID.bytes] in Hb. subst b. reflexivity.
Qed.

(** X27.  [parseOrNil] never throws and always returns twenty bytes; it
    returns the all-zero identifier exactly when [parse] throws or the
    string has 27 characters each of which is ['0'] or ['='], a character
    that the decoder reads as the digit 0. *)
Theorem parseOrNil_spec s :
  is_string s ->
  KSUID.wf (KSUID.parseOrNil s)
  /\ (KSUID.parseOrNil s = KSUID.Nil
      <-> KSUID.parse s = None
          \/ (length s = STRING_ENCODED_LENGTH
              /\ Forall (fun c => c = 48 \/ c = 61) s)).
Proof.
  intros Hstr. unfold KSUID.parseOrNil.
  destruct (KSUID.parse s) as [x|] eqn:Hp.
  - split; [exact (parse_wf s x Hp)|]. split.
    + intros ->. right.
      assert (Hok : is_Some (KSUID.parse s)) by (exists KSUID.Nil; exact Hp).
      apply parse_returns_iff in Hok. destruct Hok as (Hlen & _ & _ & Ha & Hv).
      split; [exact Hlen|].
      pose proof (parse_value s _ Hp) as Hb.
      pose proof (val_nonneg 62 _ ltac:(lia) (digits_nonneg s)) as Hn.
      assert (H0 : val 62 (Base62.digits_of s) = 0).
      { apply (f_equal (val 256)) in Hb.
        rewrite val_digits in Hb by lia.
        change (val 256 (KSUID.bytes KSUID.Nil)) with 0 in Hb.
        change (256 ^ Z.of_nat 20) with (2 ^ 160) in Hb.
        rewrite Z.mod_small in Hb by lia. lia. }
      pose proof (val_zero_digits 62 _ ltac:(lia) (digits_nonneg s) H0) as Hd.
      unfold Base62.digits_of in Hd. rewrite Forall_map in Hd.
      unfold ascii_only in Ha. rewrite forallb_forall in Ha.
      unfold is_string in Hstr.
      rewrite Forall_forall in Hstr, Hd. apply Forall_forall. intros c Hc.
      apply zero_digit_chars; [|apply Hd, Hc].
      specialize (Hstr c Hc). apply list_elem_of_In, Ha, Z.ltb_lt in Hc. lia.
    + intros [Hnone | [Hlen Hs]]; [discriminate Hnone|].
      rewrite (parse_zeros s Hlen Hs) in Hp. congruence.
  - split; [apply wf_Nil|]. split; [intros _; left | intros _]; reflexivity.
Qed.

(* ===================================================================== *)
(** ** next and prev on every identifier *)
(* ===================================================================== *)

Lemma ksuid_value_parts x :
  KSUID.wf x ->
  ksuid_value x = val 256 (take 4 (KSUID.bytes x)) * 2 ^ 128 + payload_value x.
Proof.
  intros [Hlen _]. unfold ksuid_value, payload_value, KSUID.getPayload.
  rewrite <- (take_drop 4 (KSUID.bytes x)) at 1.
  rewrite val_app, length_drop, Hlen. reflexivity.
Qed.

Lemma payload_value_range x : KSUID.wf x -> 0 <= payload_value x < 2 ^ 128.
Proof.
  intros [Hlen Hall]. unfold payload_value, KSUID.getPayload.
  pose proof (val_bound (drop TIMESTAMP_BYTE_LENGTH (KSUID.bytes x))
                (Forall_drop _ _ _ Hall)) as Hb.
  rewrite length_drop, Hlen in Hb. exact Hb.
Qed.

Lemma getTimestamp_range x :
  KSUID.wf x -> - 2 ^ 31 <= KSUID.getTimestamp x < 2 ^ 31.
Proof.
  intros Hwf. rewrite (getTimestamp_signed x Hwf). apply to_int32_range.
Qed.

Lemma moved_payload x v :
  KSUID.wf x ->
  let y := KSUID.mk (take 4 (KSUID.bytes x) ++ be16 v) in
  KSUID.wf y
  /\ KSUID.getTimestamp y = KSUID.getTimestamp x
  /\ payload_value y = v mod 2 ^ 128
  /\ ksuid_value y = val 256 (take 4 (KSUID.bytes x)) * 2 ^ 128 + v mod 2 ^ 128.
Proof.
  intros Hwf y. pose proof (wf_parts x v Hwf) as Hy. fold y in Hy.
  pose proof (timestamp_length x Hwf) as Ht.
  assert (Hp : payload_value y = v mod 2 ^ 128)
    by (apply payload_value_parts; exact Ht).
  repeat apply conj.
  - apply Hy.
  - apply Hy.
  - unfold y. rewrite <- (timestamp_bytes_kept x Hwf), getTimestamp_be4.
    apply to_int32_small, getTimestamp_range, Hwf.
  - exact Hp.
  - rewrite (ksuid_value_parts y Hy), Hp. unfold y. cbn [KSUID.bytes].
    rewrite (take_app_length' _ _ 4) by (symmetry; exact Ht). reflexivity.
Qed.

(** X28.  What [next()] and [prev()] do to every identifier: they return,
    the result has the timestamp of the receiver, and its payload is the
    payload of the receiver plus one or minus one modulo [2^128].  No
    carry and no borrow reaches the timestamp. *)
Theorem next_prev_effect x :
  KSUID.wf x ->
  exists y z,
    KSUID.next x = Some y /\ KSUID.prev x = Some z
    /\ KSUID.wf y /\ KSUID.wf z
    /\ KSUID.getTimestamp y = KSUID.getTimestamp x
    /\ KSUID.getTimestamp z = KSUID.getTimestamp x
    /\ payload_value y = (payload_value x + 1) mod 2 ^ 128
    /\ payload_value z = (payload_value x - 1) mod 2 ^ 128.
Proof.
  intros Hwf. rewrite (next_spec x Hwf), (prev_spec x Hwf).
  eexists _, _. split; [reflexivity|]. split; [reflexivity|].
  destruct (moved_payload x (payload_value x + 1) Hwf) as (Hy & Hty & Hpy & _).
  destruct (moved_payload x (payload_value x - 1) Hwf) as (Hz & Htz & Hpz & _).
  repeat apply conj; first [apply Hy | apply Hz | assumption].
Qed.

(** X29.  Where [next()] and [prev()] keep the order: [compare] puts an
    identifier before its successor exactly when its payload is not the
    all-ones payload, and after its predecessor exactly when its payload is
    not the all-zero payload; at these two payloads the result wraps
    around within the same timestamp and the order is the opposite one. *)
Theorem next_prev_order x :
  KSUID.wf x ->
  exists y z,
    KSUID.next x = Some y /\ KSUID.prev x = Some z
    /\ (KSUID.compare x y < 0 <-> payload_value x <> 2 ^ 128 - 1)
    /\ (KSUID.compare x y > 0 <-> payload_value x = 2 ^ 128 - 1)
    /\ (KSUID.compare z x < 0 <-> payload_value x <> 0)
    /\ (KSUID.compare z x > 0 <-> payload_value x = 0).
Proof.
  intros Hwf. rewrite (next_spec x Hwf), (prev_spec x Hwf).
  eexists _, _. split; [reflexivity|]. split; [reflexivity|].
  destruct (moved_payload x (payload_value x + 1) Hwf) as (Hy & _ & _ & Hvy).
  destruct (moved_payload x (payload_value x - 1) Hwf) as (Hz & _ & _ & Hvz).
  cbv zeta in Hy, Hz, Hvy, Hvz.
  set (y := KSUID.mk (take 4 (KSUID.bytes x) ++ be16 (payload_value x + 1))) in *.
  set (z := KSUID.mk (take 4 (KSUID.bytes x) ++ be16 (payload_value x - 1))) in *.
  destruct (compare_value x y Hwf Hy) as (Hlt & _ & Hgt).
  destruct (compare_value z x Hz Hwf) as (Hlt' & _ & Hgt').
  rewrite Hlt, Hgt, Hlt', Hgt', Hvy, Hvz, (ksuid_value_parts x Hwf).
  pose proof (payload_value_range x Hwf) as Hr.
  set (P := payload_value x) in *.
  destruct (Z.eq_dec P (2 ^ 128 - 1)) as [E1|E1];
    destruct (Z.eq_dec P 0) as [E0|E0]; try lia.
  - replace (P + 1) with (2 ^ 128) by lia. rewrite Z_mod_same_full.
    rewrite (Z.mod_small (P - 1)) by lia. lia.
  - rewrite (Z.mod_small (P + 1)) by lia.
    replace (P - 1) with (2 ^ 128 - 1 + (-1) * 2 ^ 128) by lia.
    rewrite Z.mod_add, Z.mod_small by lia. lia.
  - rewrite (Z.mod_small (P + 1)), (Z.mod_small (P - 1)) by lia. lia.
Qed.

(** X30.  [getTimestamp] returns the signed 32-bit reading of the first
    four bytes: when byte 0 is below [0x80] it is the unsigned number of
    the four bytes, and otherwise it is that number minus [2^32]. *)
Theorem getTimestamp_value x :
  KSUID.wf x ->
  KSUID.getTimestamp x
  = if JS.ta_get (KSUID.bytes x) 0 <? 128
    then val 256 (take 4 (KSUID.bytes x))
    else val 256 (take 4 (KSUID.bytes x)) - 2 ^ 32.
Proof.
  intros Hwf. rewrite getTimestamp_signed by exact Hwf.
  explode x Hwf. cbn [take firstn].
  lazymatch goal with
  | |- context [JS.ta_get (?b0 :: ?l) 0] =>
      change (JS.ta_get (b0 :: l) 0) with b0
  end.
  unfold is_byte in *. unfold JS.to_int32. cbv [val fold_left].
  change (2 ^ 31) with 2147483648. change (2 ^ 32) with 4294967296.
  lazymatch goal with
  | |- context [?b <? 128] => destruct (Z.ltb_spec b 128)
  end; Z.div_mod_to_equations; lia.
Qed.

(* ===================================================================== *)
(** ** Instances of the properties at concrete inputs *)
(* ===================================================================== *)

Ltac bytes_concrete :=
  lazymatch goal with
  | |- Forall is_byte ?l =>
      let l' := eval vm_compute in l in change (Forall is_byte l')
  end;
  repeat (apply List.Forall_cons; [unfold is_byte; lia|]);
  apply List.Forall_nil.

Ltac words_concrete :=
  unfold words_nonneg;
  repeat (apply List.Forall_cons; [vm_compute; reflexivity|]);
  apply List.Forall_nil.

Ltac order_concrete :=
  vm_compute; first [reflexivity | discriminate | intros H; discriminate H].

Ltac range_concrete := split; order_concrete.

(** X4 at the payload of the sample identifier. *)
Lemma toBytes_fromPayload_at_sample :
  Uint128.toBytes (Uint128.fromPayload (KSUID.getPayload sample_id))
  = KSUID.getPayload sample_id.
Proof.
  apply toBytes_fromPayload; [reflexivity | bytes_concrete].
Defined.

(** X5 at the all-ones identifier, whose timestamp reads as [-1]. *)
Lemma toKSUID_of_parts_at_Max :
  KSUID.getTimestamp KSUID.Max = -1
  /\ Uint128.toKSUID (Uint128.uint128Payload (KSUID.bytes KSUID.Max))
       (KSUID.getTimestamp KSUID.Max)
     = KSUID.bytes KSUID.Max.
Proof.
  split; [reflexivity|]. apply toKSUID_of_parts. wf_concrete.
Defined.

(** X7 at the values 1 and [2^128 - 1]. *)
Lemma Uint128_compare_order_at_ONE_MAX :
  Uint128.compare Uint128.ONE Uint128.MAX
  = match uint128_value Uint128.ONE ?= uint128_value Uint128.MAX with
    | Lt => -1
    | Eq => 0
    | Gt => 1
    end.
Proof.
  apply (Uint128_compare_order Uint128.ONE Uint128.MAX); range_concrete.
Defined.

(** X8 at [2^128 - 1] plus 1: the high half of the sum is [2^64], and the
    bytes are those of 0. *)
Lemma Uint128_add_exact_at_MAX_ONE :
  uint128_value (Uint128.add Uint128.MAX Uint128.ONE) = 2 ^ 128
  /\ Uint128.toBytes (Uint128.add Uint128.MAX Uint128.ONE) = be16 (2 ^ 128).
Proof.
  destruct (Uint128_add_exact Uint128.MAX Uint128.ONE) as (_ & Hv & Hb);
    [range_concrete | range_concrete |].
  split; [exact Hv | exact Hb].
Defined.

(** X9 at 0 minus 1: the high half of the difference is [-1], and the
    bytes are those of [2^128 - 1]. *)
Lemma Uint128_subtract_exact_at_ZERO_ONE :
  uint128_value (Uint128.subtract Uint128.ZERO Uint128.ONE) = -1
  /\ Uint128.toBytes (Uint128.subtract Uint128.ZERO Uint128.ONE) = be16 (-1).
Proof.
  destruct (Uint128_subtract_exact Uint128.ZERO Uint128.ONE) as (_ & Hv & Hb);
    [range_concrete | range_concrete |].
  split; [exact Hv | exact Hb].
Defined.

(** X10 at [2^128 - 1] and 1, where the sum leaves the range of 128 bits. *)
Lemma Uint128_add_subtract_inverse_at_MAX_ONE :
  Uint128.subtract (Uint128.add Uint128.MAX Uint128.ONE) Uint128.ONE
  = Uint128.MAX.
Proof.
  apply (Uint128_add_subtract_inverse Uint128.MAX Uint128.ONE); range_concrete.
Defined.

(** X11 at [2^128 - 1]. *)
Lemma Uint128_toString_hex_at_MAX :
  Uint128.toString Uint128.MAX
  = JS.str "0x" ++ map JS.hex_digit (digits 16 32 (uint128_value Uint128.MAX)).
Proof.
  apply (Uint128_toString_hex Uint128.MAX); range_concrete.
Defined.

(** X12 at the bytes of the sample identifier. *)
Lemma bytesToHex_spec_at_sample :
  length (Cli.bytesToHex (KSUID.bytes sample_id))
  = (2 * length (KSUID.bytes sample_id))%nat.
Proof.
  apply (bytesToHex_spec (KSUID.bytes sample_id)). bytes_concrete.
Defined.

(** X13 at the sample identifier and the later one. *)
Lemma compare_order_at_samples :
  KSUID.compare later_id sample_id = - KSUID.compare sample_id later_id.
Proof.
  apply (compare_order sample_id later_id); wf_concrete.
Defined.

(** X14 at the array of the sample identifier and the later one. *)
Lemma isSorted_spec_at_samples :
  KSUID.isSorted [sample_id; later_id] = true
  <-> forall (i j : nat) a b,
        (i < j)%nat ->
        [sample_id; later_id] !! i = Some a ->
        [sample_id; later_id] !! j = Some b ->
        ksuid_value a <= ksuid_value b.
Proof.
  apply isSorted_spec.
  apply List.Forall_cons; [wf_concrete|].
  apply List.Forall_cons; [wf_concrete|]. apply List.Forall_nil.
Defined.

(** X17 at a date of the year 2023, with the payload of the sample
    identifier. *)
Lemma getTime_fromParts_at_2023 :
  exists x,
    KSUID.fromParts (Some 1700000000123) (KSUID.getPayload sample_id) = Some x
    /\ KSUID.getTimestamp x = 1700000000123 / 1000 - EPOCH_STAMP
    /\ KSUID.getTime x = Some (1700000000123 / 1000 * 1000).
Proof.
  apply getTime_fromParts; [reflexivity | range_concrete].
Defined.

(** X18 at the all-ones identifier, whose timestamp reads as [-1]. *)
Lemma fromParts_getTime_getPayload_at_Max :
  KSUID.fromParts (KSUID.getTime KSUID.Max) (KSUID.getPayload KSUID.Max)
  = Some KSUID.Max.
Proof.
  apply fromParts_getTime_getPayload. wf_concrete.
Defined.

(** X19 at two dates one second apart, with a larger payload for the
    earlier date. *)
Lemma randomWithTime_sorts_by_time_at_2023 :
  exists x y,
    KSUID.randomWithTime (Some (repeat 255 16)) (Some 1700000000999) = Some x
    /\ KSUID.randomWithTime (Some (repeat 0 16)) (Some 1700000001000) = Some y
    /\ KSUID.compare x y < 0
    /\ KSUID.compare y x > 0.
Proof.
  apply randomWithTime_sorts_by_time;
    first [reflexivity | order_concrete].
Defined.

(** X20 at the all-ones identifier. *)
Lemma encoder_diverges_high_byte_at_Max :
  KSUID.toString 1000 KSUID.Max = None
  /\ KSUID.equals 1000 KSUID.Max KSUID.Nil = None
  /\ KSUID.equals 1000 KSUID.Nil KSUID.Max = None
  /\ KSUID.isNil 1000 KSUID.Max = None.
Proof.
  apply encoder_diverges_high_byte; [wf_concrete | order_concrete].
Defined.

(** X21 at the sample identifier and the later one. *)
Lemma equals_isNil_nonneg_words_at_samples :
  (exists r, KSUID.equals 28 sample_id later_id = Some r
             /\ (r = true <-> KSUID.bytes sample_id = KSUID.bytes later_id))
  /\ (exists r, KSUID.isNil 28 sample_id = Some r
                /\ (r = true <-> KSUID.bytes sample_id = repeat 0 20)).
Proof.
  apply equals_isNil_nonneg_words;
    first [wf_concrete | words_concrete | apply le_n].
Defined.

(** X22 at the sample identifier. *)
Lemma toString_parse_round_trip_at_sample :
  exists s,
    KSUID.toString 28 sample_id = Some s
    /\ length s = STRING_ENCODED_LENGTH
    /\ forallb in_alphabet s = true
    /\ KSUID.parse s = Some sample_id
    /\ KSUID.parseOrNil s = sample_id.
Proof.
  apply toString_parse_round_trip;
    first [wf_concrete | words_concrete | apply le_n].
Defined.

(** X23 at the text of the sample identifier. *)
Lemma parse_toString_round_trip_at_sample :
  KSUID.toString 28 sample_id = Some (JS.str "0ujtsTeJ9RfqTPS6kUjPKOsCgYI").
Proof.
  apply parse_toString_round_trip;
    first [words_concrete | apply le_n | vm_compute; reflexivity].
Defined.

(** X24 at the bytes of the sample identifier. *)
Lemma encodeBase62_shape_at_sample :
  length (JS.str "0ujtsTeJ9RfqTPS6kUjPKOsCgYI") = STRING_ENCODED_LENGTH
  /\ Forall (fun c => 0 <= c < 128) (JS.str "0ujtsTeJ9RfqTPS6kUjPKOsCgYI").
Proof.
  apply (encodeBase62_shape 28 (KSUID.bytes sample_id)).
  vm_compute. reflexivity.
Defined.

(** X26 at the first lower-case letter. *)
Lemma base62Value_alphabet_at_a : Base62.base62Value 97 = 36.
Proof.
  apply (base62Value_alphabet 36 97). reflexivity.
Defined.

(** X27 at a string of zeros with an equals sign: [parseOrNil] returns
    the all-zero identifier although [parse] does not throw. *)
Lemma parseOrNil_spec_at_equals_sign :
  KSUID.wf (KSUID.parseOrNil (JS.str "0=0000000000000000000000000"))
  /\ (KSUID.parseOrNil (JS.str "0=0000000000000000000000000") = KSUID.Nil
      <-> KSUID.parse (JS.str "0=0000000000000000000000000") = None
          \/ (length (JS.str "0=0000000000000000000000000")
              = STRING_ENCODED_LENGTH
              /\ Forall (fun c => c = 48 \/ c = 61)
                   (JS.str "0=0000000000000000000000000"))).
Proof.
  apply parseOrNil_spec. unfold is_string.
  lazymatch goal with
  | |- Forall ?P ?l => let l' := eval vm_compute in l in change (Forall P l')
  end.
  repeat (apply List.Forall_cons; [lia|]). apply List.Forall_nil.
Defined.

(** X28 at timestamp 0 with the all-ones payload, where the payload wraps
    around. *)
Lemma next_prev_effect_at_max_payload :
  exists y z,
    KSUID.next max_payload = Some y /\ KSUID.prev max_payload = Some z
    /\ KSUID.wf y /\ KSUID.wf z
    /\ KSUID.getTimestamp y = KSUID.getTimestamp max_payload
    /\ KSUID.getTimestamp z = KSUID.getTimestamp max_payload
    /\ payload_value y = (payload_value max_payload + 1) mod 2 ^ 128
    /\ payload_value z = (payload_value max_payload - 1) mod 2 ^ 128.
Proof.
  apply next_prev_effect. wf_concrete.
Defined.

(** X29 at the sample identifier. *)
Lemma next_prev_order_at_sample :
  exists y z,
    KSUID.next sample_id = Some y /\ KSUID.prev sample_id = Some z
    /\ (KSUID.compare sample_id y < 0 <-> payload_value sample_id <> 2 ^ 128 - 1)
    /\ (KSUID.compare sample_id y > 0 <-> payload_value sample_id = 2 ^ 128 - 1)
    /\ (KSUID.compare z sample_id < 0 <-> payload_value sample_id <> 0)
    /\ (KSUID.compare z sample_id > 0 <-> payload_value sample_id = 0).
Proof.
  apply next_prev_order. wf_concrete.
Defined.

(** X30 at the all-ones identifier. *)
Lemma getTimestamp_value_at_Max :
  KSUID.getTimestamp KSUID.Max
  = if JS.ta_get (KSUID.bytes KSUID.Max) 0 <? 128
    then val 256 (take 4 (KSUID.bytes KSUID.Max))
    else val 256 (take 4 (KSUID.bytes KSUID.Max)) - 2 ^ 32.
Proof.
  apply getTimestamp_value. wf_concrete.
Defined.


(** X2 at the upper bound of the texts. *)
Lemma parse_alphabet_fails_iff_at_upper_bound :
  KSUID.parse MAX_STRING_ENCODED = None
  <-> length MAX_STRING_ENCODED <> STRING_ENCODED_LENGTH
      \/ 2 ^ 160 <= val 62 (Base62.digits_of MAX_STRING_ENCODED).
Proof.
  apply parse_alphabet_fails_iff. vm_compute. reflexivity.
Defined.
